(** * The view-line renderer and the marker navigation of the editor,
      embedded and verified

    Sources: [src/vs/editor/common/viewLayout/viewLineRenderer.ts] and
    [src/vs/editor/contrib/gotoError/browser/gotoError.ts].

    [renderLine] turns one line of text, cut into styling parts, into a markup
    string and a table that gives, for every character index, the horizontal
    offset of that character inside its part.  [MarkerModel] keeps the
    markers of a file and steps through them; [MessageWidget] lays out the
    message of the current one.

    Conventions of the embedding.
    - A JavaScript string is the list of its UTF-16 code units ([list Z]).
    - The integer-valued numbers of the renderer ([tabSize],
      [stopRenderingLineAfter], [startIndex], the loop counters) are in [Z];
      a number computed from them may be [NaN] (the remainder by a zero tab
      size), so the running offsets have type [num].
    - [spaceWidth] is a pixel width, in general a fraction: its type, its
      product with a glyph count and its conversion to text are parameters of
      the development ([pixels], [pxMul], [pxText]).
    - An array is a list of slots; a slot that was never written is a hole
      ([None]).  Writing past the end extends the array, as JavaScript does.
    - [throw] is the [Throw] constructor of [completion].
    - The fields of a class that its methods write are a record, which the
      methods take and return. *)

From Stdlib Require Import ZArith String Ascii DecimalString Lia.
From stdpp Require Import base tactics option list.

Local Open Scope Z_scope.

(** ** JavaScript strings *)

Abbreviation jsstring := (list Z).

(** The code units of an ASCII literal of the source. *)
Definition lit (s : string) : jsstring :=
  map (fun a => Z.of_N (N_of_ascii a)) (list_ascii_of_string s).

(** The double quote, which the literals of the markup contain. *)
Definition dquote : jsstring := [34].

(** [s.charAt(i)]: the empty string when [i] is out of range. *)
Definition charAt (s : jsstring) (i : nat) : jsstring :=
  match s !! i with
  | Some c => [c]
  | None => []
  end.

Fixpoint startsWith (needle hay : jsstring) : bool :=
  match needle, hay with
  | [], _ => true
  | _ :: _, [] => false
  | n :: needle', h :: hay' => (n =? h) && startsWith needle' hay'
  end.

(** [hay.indexOf(needle)], counted from [i]: the first position at which
    [needle] occurs, or [-1]. *)
Fixpoint indexOfFrom (needle hay : jsstring) (i : Z) : Z :=
  if startsWith needle hay then i
  else match hay with
       | [] => -1
       | _ :: hay' => indexOfFrom needle hay' (i + 1)
       end.

Definition indexOf (hay needle : jsstring) : Z := indexOfFrom needle hay 0.

(** ** JavaScript numbers, as far as the renderer computes with them *)

Inductive num : Type :=
| Int (z : Z)
| NaN.

Definition num_add (a b : num) : num :=
  match a, b with
  | Int x, Int y => Int (x + y)
  | _, _ => NaN
  end.

Definition num_sub (a b : num) : num :=
  match a, b with
  | Int x, Int y => Int (x - y)
  | _, _ => NaN
  end.

(** [a % b]: the sign follows the dividend; the remainder by zero is [NaN]. *)
Definition num_rem (a b : num) : num :=
  match a, b with
  | Int x, Int y => if y =? 0 then NaN else Int (Z.rem x y)
  | _, _ => NaN
  end.

(** [a === k] for an integer constant [k]. *)
Definition num_is (a : num) (k : Z) : bool :=
  match a with
  | Int x => x =? k
  | NaN => false
  end.

(** [a < k]; every comparison with [NaN] is false. *)
Definition num_ltb (a : num) (k : Z) : bool :=
  match a with
  | Int x => x <? k
  | NaN => false
  end.

(** [a > k] *)
Definition num_gtb (a : num) (k : Z) : bool :=
  match a with
  | Int x => k <? x
  | NaN => false
  end.

(** How often [while (n > 0) { ...; n-- }] runs its body. *)
Definition iterations (n : num) : nat :=
  match n with
  | Int x => Z.to_nat x
  | NaN => 0%nat
  end.

(** [s.charCodeAt(i)]: [NaN] when [i] is out of range. *)
Definition charCodeAt (s : jsstring) (i : nat) : num :=
  match s !! i with
  | Some c => Int c
  | None => NaN
  end.

(** [String.fromCharCode(n)]: the argument is reduced to 16 bits, [NaN] to 0. *)
Definition fromCharCode (n : num) : jsstring :=
  match n with
  | Int x => [x mod 65536]
  | NaN => [0]
  end.

(** ** JavaScript arrays of numbers *)

Abbreviation jsarray := (list (option num)).

(** [a[i] = v]: replaces slot [i], or extends the array up to [i], leaving
    holes in between. *)
Definition array_set (i : nat) (v : num) (a : jsarray) : jsarray :=
  if decide (i < length a)%nat then <[i := Some v]> a
  else a ++ replicate (i - length a) None ++ [Some v].

(** [a.push(v)] *)
Definition array_push (v : num) (a : jsarray) : jsarray := a ++ [Some v].

(** ** Character codes *)

(** Modelled from the spec: the enumeration [CharCode] of
    [vs/base/common/charCode] is imported by the renderer and is not among the
    sources.  Each member is the UTF-16 code unit of the character that its
    name and the specification denote; the designated hard space is U+00A0,
    the no-break space. *)
Module CharCode.
Definition Null : Z := 0.
Definition Tab : Z := 9.
Definition CarriageReturn : Z := 13.
Definition Space : Z := 32.
Definition Ampersand : Z := 38.
Definition LessThan : Z := 60.
Definition GreaterThan : Z := 62.
Definition HardSpace : Z := 160.
Definition LINE_SEPARATOR_2028 : Z := 8232.
Definition UTF8_BOM : Z := 65279.
End CharCode.

(** ** Data model *)

(** Modelled from the spec: the class [ViewLineToken] of
    [vs/editor/common/core/viewLineToken] is not among the sources; the
    renderer reads its two fields [startIndex] and [type]. *)
Record ViewLineToken : Type := mkToken {
  startIndex : Z;
  type : jsstring
}.

Inductive RenderWhitespace : Type :=
| rw_none
| rw_boundary
| rw_all.

Definition isNone (m : RenderWhitespace) : bool :=
  match m with
  | rw_none => true
  | _ => false
  end.

Record RenderLineOutput : Type := mkOutput {
  charOffsetInPart : jsarray;
  lastRenderedPartIndex : Z;
  output : jsstring
}.

(** The result of a call: a value, or the one error the renderer throws. *)
Inductive completion : Type :=
| Returned (r : RenderLineOutput)
| Throw (message : jsstring).

(** The locals of [renderLineActual] that live across loop iterations.
    [offsetInPart] is the local [charOffsetInPart]; the field of that name
    belongs to [RenderLineOutput]. *)
Record locals : Type := mkLocals {
  charIndex : nat;
  out : jsstring;
  charOffsetInPartArr : jsarray;
  offsetInPart : num;
  tabsCharDelta : num
}.

(** The locals of the whitespace branch, which buffers the content of the
    part and counts its glyphs. *)
Record wsLocals : Type := mkWs {
  ws : locals;
  partContentCnt : Z;
  partContent : jsstring
}.

(** What a loop hands to the code after it: it ran to its end, or it
    executed [return]. *)
Inductive flow (St : Type) : Type :=
| Next (st : St)
| Return (r : RenderLineOutput).
Arguments Next {St} st.
Arguments Return {St} r.

(** ** Helper predicates of the source *)

Definition isWhitespace (type : jsstring) : bool :=
  0 <=? indexOf type (lit "whitespace").

Definition isControlCharacter (characterCode : num) : bool :=
  num_ltb characterCode 32.

Definition _controlCharacterSequenceConversionStart : Z := 9216.

Definition controlCharacterToPrintable (characterCode : num) : jsstring :=
  fromCharCode (num_add (Int _controlCharacterSequenceConversionStart) characterCode).

(** ** Literals of the markup *)

Definition nbsp : jsstring := lit "&nbsp;".
Definition rarr : jsstring := lit "&rarr;".
Definition middot : jsstring := lit "&middot;".
Definition hellip_close : jsstring := lit "&hellip;</span></span>".
Definition span_close : jsstring := lit "</span>".

(** [while (n > 0) { s += '&nbsp;'; n-- }], run [n] times. *)
Fixpoint appendNbsp (n : nat) (s : jsstring) : jsstring :=
  match n with
  | O => s
  | S n' => appendNbsp n' (s ++ nbsp)
  end.

(** The code units of a string lie in 16 bits. *)
Definition codeUnits (s : jsstring) : Prop := Forall (fun c => 0 <= c < 65536) s.

(** A string without a carriage return. *)
Definition noCR (s : jsstring) : Prop :=
  Forall (fun c => c <> CharCode.CarriageReturn) s.

(** ** Integer pixel widths *)

(** Pixel widths that are integers: the product is that of [Z], the text
    of a width its decimal numeral. *)
Definition intText (z : Z) : jsstring := lit (NilZero.string_of_int (Z.to_int z)).

(** ** The contract on the parts *)

(** The start indices [starts] ascend from [a] on. *)
Fixpoint ascendingFrom (a : Z) (starts : list Z) : Prop :=
  match starts with
  | [] => True
  | s :: starts' => a <= s /\ ascendingFrom s starts'
  end.

(** ** The marker navigation of the editor

    Source: [src/vs/editor/contrib/gotoError/browser/gotoError.ts].

    The class [MarkerModel] keeps the markers of a file and the index of the
    current one; [next] and [previous] move that index and announce the
    marker it points at.  The marker objects, their severity and the
    position of the editor come from other files: a marker is a value of a
    type [IMarker] with decidable equality, which stands for the identity of
    the object, and its fields and the comparison of positions are
    parameters.  An event that the model fires is returned by the method
    that fires it. *)

(** The object literal [{ lineNumber, column }]. *)
Record IPosition : Type := mkIPosition {
  lineNumber : Z;
  column : Z
}.

(** [a[i]] for an integer [i]: [undefined] outside the array. *)
Definition item {A : Type} (a : list A) (i : Z) : option A :=
  if i <? 0 then None else a !! Z.to_nat i.

(** [a.indexOf(x)], counted from [i]: the first index at which [x] is, or
    [-1]. *)
Fixpoint arrayIndexOf {A : Type} `{EqDecision A} (a : list A) (x : A) (i : Z) : Z :=
  match a with
  | [] => -1
  | y :: a' => if decide (y = x) then i else arrayIndexOf a' x (i + 1)
  end.

(** What the model uses of the marker objects and of the editor: the
    identity of a marker and of a severity, [Severity.Error], the fields of
    a marker that are read, [position.isBeforeOrEqual(pos)] for the
    position of the editor, and [Range.containsPosition(marker, pos)]. *)
Class MarkerHost (IMarker Severity Position : Type) : Type := {
  marker_eq_dec :: EqDecision IMarker;
  severity_eq_dec :: EqDecision Severity;
  Severity_Error : Severity;
  severity : IMarker -> Severity;
  startLineNumber : IMarker -> Z;
  startColumn : IMarker -> Z;
  isBeforeOrEqual : Position -> IPosition -> bool;
  containsPosition : IMarker -> IPosition -> bool
}.

Module MarkerModel.

Section Model.

Context {IMarker Severity Position : Type}.
Context `{!MarkerHost IMarker Severity Position}.

(** The fields of the class that its methods read and write. *)
Record fields : Type := mkFields {
  _markers : list IMarker;
  _nextIdx : Z;
  _ignoreSelectionChange : bool
}.

Definition setNextIdx (idx : Z) (this : fields) : fields :=
  mkFields (_markers this) idx (_ignoreSelectionChange this).

Definition setIgnoreSelectionChange (b : bool) (this : fields) : fields :=
  mkFields (_markers this) (_nextIdx this) b.

(** The listener that the constructor registers for changes of the cursor
    position. *)
Definition onDidChangeCursorPosition (this : fields) : fields :=
  if negb (_ignoreSelectionChange this) then setNextIdx (-1) this else this.

(** [callback] runs with the flag set; the flag is cleared behind it. *)
Definition withoutWatchingEditorPosition (callback : fields -> fields)
    (this : fields) : fields :=
  setIgnoreSelectionChange false (callback (setIgnoreSelectionChange true this)).

(** The loop of [initIdx] from index [i] on: the index it assigns when it
    finds a marker at or behind [position]. *)
Fixpoint initIdxLoop (fwd : bool) (position : Position) (markers : list IMarker)
    (i : Z) : option Z :=
  match markers with
  | [] => None
  | marker :: rest =>
      let pos := mkIPosition (startLineNumber marker) (startColumn marker) in
      if isBeforeOrEqual position pos then Some (i + (if fwd then 0 else -1))
      else initIdxLoop fwd position rest (i + 1)
  end.

(** [position] is what [this._editor.getPosition()] returns. *)
Definition initIdx (fwd : bool) (position : Position) (this : fields) : fields :=
  let len := Z.of_nat (length (_markers this)) in
  let nextIdx :=
    match initIdxLoop fwd position (_markers this) 0 with
    | Some idx => idx
    | None => if fwd then 0 else len - 1
    end in
  setNextIdx (if nextIdx <? 0 then len - 1 else nextIdx) this.

Definition canNavigate (this : fields) : bool :=
  0 <? Z.of_nat (length (_markers this)).

(** [move] returns the fields and the marker that [onCurrentMarkerChanged]
    fires, [None] for [undefined]. *)
Definition move (fwd : bool) (position : Position) (this : fields)
    : fields * option IMarker :=
  if negb (canNavigate this) then (this, None)
  else
    let len := Z.of_nat (length (_markers this)) in
    let this :=
      if _nextIdx this =? -1 then initIdx fwd position this
      else if fwd then
        let idx := _nextIdx this + 1 in
        setNextIdx (if len <=? idx then 0 else idx) this
      else
        let idx := _nextIdx this - 1 in
        setNextIdx (if idx <? 0 then len - 1 else idx) this in
    (this, item (_markers this) (_nextIdx this)).

Definition next (position : Position) (this : fields) : fields * option IMarker :=
  move true position this.

Definition previous (position : Position) (this : fields) : fields * option IMarker :=
  move false position this.

(** The loop of [findMarkerAtPosition]: the first marker that contains
    [pos]; [undefined] when there is none. *)
Fixpoint findMarkerLoop (markers : list IMarker) (pos : IPosition)
    : option IMarker :=
  match markers with
  | [] => None
  | marker :: rest =>
      if containsPosition marker pos then Some marker
      else findMarkerLoop rest pos
  end.

Definition findMarkerAtPosition (this : fields) (pos : IPosition) : option IMarker :=
  findMarkerLoop (_markers this) pos.

(** The loop of [stats]. *)
Fixpoint statsLoop (markers : list IMarker) (errors others : Z) : Z * Z :=
  match markers with
  | [] => (errors, others)
  | marker :: rest =>
      if decide (severity marker = Severity_Error) then statsLoop rest (errors + 1) others
      else statsLoop rest errors (others + 1)
  end.

Definition stats (this : fields) : Z * Z := statsLoop (_markers this) 0 0.

Definition total (this : fields) : Z := Z.of_nat (length (_markers this)).

Definition indexOf (this : fields) (marker : IMarker) : Z :=
  1 + arrayIndexOf (_markers this) marker 0.

(** [reveal]: the position it hands to the editor, if any, and the fields
    after the editor has called the listener [events] times while the
    position was set.  Reading the fields of [undefined] throws; no position
    is handed on then. *)
Definition reveal (events : nat) (this : fields) : fields * option IPosition :=
  if _nextIdx this =? -1 then (this, None)
  else
    (withoutWatchingEditorPosition
       (fun this => Nat.iter events onDidChangeCursorPosition this) this,
     match item (_markers this) (_nextIdx this) with
     | Some marker => Some (mkIPosition (startLineNumber marker) (startColumn marker))
     | None => None
     end).

(** The index is [-1], for none, or the index of a marker. *)
Definition indexInv (this : fields) : Prop :=
  _nextIdx this = -1 \/ 0 <= _nextIdx this < Z.of_nat (length (_markers this)).

(** [marker] starts at or behind [position]. *)
Definition atOrBehind (position : Position) (marker : IMarker) : bool :=
  isBeforeOrEqual position
    (mkIPosition (startLineNumber marker) (startColumn marker)).

(** The marker at index [k] is the first that starts at or behind
    [position]. *)
Definition firstAtOrBehind (position : Position) (markers : list IMarker)
    (k : nat) : Prop :=
  (exists marker, markers !! k = Some marker /\ atOrBehind position marker = true) /\
  forall j marker, (j < k)%nat -> markers !! j = Some marker ->
    atOrBehind position marker = false.

End Model.

Arguments fields : clear implicits.

End MarkerModel.

(** Markers that are given by the number of their start line, in column
    1, for an editor whose position is a line: a position is before or
    equal to another one when its line is not behind the line of that
    one. *)
#[export] Instance markersByLine : MarkerHost nat bool Z := {|
  Severity_Error := true;
  severity := Nat.even;
  startLineNumber := Z.of_nat;
  startColumn := fun _ => 1;
  isBeforeOrEqual := fun position pos => position <=? lineNumber pos;
  containsPosition := fun marker pos => Z.of_nat marker =? lineNumber pos
|}.

Module MessageWidget.

(** [message.replace(/\r\n|\r|\n/g, () => { this.lines += 1; return '\n' +
    indent; })]: the text after the replacement and the value of [lines].
    13 and 10 are the code units of the carriage return and of the line
    feed. *)
Fixpoint replaceBreaks (indent : jsstring) (message : jsstring) (lines : Z)
    : jsstring * Z :=
  match message with
  | [] => ([], lines)
  | c :: rest =>
      if c =? 13 then
        match rest with
        | d :: rest' =>
            if d =? 10 then
              let '(s, l) := replaceBreaks indent rest' (lines + 1) in
              (10 :: indent ++ s, l)
            else
              let '(s, l) := replaceBreaks indent rest (lines + 1) in
              (10 :: indent ++ s, l)
        | [] => (10 :: indent, lines + 1)
        end
      else if c =? 10 then
        let '(s, l) := replaceBreaks indent rest (lines + 1) in
        (10 :: indent ++ s, l)
      else
        let '(s, l) := replaceBreaks indent rest lines in
        (c :: s, l)
  end.

(** What [update] leaves in the field [lines] and in the text of the
    node.  A source that is [undefined] or empty is not shown. *)
Record shown : Type := mkShown {
  lines : Z;
  innerText : jsstring
}.

Definition update (source : option jsstring) (message : jsstring) : shown :=
  match source with
  | Some (c :: src) =>
      let source := c :: src in
      let indent := replicate (length source + 3) 32 in
      let '(replaced, lines) := replaceBreaks indent message 1 in
      mkShown lines (lit "[" ++ source ++ lit "] " ++ replaced)
  | _ => mkShown 1 message
  end.

(** A string without a carriage return and without a line feed. *)
Definition noBreak (s : jsstring) : Prop := Forall (fun c => c <> 13 /\ c <> 10) s.

(** The lines [first], [rest] with [sep] in front of every line but the
    first. *)
Definition lineJoin (sep : jsstring) (first : jsstring) (rest : list jsstring)
    : jsstring :=
  first ++ concat (map (fun line => sep ++ line) rest).

(** The three line breaks of the pattern: a carriage return with a line
    feed behind it, a carriage return, a line feed. *)
Definition isLineBreak (brk : jsstring) : Prop :=
  brk = [13; 10] \/ brk = [13] \/ brk = [10].

(** [message] consists of the lines [first :: rest], with one line break
    between each line and the next.  A carriage return with a line feed
    behind it is one break, never two: a break that is a lone carriage
    return has no line feed behind it. *)
Inductive splitsInto : jsstring -> jsstring -> list jsstring -> Prop :=
| splits_last line :
    noBreak line -> splitsInto line line []
| splits_break line brk message first rest :
    noBreak line -> isLineBreak brk ->
    (brk = [13] -> head message <> Some 10) ->
    splitsInto message first rest ->
    splitsInto (line ++ brk ++ message) line (first :: rest).

End MessageWidget.

Module MarkerNavigationWidget.

Definition computeRequiredHeight (message : MessageWidget.shown) : Z :=
  1 + MessageWidget.lines message.

End MarkerNavigationWidget.

(** ** The renderer *)

Section Renderer.

(** Pixel widths: the type of [spaceWidth], the product
    [spaceWidth * partContentCnt] and the text that string concatenation
    makes of such a number. *)
Variable pixels : Type.
Variable pxMul : pixels -> Z -> pixels.
Variable pxText : pixels -> jsstring.

Record RenderLineInput : Type := mkInput {
  lineContent : jsstring;
  tabSize : Z;
  spaceWidth : pixels;
  stopRenderingLineAfter : Z;
  renderWhitespace : RenderWhitespace;
  renderHardSpace : bool;
  renderControlCharacters : bool;
  parts : list ViewLineToken
}.

(** The same request with another truncation column. *)
Definition withStopRenderingLineAfter (n : Z) (input : RenderLineInput) : RenderLineInput :=
  mkInput (lineContent input) (tabSize input) (spaceWidth input) n
          (renderWhitespace input) (renderHardSpace input)
          (renderControlCharacters input) (parts input).

(** [<span class="token T" style="width:Wpx">], with [W] the text of
    [spaceWidth * partContentCnt]. *)
Definition whitespaceOpen (sw : pixels) (ty : jsstring) (cnt : Z) : jsstring :=
  lit "<span class=" ++ dquote ++ lit "token " ++ ty ++ dquote
    ++ lit " style=" ++ dquote ++ lit "width:" ++ pxText (pxMul sw cnt)
    ++ lit "px" ++ dquote ++ lit ">".

(** [<span class="token T">], which the plain branch writes in three
    steps. *)
Definition plainOpen (ty : jsstring) : jsstring :=
  (lit "<span class=" ++ dquote ++ lit "token ") ++ ty ++ (dquote ++ lit ">").

(** One call of [renderLine], on the request [input].  [renderLineActual]
    is called from [renderLine] alone; its parameters are the constants
    below and fields of the request, passed on as they are. *)
Section Call.

Variable input : RenderLineInput.

(** The constants that [renderLine] computes from the request. *)
Definition lineText : jsstring := lineContent input.

Definition lineTextLength : Z := Z.of_nat (length lineText).

Definition charBreakIndex : Z :=
  if stopRenderingLineAfter input =? -1
  then lineTextLength
  else stopRenderingLineAfter input - 1.

(** [tabSize - (charIndex + tabsCharDelta) % tabSize], the expression of
    both branches. *)
Definition insertSpacesCount (st : locals) : num :=
  num_sub (Int (tabSize input))
          (num_rem (num_add (Int (Z.of_nat (charIndex st))) (tabsCharDelta st))
                   (Int (tabSize input))).

(** [charOffsetInPartArr[charIndex] = charOffsetInPart] *)
Definition recordOffset (st : locals) : locals :=
  mkLocals (charIndex st) (out st)
           (array_set (charIndex st) (offsetInPart st) (charOffsetInPartArr st))
           (offsetInPart st) (tabsCharDelta st).

(** [tabsCharDelta += n - 1; charOffsetInPart += n - 1] *)
Definition advanceTab (n : num) (st : locals) : locals :=
  mkLocals (charIndex st) (out st) (charOffsetInPartArr st)
           (num_add (offsetInPart st) (num_sub n (Int 1)))
           (num_add (tabsCharDelta st) (num_sub n (Int 1))).

(** [charOffsetInPart ++] *)
Definition incrOffset (st : locals) : locals :=
  mkLocals (charIndex st) (out st) (charOffsetInPartArr st)
           (num_add (offsetInPart st) (Int 1)) (tabsCharDelta st).

(** [charIndex++] *)
Definition incrIndex (st : locals) : locals :=
  mkLocals (S (charIndex st)) (out st) (charOffsetInPartArr st)
           (offsetInPart st) (tabsCharDelta st).

(** [out += s] *)
Definition emit (s : jsstring) (st : locals) : locals :=
  mkLocals (charIndex st) (out st ++ s) (charOffsetInPartArr st)
           (offsetInPart st) (tabsCharDelta st).

Definition setOut (s : jsstring) (st : locals) : locals :=
  mkLocals (charIndex st) s (charOffsetInPartArr st)
           (offsetInPart st) (tabsCharDelta st).

(** [charOffsetInPart = 0] *)
Definition resetOffset (st : locals) : locals :=
  mkLocals (charIndex st) (out st) (charOffsetInPartArr st)
           (Int 0) (tabsCharDelta st).

(** [charIndex >= charBreakIndex] *)
Definition atBreak (st : locals) : bool :=
  charBreakIndex <=? Z.of_nat (charIndex st).

(** The result of the two [return] statements inside the loops: the
    entry of the last index is written again, now with the offset behind
    the character. *)
Definition truncated (partIndex : nat) (st : locals) : RenderLineOutput :=
  mkOutput (array_set (charIndex st) (offsetInPart st) (charOffsetInPartArr st))
           (Z.of_nat partIndex)
           (out st).

(** *** The plain branch *)

(** The body of the loop for one character, up to [charOffsetInPart ++].
    The [switch] compares with [===], case by case in the order of the
    source. *)
Definition plainChar (st0 : locals) : locals :=
  let st := recordOffset st0 in
  let charCode := charCodeAt lineText (charIndex st) in
  let st :=
    if num_is charCode CharCode.Tab then
      let n := insertSpacesCount st in
      let st := advanceTab n st in
      setOut (appendNbsp (iterations n) (out st)) st
    else if num_is charCode CharCode.Space then emit nbsp st
    else if num_is charCode CharCode.LessThan then emit (lit "&lt;") st
    else if num_is charCode CharCode.GreaterThan then emit (lit "&gt;") st
    else if num_is charCode CharCode.Ampersand then emit (lit "&amp;") st
    else if num_is charCode CharCode.Null then emit (lit "&#00;") st
    else if num_is charCode CharCode.UTF8_BOM
            || num_is charCode CharCode.LINE_SEPARATOR_2028 then emit [65533] st
    else if num_is charCode CharCode.HardSpace then
      if renderHardSpace input then emit middot st
      else emit (charAt lineText (charIndex st)) st
    else if num_is charCode CharCode.CarriageReturn then emit (lit "&#8203") st
    else if renderControlCharacters input && isControlCharacter charCode then
      emit (controlCharacterToPrintable charCode) st
    else emit (charAt lineText (charIndex st)) st in
  incrOffset st.

(** [for (; charIndex < toCharIndex; charIndex++)], entered with
    [steps = toCharIndex - charIndex] characters to go. *)
Fixpoint plainLoop (partIndex : nat) (steps : nat) (st : locals) : flow locals :=
  match steps with
  | O => Next st
  | S steps' =>
      let st := plainChar st in
      if atBreak st then
        Return (truncated partIndex (emit hellip_close st))
      else plainLoop partIndex steps' (incrIndex st)
  end.

Definition plainPart (part : ViewLineToken) (partIndex : nat) (toCharIndex : Z)
    (st : locals) : flow locals :=
  let st := emit (plainOpen (type part)) st in
  match plainLoop partIndex (Z.to_nat (toCharIndex - Z.of_nat (charIndex st))) st with
  | Return r => Return r
  | Next st => Next (emit span_close st)
  end.

(** *** The whitespace branch *)

(** [while (n > 0) { partContent += '&nbsp;'; partContentCnt++; n-- }] *)
Fixpoint bufferNbsp (n : nat) (cnt : Z) (content : jsstring) : Z * jsstring :=
  match n with
  | O => (cnt, content)
  | S n' => bufferNbsp n' (cnt + 1) (content ++ nbsp)
  end.

(** The body of the loop for one character, up to [charOffsetInPart ++]. *)
Definition whitespaceChar (w : wsLocals) : wsLocals :=
  let st := recordOffset (ws w) in
  let charCode := charCodeAt lineText (charIndex st) in
  if num_is charCode CharCode.Tab then
    let n := insertSpacesCount st in
    let st := advanceTab n st in
    let '(cnt, content, n) :=
      if num_gtb n 0
      then (partContentCnt w + 1, partContent w ++ rarr, num_sub n (Int 1))
      else (partContentCnt w, partContent w, n) in
    let '(cnt, content) := bufferNbsp (iterations n) cnt content in
    mkWs (incrOffset st) cnt content
  else
    mkWs (incrOffset st) (partContentCnt w + 1) (partContent w ++ middot).

(** The first [return] of the source: the wrapper of the part, its
    buffered content and the ellipsis. *)
Definition whitespaceFlush (part : ViewLineToken) (closing : jsstring)
    (w : wsLocals) : locals :=
  emit closing
    (emit (partContent w)
       (emit (whitespaceOpen (spaceWidth input) (type part) (partContentCnt w)) (ws w))).

Fixpoint whitespaceLoop (part : ViewLineToken) (partIndex : nat) (steps : nat)
    (w : wsLocals) : flow wsLocals :=
  match steps with
  | O => Next w
  | S steps' =>
      let w := whitespaceChar w in
      if atBreak (ws w) then
        Return (truncated partIndex (whitespaceFlush part hellip_close w))
      else
        whitespaceLoop part partIndex steps'
          (mkWs (incrIndex (ws w)) (partContentCnt w) (partContent w))
  end.

Definition whitespacePart (part : ViewLineToken) (partIndex : nat) (toCharIndex : Z)
    (st : locals) : flow locals :=
  match whitespaceLoop part partIndex
          (Z.to_nat (toCharIndex - Z.of_nat (charIndex st))) (mkWs st 0 []) with
  | Return r => Return r
  | Next w => Next (whitespaceFlush part span_close w)
  end.

(** *** The loop over the parts *)

(** [toCharIndex]: the start of the next part, if there is one, cut at
    the length of the line. *)
Definition toCharIndexOf (rest : list ViewLineToken) : Z :=
  match rest with
  | [] => lineTextLength
  | nextPart :: _ => Z.min lineTextLength (startIndex nextPart)
  end.

(** The iterations of the outer loop from [partIndex] on; [actualLineParts]
    from that index on is [part :: rest]. *)
Fixpoint renderParts (lineParts : list ViewLineToken) (partIndex : nat)
    (st : locals) : flow locals :=
  match lineParts with
  | [] => Next st
  | part :: rest =>
      let parsRendersWhitespace :=
        negb (isNone (renderWhitespace input)) && isWhitespace (type part) in
      let toCharIndex := toCharIndexOf rest in
      let st := resetOffset st in
      match (if parsRendersWhitespace
             then whitespacePart part partIndex toCharIndex st
             else plainPart part partIndex toCharIndex st) with
      | Return r => Return r
      | Next st => renderParts rest (S partIndex) st
      end
  end.

Definition initialLocals : locals :=
  mkLocals 0 (lit "<span>") [] (Int 0) (Int 0).

Definition renderLineActual (actualLineParts : list ViewLineToken) : RenderLineOutput :=
  match renderParts actualLineParts 0 initialLocals with
  | Return r => r
  | Next st =>
      let st := emit span_close st in
      mkOutput (array_push (offsetInPart st) (charOffsetInPartArr st))
               (Z.of_nat (length actualLineParts) - 1)
               (out st)
  end.

(** *** The entry point *)

Definition emptyLineOutput : RenderLineOutput :=
  mkOutput [] 0 (lit "<span><span>&nbsp;</span></span>").

Definition renderLine : completion :=
  if lineTextLength =? 0 then Returned emptyLineOutput
  else if Z.of_nat (length (parts input)) =? 0 then
    Throw (lit "Cannot render non empty line without line parts!")
  else Returned (renderLineActual (parts input)).

(** *** The iterations that a call executes *)

(** An executed iteration of a character loop: the branch it belongs to and
    the locals in front of its body. *)
Inductive visit : Type :=
| PlainVisit (st : locals)
| WhitespaceVisit (w : wsLocals).

Definition visitLocals (v : visit) : locals :=
  match v with
  | PlainVisit st => st
  | WhitespaceVisit w => ws w
  end.

(** The iterations of [plainLoop], in order: the loop goes on behind an
    iteration unless that iteration returns. *)
Fixpoint plainLoopVisits (steps : nat) (st : locals) : list locals :=
  match steps with
  | O => []
  | S steps' =>
      st :: (let st' := plainChar st in
             if atBreak st' then [] else plainLoopVisits steps' (incrIndex st'))
  end.

Fixpoint whitespaceLoopVisits (steps : nat) (w : wsLocals) : list wsLocals :=
  match steps with
  | O => []
  | S steps' =>
      w :: (let w' := whitespaceChar w in
            if atBreak (ws w') then []
            else whitespaceLoopVisits steps'
                   (mkWs (incrIndex (ws w')) (partContentCnt w') (partContent w')))
  end.

(** The iterations of the character loops during [renderParts]. *)
Fixpoint renderPartsVisits (lineParts : list ViewLineToken) (partIndex : nat)
    (st : locals) : list visit :=
  match lineParts with
  | [] => []
  | part :: rest =>
      let toCharIndex := toCharIndexOf rest in
      let st := resetOffset st in
      if negb (isNone (renderWhitespace input)) && isWhitespace (type part) then
        map WhitespaceVisit
          (whitespaceLoopVisits (Z.to_nat (toCharIndex - Z.of_nat (charIndex st)))
             (mkWs st 0 []))
        ++ match whitespacePart part partIndex toCharIndex st with
           | Return _ => []
           | Next st' => renderPartsVisits rest (S partIndex) st'
           end
      else
        map PlainVisit
          (plainLoopVisits (Z.to_nat (toCharIndex - Z.of_nat (charIndex st)))
             (emit (plainOpen (type part)) st))
        ++ match plainPart part partIndex toCharIndex st with
           | Return _ => []
           | Next st' => renderPartsVisits rest (S partIndex) st'
           end
  end.

(** The iterations of the character loops during [renderLine]: none on an
    empty line or when it throws. *)
Definition renderLineVisits : list visit :=
  if lineTextLength =? 0 then []
  else if Z.of_nat (length (parts input)) =? 0 then []
  else renderPartsVisits (parts input) 0 initialLocals.

(** The character indices of these iterations. *)
Definition visitedIndices : list nat :=
  map (fun v => charIndex (visitLocals v)) renderLineVisits.

(** ** Properties of the locals, of the markup and of the table *)

(** The statements of one iteration that do not write markup, shared by
    the two branches: record the offset, advance by a tab run, count the
    character. *)
Definition bookkeeping (st : locals) : locals :=
  let isTab := num_is (charCodeAt lineText (charIndex st)) CharCode.Tab in
  let n := insertSpacesCount st in
  mkLocals (charIndex st) (out st)
    (array_set (charIndex st) (offsetInPart st) (charOffsetInPartArr st))
    (if isTab
     then num_add (num_add (offsetInPart st) (num_sub n (Int 1))) (Int 1)
     else num_add (offsetInPart st) (Int 1))
    (if isTab
     then num_add (tabsCharDelta st) (num_sub n (Int 1))
     else tabsCharDelta st).

(** The three glyphs that the whitespace branch buffers. *)
Definition isGlyph (g : jsstring) : Prop := g = rarr \/ g = nbsp \/ g = middot.

(** The glyphs of a run of characters, one list for each character. *)
Definition glyphsFrom (from : nat) (per : list (list jsstring)) : Prop :=
  Forall (Forall isGlyph) per /\
  (forall k, (k < length per)%nat ->
     lineText !! (from + k)%nat <> Some CharCode.Tab -> per !! k = Some [middot]).

(** While the loops run, the table has one entry for each index below
    [charIndex], none of them a hole, and no index at or past the break
    index has been left behind, the first index apart. *)
Definition shapeInv (st : locals) : Prop :=
  length (charOffsetInPartArr st) = charIndex st /\
  Forall is_Some (charOffsetInPartArr st) /\
  (charIndex st = 0%nat \/ Z.of_nat (charIndex st) <= charBreakIndex).

Definition shapeTruncated (partIndex : nat) (r : RenderLineOutput) : Prop :=
  charBreakIndex < lineTextLength /\
  Z.of_nat (length (charOffsetInPart r)) = Z.max 0 charBreakIndex + 1 /\
  Forall is_Some (charOffsetInPart r) /\
  lastRenderedPartIndex r = Z.of_nat partIndex /\
  hellip_close `suffix_of` output r.

(** No index at or past the break index has been left behind, the first
    index apart. *)
Definition beforeBreak (c : nat) : Prop :=
  c = 0%nat \/ Z.of_nat c <= charBreakIndex.

(** With a positive tab size the offset is an integer and the tab delta a
    non-negative integer. *)
Definition numbersInv (st : locals) : Prop :=
  exists d o, tabsCharDelta st = Int d /\ 0 <= d /\ offsetInPart st = Int o.

(** The extra columns of the tabs in front of index [i], in the words of
    the specification: a tab at index [j] stands at the visual column of
    [j], which is [j] plus the extra columns of the tabs in front of it; it
    runs to the next tab stop, [tabSize - column mod tabSize] columns away,
    and adds that run less one to the extra columns.  Every tab of the line
    in front of [i] counts, in whichever part it lies. *)
Fixpoint extraColumns (i : nat) : Z :=
  match i with
  | O => 0
  | S j =>
      let column := Z.of_nat j + extraColumns j in
      extraColumns j
      + (if decide (lineText !! j = Some CharCode.Tab)
         then tabSize input - column mod tabSize input - 1
         else 0)
  end.

(** The visual column of index [i]: the raw index plus the extra columns
    of the tabs in front of it. *)
Definition visualColumn (i : nat) : Z := Z.of_nat i + extraColumns i.

(** In front of an iteration the tab delta is the extra columns of the
    tabs in front of the current index. *)
Definition visualInv (st : locals) : Prop :=
  numbersInv st /\ tabsCharDelta st = Int (extraColumns (charIndex st)).

(** Entry [i] of the table is the integer [v]. *)
Definition entry (t : jsarray) (i : nat) (v : Z) : Prop :=
  t !! i = Some (Some (Int v)).

(** Every entry is a non-negative integer, and from an index to the
    next the entries do not decrease unless a part starts there. *)
Definition tableOk (starts : list Z) (t : jsarray) : Prop :=
  (forall i, (i < length t)%nat -> exists v, entry t i v /\ 0 <= v) /\
  (forall i x y, entry t i x -> entry t (S i) y ->
     Z.of_nat (S i) ∉ starts -> x <= y).

(** The state of the loops inside the part that starts at index [a]. *)
Definition contentsInv (starts : list Z) (a : nat) (st : locals) : Prop :=
  length (charOffsetInPartArr st) = charIndex st /\
  (a <= charIndex st)%nat /\
  (exists d, tabsCharDelta st = Int d /\ 0 <= d) /\
  (exists o, offsetInPart st = Int o /\ 0 <= o /\
     (charIndex st = a -> o = 0) /\
     ((a < charIndex st)%nat ->
        exists x, entry (charOffsetInPartArr st) (pred (charIndex st)) x /\ x <= o)) /\
  tableOk starts (charOffsetInPartArr st) /\
  (forall s, Z.of_nat s ∈ starts -> (s < charIndex st)%nat ->
     entry (charOffsetInPartArr st) s 0).

(** The table of a truncated result: the entry of its last index is
    the offset behind the character, also where a part starts. *)
Definition contentsTruncated (starts : list Z) (r : RenderLineOutput) : Prop :=
  tableOk starts (charOffsetInPart r) /\
  (forall s, Z.of_nat s ∈ starts -> (S s < length (charOffsetInPart r))%nat ->
     entry (charOffsetInPart r) s 0).

(** The table of a line rendered to its end. *)
Definition contentsFinal (starts : list Z) (r : RenderLineOutput) : Prop :=
  tableOk starts (charOffsetInPart r) /\
  (forall s, Z.of_nat s ∈ starts -> (s < length (charOffsetInPart r))%nat ->
     entry (charOffsetInPart r) s 0).

(** ** The contract of the specification *)

(** The contract of the specification on a request: a positive tab size,
    and parts that start at 0, ascend and stay within the line; a line
    without characters may come without parts. *)
Definition partsCover (text : jsstring) (lineParts : list ViewLineToken) : Prop :=
  match lineParts with
  | [] => text = []
  | first :: rest =>
      startIndex first = 0 /\
      ascendingFrom 0 (map startIndex rest) /\
      Forall (fun s => s <= Z.of_nat (length text)) (map startIndex rest)
  end.

Definition validRequest : Prop :=
  1 <= tabSize input /\ partsCover lineText (parts input).

(** The coverage property in the words of the specification: the table has
    [min(text.length, breakIndex) + 1] or [text.length + 1] entries, does not
    decrease inside a part, and is 0 where a part starts. *)
Definition coverageAsStated (r : RenderLineOutput) : Prop :=
  let t := charOffsetInPart r in
  let len := lineTextLength in
  let starts := map startIndex (parts input) in
  (Z.of_nat (length t) = Z.min len charBreakIndex + 1 \/
   Z.of_nat (length t) = len + 1) /\
  (forall i x y, entry t i x -> entry t (S i) y ->
     Z.of_nat (S i) ∉ starts -> x <= y) /\
  (forall s, Z.of_nat s ∈ starts -> (s < length t)%nat -> entry t s 0).

(** The truncation property in the words of the specification: with
    truncation enabled the break index is the column less one and rendering
    stops behind the character at the break index, so that this is the
    index of the last iteration and the table has one entry for each index
    up to it, as many as the column says. *)
Definition truncationAsStated (r : RenderLineOutput) : Prop :=
  charBreakIndex = stopRenderingLineAfter input - 1 /\
  Z.of_nat <$> last visitedIndices = Some charBreakIndex /\
  Z.of_nat (length (charOffsetInPart r)) = stopRenderingLineAfter input.

(** ** Further properties of the markup *)

(** A string without an angle bracket. *)
Definition noAngle (s : jsstring) : Prop :=
  Forall (fun c => c <> CharCode.LessThan /\ c <> CharCode.GreaterThan) s.

(** [&hellip;</span>]: the end of the part in which a truncated rendering
    stops; the closing tag of the line follows it. *)
Definition hellip_span : jsstring := lit "&hellip;</span>".

(** The opening tag of a part: that of the plain branch, or that of the
    whitespace branch for some count of glyphs. *)
Definition isOpenTag (part : ViewLineToken) (tag : jsstring) : Prop :=
  tag = plainOpen (type part) \/
  exists cnt, tag = whitespaceOpen (spaceWidth input) (type part) cnt.

(** The markup of one part: its opening tag, a body without angle
    brackets and the closing. *)
Definition isSegment (closing : jsstring) (part : ViewLineToken)
    (seg : jsstring) : Prop :=
  exists tag body, isOpenTag part tag /\ noAngle body /\ seg = tag ++ body ++ closing.

(** How often the code unit [c] occurs in [s]. *)
Definition occurrences (c : Z) (s : jsstring) : nat := count_occ Z.eq_dec s c.

(** A character that the plain branch copies as it is: one above the
    space that no [case] of the [switch] names. *)
Definition ordinary (c : Z) : Prop :=
  32 < c /\ c <> CharCode.LessThan /\ c <> CharCode.GreaterThan /\
  c <> CharCode.Ampersand /\ c <> CharCode.HardSpace /\
  c <> CharCode.LINE_SEPARATOR_2028 /\ c <> CharCode.UTF8_BOM.

(** The offsets [o], [o + 1], ... of [n] neighbouring slots. *)
Definition countingFrom (o : Z) (n : nat) : jsarray :=
  map (fun k => Some (Int (o + Z.of_nat k))) (seq 0 n).

(** ** Further properties of the offsets *)

(** The offset [y] behind the character at index [i] against the offset
    [x] in front of it: one column further for a character other than a
    tab, the run of the tab further otherwise. *)
Definition advances (i : nat) (x y : Z) : Prop :=
  (lineText !! i <> Some CharCode.Tab -> y = x + 1) /\
  (lineText !! i = Some CharCode.Tab -> x + 1 <= y <= x + tabSize input).

(** The offset [y] behind a tab at index [i] is the first tab stop
    behind the offset [x] in front of it. *)
Definition reachesTabStop (i : nat) (x y : Z) : Prop :=
  lineText !! i = Some CharCode.Tab ->
  y mod tabSize input = 0 /\ x < y <= x + tabSize input.

(** The tab delta is a non-negative integer. *)
Definition deltaInv (st : locals) : Prop :=
  exists d, tabsCharDelta st = Int d /\ 0 <= d.

(** The offset is the visual column of the current index: the index plus
    the tab delta, which is 0 at the start of the line. *)
Definition columnInv (st : locals) : Prop :=
  exists d, tabsCharDelta st = Int d /\ 0 <= d /\
    offsetInPart st = Int (Z.of_nat (charIndex st) + d) /\
    (charIndex st = 0%nat -> d = 0).

(** Neighbouring entries of a table are related by [rel], unless a part
    starts at the second. *)
Definition neighbours (rel : nat -> Z -> Z -> Prop) (starts : list Z)
    (t : jsarray) : Prop :=
  forall i x y, entry t i x -> entry t (S i) y ->
    Z.of_nat (S i) ∉ starts -> rel i x y.

(** While the loops run, the numbers satisfy [P], the entries recorded so
    far are neighbours, and so is the current offset to the last of
    them. *)
Definition neighboursInv (rel : nat -> Z -> Z -> Prop) (P : locals -> Prop)
    (starts : list Z) (st : locals) : Prop :=
  length (charOffsetInPartArr st) = charIndex st /\
  beforeBreak (charIndex st) /\
  P st /\
  (exists o, offsetInPart st = Int o /\
     (charIndex st <> 0%nat -> Z.of_nat (charIndex st) ∉ starts ->
        exists x, entry (charOffsetInPartArr st) (pred (charIndex st)) x /\
                  rel (pred (charIndex st)) x o)) /\
  neighbours rel starts (charOffsetInPartArr st).

(** The table of a truncated result: the entries in front of the last one
    are neighbours. *)
Definition neighboursTruncated (rel : nat -> Z -> Z -> Prop) (starts : list Z)
    (r : RenderLineOutput) : Prop :=
  charBreakIndex < lineTextLength /\
  exists t v, charOffsetInPart r = t ++ [Some v] /\
    Z.of_nat (length t) = Z.max 0 charBreakIndex /\
    neighbours rel starts t.

(** The same request without truncation. *)
Definition unlimited : RenderLineInput := withStopRenderingLineAfter (-1) input.

(** While the loops run, the table has an entry for every index below
    the current one and begins with the table [t0]. *)
Definition extendsInv (t0 : jsarray) (st : locals) : Prop :=
  length (charOffsetInPartArr st) = charIndex st /\
  t0 `prefix_of` charOffsetInPartArr st.

(** The table of [r] in front of its last entry is the beginning of the
    table [t']. *)
Definition cutOf (t' : jsarray) (r : RenderLineOutput) : Prop :=
  exists t v, charOffsetInPart r = t ++ [v] /\ t `prefix_of` t'.

(** ** Lemmas on the call *)

Lemma ascendingFrom_le a starts s : ascendingFrom a starts -> s ∈ starts -> a <= s.
Proof.
  revert a. induction starts as [|s' starts IH]; intros a Hasc Hin.
  - by apply elem_of_nil in Hin.
  - destruct Hasc as [Hle Hasc]. apply elem_of_cons in Hin as [->|Hin]; [done|].
    specialize (IH s' Hasc Hin). lia.
Qed.

Lemma renderParts_cons part rest partIndex st :
  renderParts (part :: rest) partIndex st =
  match (if negb (isNone (renderWhitespace input)) && isWhitespace (type part)
         then whitespacePart part partIndex (toCharIndexOf rest) (resetOffset st)
         else plainPart part partIndex (toCharIndexOf rest) (resetOffset st)) with
  | Return r => Return r
  | Next st' => renderParts rest (S partIndex) st'
  end.
Proof. reflexivity. Qed.

(** *** What a character does to the offsets *)

Lemma bufferNbsp_spec n cnt content :
  bufferNbsp n cnt content = (cnt + Z.of_nat n, appendNbsp n content).
Proof.
  revert cnt content. induction n as [|n IH]; intros cnt content; simpl.
  - f_equal. lia.
  - rewrite IH. f_equal. lia.
Qed.

Lemma plainChar_bookkeeping st :
  plainChar st = setOut (out (plainChar st)) (bookkeeping st).
Proof.
  unfold plainChar, bookkeeping.
  change (charIndex (recordOffset st)) with (charIndex st).
  destruct (num_is (charCodeAt lineText (charIndex st)) CharCode.Tab); [done|].
  repeat match goal with
         | |- context [if ?b then _ else _] => destruct b
         end; reflexivity.
Qed.

Lemma whitespaceChar_bookkeeping w :
  ws (whitespaceChar w) = setOut (out (ws w)) (bookkeeping (ws w)).
Proof.
  unfold whitespaceChar, bookkeeping.
  destruct w as [st cnt content]; simpl.
  destruct (num_is _ CharCode.Tab); [|done].
  destruct (num_gtb _ 0); by rewrite bufferNbsp_spec.
Qed.

Lemma array_set_length (i : nat) v (a : jsarray) :
  i = length a -> array_set i v a = a ++ [Some v].
Proof.
  intros ->. unfold array_set. destruct (decide _) as [H|_]; [lia|].
  by rewrite Nat.sub_diag.
Qed.

Lemma array_set_lt (i : nat) v (a : jsarray) :
  (i < length a)%nat -> array_set i v a = <[i := Some v]> a.
Proof. intros H. unfold array_set. by destruct (decide _). Qed.

(** *** What a character writes *)

Lemma appendNbsp_spec n s : appendNbsp n s = s ++ concat (replicate n nbsp).
Proof.
  revert s. induction n as [|n IH]; intros s; simpl.
  - by rewrite app_nil_r.
  - rewrite IH. by rewrite <- app_assoc.
Qed.

Lemma charCodeAt_lookup i c :
  lineText !! i = Some c -> charCodeAt lineText i = Int c /\ charAt lineText i = [c].
Proof. intros H. unfold charCodeAt, charAt. by rewrite H. Qed.

(** A character that no [case] of the [switch] names goes to [default]. *)
Lemma plainChar_default st c :
  lineText !! charIndex st = Some c ->
  c <> CharCode.Tab -> c <> CharCode.Space -> c <> CharCode.LessThan ->
  c <> CharCode.GreaterThan -> c <> CharCode.Ampersand -> c <> CharCode.Null ->
  c <> CharCode.UTF8_BOM -> c <> CharCode.LINE_SEPARATOR_2028 ->
  c <> CharCode.HardSpace -> c <> CharCode.CarriageReturn ->
  out (plainChar st) =
  out st ++ (if renderControlCharacters input && (c <? 32)
             then [(_controlCharacterSequenceConversionStart + c) mod 65536]
             else [c]).
Proof.
  intros Hc. intros.
  unfold plainChar. change (charIndex (recordOffset st)) with (charIndex st).
  destruct (charCodeAt_lookup _ _ Hc) as [-> ->]. unfold num_is.
  repeat match goal with
         | |- context [c =? ?k] => rewrite (proj2 (Z.eqb_neq c k)) by done
         end.
  unfold isControlCharacter, controlCharacterToPrintable. simpl.
  by destruct ((renderControlCharacters input) && (c <? 32)).
Qed.

(** A character that one [case] names: the markup of that case. *)
Lemma plainChar_case st c :
  lineText !! charIndex st = Some c ->
  (c = CharCode.Space -> out (plainChar st) = out st ++ nbsp) /\
  (c = CharCode.LessThan -> out (plainChar st) = out st ++ lit "&lt;") /\
  (c = CharCode.GreaterThan -> out (plainChar st) = out st ++ lit "&gt;") /\
  (c = CharCode.Ampersand -> out (plainChar st) = out st ++ lit "&amp;") /\
  (c = CharCode.Null -> out (plainChar st) = out st ++ lit "&#00;") /\
  (c = CharCode.CarriageReturn -> out (plainChar st) = out st ++ lit "&#8203") /\
  (c = CharCode.UTF8_BOM \/ c = CharCode.LINE_SEPARATOR_2028 ->
     out (plainChar st) = out st ++ [65533]) /\
  (c = CharCode.HardSpace ->
     out (plainChar st) = out st ++ (if renderHardSpace input then middot else [c])).
Proof.
  intros Hc.
  unfold plainChar. change (charIndex (recordOffset st)) with (charIndex st).
  destruct (charCodeAt_lookup _ _ Hc) as [-> ->].
  split_and!; try (intros ->; reflexivity).
  - by intros [-> | ->].
  - intros ->. simpl. by destruct (renderHardSpace input).
Qed.

(** A tab in the plain branch. *)
Lemma plainChar_tab st :
  lineText !! charIndex st = Some CharCode.Tab ->
  out (plainChar st) =
  out st ++ concat (replicate (iterations (insertSpacesCount st)) nbsp).
Proof.
  intros Hc.
  unfold plainChar. change (charIndex (recordOffset st)) with (charIndex st).
  destruct (charCodeAt_lookup _ _ Hc) as [-> _]. simpl.
  by rewrite appendNbsp_spec.
Qed.

(** A tab and any other character in the whitespace branch. *)
Lemma whitespaceChar_tab w (run : Z) :
  lineText !! charIndex (ws w) = Some CharCode.Tab ->
  insertSpacesCount (ws w) = Int run -> 1 <= run ->
  partContent (whitespaceChar w) =
    partContent w ++ rarr ++ concat (replicate (Z.to_nat (run - 1)) nbsp) /\
  partContentCnt (whitespaceChar w) = partContentCnt w + run.
Proof.
  intros Hc Hrun Hpos. destruct w as [st cnt content]. simpl in *.
  unfold whitespaceChar. simpl.
  destruct (charCodeAt_lookup _ _ Hc) as [-> _]. simpl.
  change (insertSpacesCount (recordOffset st)) with (insertSpacesCount st).
  rewrite Hrun. simpl.
  destruct (Z.ltb_spec 0 run) as [_|?]; [|lia].
  rewrite bufferNbsp_spec, appendNbsp_spec. simpl.
  split; [by rewrite <- app_assoc | lia].
Qed.

Lemma whitespaceChar_other w c :
  lineText !! charIndex (ws w) = Some c -> c <> CharCode.Tab ->
  partContent (whitespaceChar w) = partContent w ++ middot /\
  partContentCnt (whitespaceChar w) = partContentCnt w + 1.
Proof.
  intros Hc Hne. destruct w as [st cnt content]. simpl in *.
  unfold whitespaceChar. simpl.
  destruct (charCodeAt_lookup _ _ Hc) as [-> _]. simpl.
  by rewrite (proj2 (Z.eqb_neq c CharCode.Tab)).
Qed.

(** *** The glyphs of a whitespace part *)

(** One character buffers a list of glyphs and counts each of them; a
    character other than a tab buffers one middle dot. *)
Lemma whitespaceChar_glyphs w :
  exists gs : list jsstring,
    Forall isGlyph gs /\
    partContent (whitespaceChar w) = partContent w ++ concat gs /\
    partContentCnt (whitespaceChar w) = partContentCnt w + Z.of_nat (length gs) /\
    (lineText !! charIndex (ws w) <> Some CharCode.Tab -> gs = [middot]).
Proof.
  destruct w as [st cnt content]. unfold whitespaceChar.
  cbn [ws partContent partContentCnt].
  change (charIndex (recordOffset st)) with (charIndex st).
  destruct (num_is (charCodeAt lineText (charIndex st)) CharCode.Tab) eqn:Htab.
  - assert (lineText !! charIndex st = Some CharCode.Tab) as Hc.
    { unfold charCodeAt in Htab. destruct (lineText !! charIndex st); [|done].
      simpl in Htab. apply Z.eqb_eq in Htab. by subst. }
    set (n := insertSpacesCount (recordOffset st)). clearbody n.
    destruct (num_gtb n 0); rewrite bufferNbsp_spec, appendNbsp_spec;
      cbn [partContent partContentCnt].
    + exists (rarr :: replicate (iterations (num_sub n (Int 1))) nbsp).
      split_and!.
      * constructor; [by left|]. apply Forall_replicate. right. by left.
      * by rewrite <- app_assoc.
      * rewrite length_cons, length_replicate. lia.
      * done.
    + exists (replicate (iterations n) nbsp).
      split_and!; [|done | by rewrite length_replicate | done].
      apply Forall_replicate. right. by left.
  - exists [middot]. cbn [partContent partContentCnt]. split_and!.
    + constructor; [|done]. right. by right.
    + cbn [concat]. by rewrite app_nil_r.
    + done.
    + done.
Qed.

Lemma glyphsFrom_cons from gs per :
  Forall isGlyph gs ->
  (lineText !! from <> Some CharCode.Tab -> gs = [middot]) ->
  glyphsFrom (S from) per -> glyphsFrom from (gs :: per).
Proof.
  intros Hgs Hdot [Hall Hper]. split; [by constructor|].
  intros [|k] Hk Hc; simpl.
  - rewrite Nat.add_0_r in Hc. by rewrite Hdot.
  - apply Hper; [simpl in Hk; lia|]. by replace (S from + k)%nat with (from + S k)%nat by lia.
Qed.

(** The loop of a whitespace part leaves [out] alone and buffers the
    glyphs of its characters; when it returns, the wrapper it writes has
    the width of all glyphs buffered so far. *)
Lemma whitespaceLoop_glyphs part partIndex steps :
  forall w,
    exists per,
      glyphsFrom (charIndex (ws w)) per /\
      match whitespaceLoop part partIndex steps w with
      | Next w' =>
          length per = steps /\
          out (ws w') = out (ws w) /\
          partContent w' = partContent w ++ concat (concat per) /\
          partContentCnt w' = partContentCnt w + Z.of_nat (length (concat per))
      | Return r =>
          (length per <= steps)%nat /\
          output r =
            out (ws w)
              ++ whitespaceOpen (spaceWidth input) (type part)
                   (partContentCnt w + Z.of_nat (length (concat per)))
              ++ (partContent w ++ concat (concat per)) ++ hellip_close /\
          Z.of_nat (length per)
          = Z.max 1 (charBreakIndex - Z.of_nat (charIndex (ws w)) + 1)
      end.
Proof.
  induction steps as [|steps IH]; intros w.
  - exists []. split; [split; [constructor | simpl; lia]|]. simpl.
    split_and!; [done | done | by rewrite app_nil_r | lia].
  - cbn [whitespaceLoop].
    destruct (whitespaceChar_glyphs w) as (gs & Hgs & Hcontent & Hcnt & Hdot).
    assert (out (ws (whitespaceChar w)) = out (ws w)) as Hout
      by (by rewrite whitespaceChar_bookkeeping).
    assert (charIndex (ws (whitespaceChar w)) = charIndex (ws w)) as Hidx
      by (by rewrite whitespaceChar_bookkeeping).
    destruct (atBreak (ws (whitespaceChar w))) eqn:Hbreak;
      unfold atBreak in Hbreak; rewrite Hidx in Hbreak;
      [apply Z.leb_le in Hbreak | apply Z.leb_gt in Hbreak].
    + exists [gs]. split.
      * apply glyphsFrom_cons; [done..|]. split; [constructor | simpl; lia].
      * split; [simpl; lia|]. split; [|simpl; lia].
        unfold truncated, whitespaceFlush. cbn [output out emit].
        rewrite Hout, Hcontent, Hcnt. cbn [concat length]. rewrite !app_nil_r.
        by rewrite <- !app_assoc.
    + match goal with
      | |- context [whitespaceLoop part partIndex steps ?w1] =>
          destruct (IH w1) as (per & Hper & H);
          destruct (whitespaceLoop part partIndex steps w1) as [w'|r]
      end; cbn [ws partContent partContentCnt charIndex incrIndex out] in *;
        rewrite ?Hidx, ?Hout, ?Hcontent, ?Hcnt in *.
      * exists (gs :: per). split; [by apply glyphsFrom_cons|].
        destruct H as (Hlen & Hout' & Hc' & Hn').
        split_and!; [simpl; lia | done | |].
        -- rewrite Hc'. cbn [concat]. by rewrite <- !app_assoc, concat_app.
        -- rewrite Hn'. cbn [concat]. rewrite length_app. lia.
      * exists (gs :: per). split; [by apply glyphsFrom_cons|].
        destruct H as (Hlen & Hr & Hstop). split; [simpl; lia|].
        split; [|cbn [length]; lia].
        rewrite Hr. cbn [concat]. rewrite length_app, concat_app.
        rewrite <- !app_assoc. do 2 f_equal. f_equal. lia.
Qed.

(** *** No carriage return reaches the markup *)

Section NoCarriageReturn.

Hypothesis text_units : codeUnits lineText.
Hypothesis pxText_noCR : forall px, noCR (pxText px).

Lemma noCR_app a b : noCR a -> noCR b -> noCR (a ++ b).
Proof. intros. by apply Forall_app. Qed.

Lemma noCR_nbsps n : noCR (concat (replicate n nbsp)).
Proof.
  induction n as [|n IH]; [constructor|].
  simpl. repeat (constructor; [done|]). exact IH.
Qed.

Lemma plainChar_noCR st : noCR (out st) -> noCR (out (plainChar st)).
Proof.
  intros Hout. unfold plainChar.
  change (charIndex (recordOffset st)) with (charIndex st).
  unfold charCodeAt, charAt.
  destruct (lineText !! charIndex st) as [c|] eqn:Hc.
  - assert (0 <= c < 65536) as Hrange.
    { unfold codeUnits in text_units. rewrite Forall_lookup in text_units.
      by apply (text_units (charIndex st)). }
    unfold num_is.
    repeat match goal with
           | |- context [c =? ?k] => destruct (Z.eqb_spec c k)
           end;
      cbn [orb andb out incrOffset emit setOut advanceTab recordOffset];
      rewrite ?appendNbsp_spec;
      try (apply noCR_app; [done|]);
      try apply noCR_nbsps;
      try (by repeat constructor).
    + destruct (renderHardSpace input); cbn [out emit recordOffset];
        (apply noCR_app; [done|]); [by repeat constructor|].
      subst c. by repeat constructor.
    + unfold isControlCharacter, controlCharacterToPrintable, num_ltb.
      cbn [num_add fromCharCode].
      destruct ((renderControlCharacters input) && (c <? 32)) eqn:Hctl;
        cbn [out emit recordOffset]; (apply noCR_app; [done|]);
        (constructor; [|constructor]); [|done].
      apply andb_true_iff in Hctl as [_ Hlt]. apply Z.ltb_lt in Hlt.
      unfold _controlCharacterSequenceConversionStart, CharCode.CarriageReturn.
      rewrite Z.mod_small by lia. lia.
  - cbn [num_is orb isControlCharacter num_ltb].
    rewrite andb_false_r. cbn [out incrOffset emit recordOffset].
    by rewrite app_nil_r.
Qed.

Lemma whitespaceChar_noCR w :
  noCR (partContent w) -> noCR (partContent (whitespaceChar w)).
Proof.
  intros Hcontent.
  destruct (whitespaceChar_glyphs w) as (gs & Hgs & -> & _).
  apply noCR_app; [done|].
  induction Hgs as [|g gs Hg _ IH]; [constructor|].
  simpl. apply noCR_app; [|done].
  destruct Hg as [->|[->| ->]]; by repeat constructor.
Qed.

Lemma plainLoop_noCR partIndex steps :
  forall st, noCR (out st) ->
    match plainLoop partIndex steps st with
    | Next st' => noCR (out st')
    | Return r => noCR (output r)
    end.
Proof.
  induction steps as [|steps IH]; intros st Hout; [done|].
  cbn [plainLoop]. pose proof (plainChar_noCR st Hout) as Hout'.
  destruct (atBreak (plainChar st)).
  - simpl. apply noCR_app; [done | by repeat constructor].
  - by apply IH.
Qed.

Lemma whitespaceFlush_noCR part closing w :
  noCR (type part) -> noCR closing -> noCR (out (ws w)) -> noCR (partContent w) ->
  noCR (out (whitespaceFlush part closing w)).
Proof.
  intros Hty Hclosing Hout Hcontent. unfold whitespaceFlush. cbn [out emit].
  repeat (apply noCR_app; [|done]). apply noCR_app; [done|].
  unfold whitespaceOpen.
  repeat first [ apply noCR_app | done | apply pxText_noCR | by repeat constructor ].
Qed.

Lemma whitespaceLoop_noCR part partIndex steps :
  noCR (type part) ->
  forall w, noCR (out (ws w)) -> noCR (partContent w) ->
    match whitespaceLoop part partIndex steps w with
    | Next w' => noCR (out (ws w')) /\ noCR (partContent w')
    | Return r => noCR (output r)
    end.
Proof.
  intros Hty. induction steps as [|steps IH]; intros w Hout Hcontent; [done|].
  cbn [whitespaceLoop].
  pose proof (whitespaceChar_noCR w Hcontent) as Hcontent'.
  assert (noCR (out (ws (whitespaceChar w)))) as Hout'
    by (by rewrite whitespaceChar_bookkeeping).
  destruct (atBreak (ws (whitespaceChar w))).
  - cbn [output truncated].
    apply whitespaceFlush_noCR; [done | by repeat constructor | done | done].
  - by apply IH.
Qed.

Lemma renderParts_noCR lineParts :
  Forall (fun part => noCR (type part)) lineParts ->
  forall partIndex st, noCR (out st) ->
    match renderParts lineParts partIndex st with
    | Next st' => noCR (out st')
    | Return r => noCR (output r)
    end.
Proof.
  induction 1 as [|part rest Hty _ IH]; intros partIndex st Hout; [done|].
  rewrite renderParts_cons.
  destruct (negb (isNone (renderWhitespace input)) && isWhitespace (type part)).
  - unfold whitespacePart.
    pose proof (whitespaceLoop_noCR part partIndex
      (Z.to_nat (toCharIndexOf rest - Z.of_nat (charIndex (resetOffset st))))
      Hty (mkWs (resetOffset st) 0 []) Hout ltac:(constructor)) as H.
    destruct (whitespaceLoop _ _ _ _) as [w'|r]; [|done].
    destruct H as [Hout' Hcontent']. apply IH.
    apply whitespaceFlush_noCR; [done | by repeat constructor | done | done].
  - unfold plainPart.
    pose proof (plainLoop_noCR partIndex
      (Z.to_nat (toCharIndexOf rest
                 - Z.of_nat (charIndex (emit (plainOpen (type part)) (resetOffset st)))))
      (emit (plainOpen (type part)) (resetOffset st))) as H.
    destruct (plainLoop _ _ _) as [st'|r].
    + apply IH. cbn [out emit]. apply noCR_app; [|by repeat constructor].
      apply H. cbn [out emit resetOffset]. apply noCR_app; [done|].
      unfold plainOpen.
      repeat first [ apply noCR_app | done | by repeat constructor ].
    + apply H. cbn [out emit resetOffset]. apply noCR_app; [done|].
      unfold plainOpen.
      repeat first [ apply noCR_app | done | by repeat constructor ].
Qed.

Lemma renderLineActual_noCR actualLineParts :
  Forall (fun part => noCR (type part)) actualLineParts ->
  noCR (output (renderLineActual actualLineParts)).
Proof.
  intros Hty. unfold renderLineActual.
  pose proof (renderParts_noCR actualLineParts Hty 0%nat initialLocals
    ltac:(by repeat constructor)) as H.
  destruct (renderParts _ _ _) as [st|r]; [|done].
  cbn [output out emit]. apply noCR_app; [done | by repeat constructor].
Qed.

End NoCarriageReturn.

(** Hoare-style rules for the loop of a part, for a property [Inv] of the
    locals that does not look at the markup and a property [R] of a
    truncated result.  A character is only processed below the end
    [limit] of the part. *)
Section PartRule.

Variable limit : Z.
Variable Inv : locals -> Prop.
Variable R : nat -> RenderLineOutput -> Prop.
Hypothesis Inv_out : forall st s, Inv st -> Inv (setOut s st).

Hypothesis Inv_step :
  forall st, Inv st -> Z.of_nat (charIndex st) < limit ->
    atBreak st = false -> Inv (incrIndex (bookkeeping st)).

Hypothesis R_break :
  forall st s partIndex, Inv st -> Z.of_nat (charIndex st) < limit ->
    atBreak st = true ->
    R partIndex (truncated partIndex (setOut (s ++ hellip_close) (bookkeeping st))).

Lemma plainLoop_rule partIndex steps st :
  Inv st -> Z.of_nat (charIndex st + steps) <= limit ->
  match plainLoop partIndex steps st with
  | Next st' => Inv st' /\ charIndex st' = (charIndex st + steps)%nat
  | Return r => R partIndex r
  end.
Proof.
  revert st. induction steps as [|steps IH]; intros st HI Hlen; simpl.
  - split; [done | lia].
  - rewrite plainChar_bookkeeping.
    set (s := out (plainChar st)).
    change (atBreak (setOut s (bookkeeping st))) with (atBreak st).
    destruct (atBreak st) eqn:Hb.
    + apply (R_break st s partIndex HI); [lia | done].
    + assert (Inv (setOut s (incrIndex (bookkeeping st)))) as HI'
        by (apply Inv_out, Inv_step; [done | lia | done]).
      specialize (IH _ HI').
      change (incrIndex (setOut s (bookkeeping st)))
        with (setOut s (incrIndex (bookkeeping st))).
      destruct (plainLoop _ _ _).
      * destruct IH as [? ->]; [simpl; lia|]. split; [done | simpl; lia].
      * apply IH. simpl. lia.
Qed.

Lemma whitespaceLoop_rule part partIndex steps w :
  Inv (ws w) -> Z.of_nat (charIndex (ws w) + steps) <= limit ->
  match whitespaceLoop part partIndex steps w with
  | Next w' => Inv (ws w') /\ charIndex (ws w') = (charIndex (ws w) + steps)%nat
  | Return r => R partIndex r
  end.
Proof.
  revert w. induction steps as [|steps IH]; intros w HI Hlen; simpl.
  - split; [done | lia].
  - unfold whitespaceFlush. rewrite whitespaceChar_bookkeeping.
    set (s := out (ws w)).
    change (atBreak (setOut s (bookkeeping (ws w)))) with (atBreak (ws w)).
    destruct (atBreak (ws w)) eqn:Hb.
    + match goal with
      | |- R _ (truncated _ (emit _ ?st1)) =>
          change (emit hellip_close st1)
            with (setOut (out st1 ++ hellip_close) (bookkeeping (ws w)))
      end.
      apply R_break; [done | lia | done].
    + assert (Inv (setOut s (incrIndex (bookkeeping (ws w))))) as HI'
        by (apply Inv_out, Inv_step; [done | lia | done]).
      match goal with
      | |- match whitespaceLoop _ _ _ ?w1 with _ => _ end =>
          specialize (IH w1 HI'); destruct (whitespaceLoop part partIndex steps w1)
      end.
      * destruct IH as [? ->]; [simpl; lia|]. split; [done | simpl; lia].
      * apply IH. simpl. lia.
Qed.

(** Both branches at once, as the loop over the parts runs them. *)
Lemma part_rule (b : bool) part partIndex toCharIndex st :
  Inv st -> toCharIndex <= limit ->
  Z.of_nat (charIndex st) <= limit ->
  match (if b then whitespacePart part partIndex toCharIndex st
         else plainPart part partIndex toCharIndex st) with
  | Next st' =>
      Inv st' /\ Z.of_nat (charIndex st') = Z.max (Z.of_nat (charIndex st)) toCharIndex
  | Return r => R partIndex r
  end.
Proof.
  intros HI Hto Hlen. destruct b.
  - unfold whitespacePart.
    pose proof (whitespaceLoop_rule part partIndex
      (Z.to_nat (toCharIndex - Z.of_nat (charIndex st))) (mkWs st 0 [])) as H.
    destruct (whitespaceLoop _ _ _ _) as [w'|r].
    + destruct H as [H1 H2]; [done | simpl; lia |].
      split; [by apply (Inv_out (ws w')) | simpl in *; lia].
    + apply H; [done | simpl; lia].
  - unfold plainPart.
    pose proof (plainLoop_rule partIndex
      (Z.to_nat (toCharIndex - Z.of_nat (charIndex (emit (plainOpen (type part)) st))))
      (emit (plainOpen (type part)) st)) as H.
    destruct (plainLoop _ _ _) as [st'|r].
    + destruct H as [H1 H2]; [by apply (Inv_out st) | simpl; lia |].
      split; [by apply (Inv_out st') | simpl in *; lia].
    + apply H; [by apply (Inv_out st) | simpl; lia].
Qed.

End PartRule.

Lemma toCharIndexOf_le rest : toCharIndexOf rest <= lineTextLength.
Proof. destruct rest; simpl; lia. Qed.

(** The rule for the loop over the parts, for a property that also
    survives the reset of the offset at the start of a part. *)
Section PartsRule.

Variable Inv : locals -> Prop.
Variable R : nat -> RenderLineOutput -> Prop.

Hypothesis Inv_out : forall st s, Inv st -> Inv (setOut s st).
Hypothesis Inv_reset : forall st, Inv st -> Inv (resetOffset st).

Hypothesis Inv_step :
  forall st, Inv st -> Z.of_nat (charIndex st) < lineTextLength ->
    atBreak st = false -> Inv (incrIndex (bookkeeping st)).

Hypothesis R_break :
  forall st s partIndex, Inv st -> Z.of_nat (charIndex st) < lineTextLength ->
    atBreak st = true ->
    R partIndex (truncated partIndex (setOut (s ++ hellip_close) (bookkeeping st))).

Lemma renderParts_rule lineParts partIndex st :
  Inv st -> Z.of_nat (charIndex st) <= lineTextLength ->
  match renderParts lineParts partIndex st with
  | Next st' =>
      Inv st' /\ Z.of_nat (charIndex st') <= lineTextLength /\
      (lineParts <> [] -> Z.of_nat (charIndex st') = lineTextLength)
  | Return r =>
      exists i, (partIndex <= i < partIndex + length lineParts)%nat /\ R i r
  end.
Proof.
  revert partIndex st.
  induction lineParts as [|part rest IH]; intros partIndex st HI Hlen; simpl.
  - done.
  - pose proof (part_rule lineTextLength Inv R Inv_out Inv_step R_break
      (negb (isNone (renderWhitespace input)) && isWhitespace (type part))
      part partIndex (toCharIndexOf rest) (resetOffset st)
      (Inv_reset st HI) (toCharIndexOf_le rest) Hlen) as H.
    match type of H with
    | match ?x with _ => _ end => destruct x as [st'|r]
    end.
    + destruct H as [HI' Hc]. simpl in Hc.
      pose proof (toCharIndexOf_le rest) as Hto.
      specialize (IH (S partIndex) st' HI' ltac:(lia)).
      destruct rest as [|next rest].
      { simpl in *. split_and!; [done | lia | lia]. }
      destruct (renderParts (next :: rest) _ _) as [st''|r].
      * destruct IH as (? & ? & Hlast). split_and!; [done..|].
        intros _. by apply Hlast.
      * destruct IH as (i & ? & ?). exists i. split; [simpl in *; lia | done].
    + exists partIndex. split; [lia | done].
Qed.

End PartsRule.

Lemma array_set_again (i : nat) v v' (a : jsarray) :
  i = length a -> array_set i v' (array_set i v a) = a ++ [Some v'].
Proof.
  intros ->. rewrite (array_set_length (length a) v a eq_refl).
  rewrite array_set_lt by (rewrite length_app; simpl; lia).
  replace (length a) with (length a + 0)%nat at 1 by lia.
  by rewrite insert_app_r.
Qed.

(** *** The shape of the offset table *)

Lemma shapeInv_step st :
  shapeInv st -> atBreak st = false -> shapeInv (incrIndex (bookkeeping st)).
Proof.
  unfold shapeInv, atBreak. intros (Hlen & Hsome & Hb) Hnb. simpl.
  apply Z.leb_gt in Hnb.
  rewrite array_set_length by done. rewrite length_app. simpl.
  split_and!; [lia | | right; lia].
  apply Forall_app. split; [done|]. by repeat constructor.
Qed.

Lemma shapeInv_break st s partIndex :
  shapeInv st -> Z.of_nat (charIndex st) < lineTextLength -> atBreak st = true ->
  shapeTruncated partIndex
    (truncated partIndex (setOut (s ++ hellip_close) (bookkeeping st))).
Proof.
  unfold shapeInv, atBreak, shapeTruncated, truncated.
  intros (Hlen & Hsome & Hb) Hlt Hbreak. simpl.
  apply Z.leb_le in Hbreak.
  rewrite array_set_again by done. rewrite length_app. simpl.
  split_and!; [lia | lia | | done | by apply suffix_app_r].
  apply Forall_app. split; [done|]. by repeat constructor.
Qed.

Lemma renderLineActual_shape actualLineParts :
  actualLineParts <> [] -> 0 < lineTextLength ->
  let r := renderLineActual actualLineParts in
  Forall is_Some (charOffsetInPart r) /\
  ((charBreakIndex < lineTextLength /\
    Z.of_nat (length (charOffsetInPart r)) = Z.max 0 charBreakIndex + 1 /\
    0 <= lastRenderedPartIndex r < Z.of_nat (length actualLineParts) /\
    hellip_close `suffix_of` output r) \/
   (lineTextLength <= charBreakIndex /\
    Z.of_nat (length (charOffsetInPart r)) = lineTextLength + 1 /\
    lastRenderedPartIndex r = Z.of_nat (length actualLineParts) - 1 /\
    span_close `suffix_of` output r)).
Proof.
  intros Hparts Hpos. unfold renderLineActual.
  pose proof (renderParts_rule shapeInv shapeTruncated
    ltac:(by intros [] ?) ltac:(by intros [] ?)
    ltac:(intros; by apply shapeInv_step)
    ltac:(intros; by apply shapeInv_break)
    actualLineParts 0%nat initialLocals) as H.
  destruct (renderParts _ _ _) as [st|r].
  - destruct H as ((Hlen & Hsome & Hb) & _ & Hend);
      [by split_and!; [done | constructor | left] | simpl; lia |].
    specialize (Hend Hparts). simpl.
    split.
    + apply Forall_app. split; [done|]. by repeat constructor.
    + right. unfold array_push. rewrite length_app. simpl.
      split_and!; [lia | lia | done | by apply suffix_app_r].
  - destruct H as (i & Hi & Hlt & Hlen & Hsome & Hlast & Hsuf);
      [by split_and!; [done | constructor | left] | simpl; lia |].
    simpl. split; [done|]. left. split_and!; [done | done | lia | lia | done].
Qed.

(** *** The contents of the offset table *)

Lemma entry_inj t i v v' : entry t i v -> entry t i v' -> v = v'.
Proof. unfold entry. congruence. Qed.

Lemma entry_app_l (t t' : jsarray) i v :
  (i < length t)%nat -> entry (t ++ t') i v <-> entry t i v.
Proof. intros H. unfold entry. by rewrite lookup_app_l. Qed.

Lemma entry_snoc (t : jsarray) n v :
  entry (t ++ [Some n]) (length t) v <-> n = Int v.
Proof.
  unfold entry. rewrite lookup_app_r by lia. rewrite Nat.sub_diag. simpl.
  split; congruence.
Qed.

Lemma entry_lt t i v : entry t i v -> (i < length t)%nat.
Proof. unfold entry. intros H. by eapply lookup_lt_Some. Qed.

Section Contents.

Hypothesis tabSize_pos : 1 <= tabSize input.

(** The start indices of all parts of the line. *)
Variable starts : list Z.

(** With a positive tab size and a non-negative visual column the run
    of a tab lies between 1 and the tab size. *)
Lemma insertSpacesCount_bounds st d :
  tabsCharDelta st = Int d -> 0 <= d ->
  exists run, insertSpacesCount st = Int run /\ 1 <= run <= tabSize input /\
    run = tabSize input - (Z.of_nat (charIndex st) + d) mod tabSize input.
Proof.
  intros Hd Hd0. unfold insertSpacesCount. rewrite Hd. simpl.
  destruct (Z.eqb_spec (tabSize input) 0) as [|_]; [lia|].
  rewrite Z.rem_mod_nonneg by lia.
  pose proof (Z.mod_pos_bound (Z.of_nat (charIndex st) + d) (tabSize input) ltac:(lia)).
  eexists. split; [done|]. split; [lia | done].
Qed.

(** One character moves the offset forward by at least one column and
    keeps the tab delta non-negative. *)
Lemma bookkeeping_numbers st d o :
  tabsCharDelta st = Int d -> 0 <= d -> offsetInPart st = Int o ->
  exists w d', 1 <= w /\ 0 <= d' /\
    offsetInPart (bookkeeping st) = Int (o + w) /\
    tabsCharDelta (bookkeeping st) = Int d'.
Proof.
  intros Hd Hd0 Ho. unfold bookkeeping. simpl. rewrite Ho, Hd.
  destruct (num_is _ CharCode.Tab).
  - destruct (insertSpacesCount_bounds st d Hd Hd0) as (run & -> & Hrun & _).
    simpl. exists run, (d + (run - 1)).
    split_and!; [lia | lia | f_equal; lia | done].
  - exists 1, d. by split_and!.
Qed.

Lemma tableOk_snoc (t : jsarray) v :
  tableOk starts t -> 0 <= v ->
  (length t <> 0%nat -> Z.of_nat (length t) ∉ starts ->
     exists x, entry t (pred (length t)) x /\ x <= v) ->
  tableOk starts (t ++ [Some (Int v)]).
Proof.
  intros [Hint Hmono] Hv Hlast. split.
  - intros i Hi. rewrite length_app in Hi. simpl in Hi.
    destruct (decide (i < length t)%nat) as [Hlt|Hge].
    + destruct (Hint i Hlt) as (x & Hx & Hx0). exists x.
      by rewrite entry_app_l.
    + assert (i = length t) as -> by lia. exists v. by rewrite entry_snoc.
  - intros i x y Hx Hy Hns.
    pose proof (entry_lt _ _ _ Hy) as Hi. rewrite length_app in Hi. simpl in Hi.
    rewrite entry_app_l in Hx by lia.
    destruct (decide (S i < length t)%nat) as [Hlt|Hge].
    + rewrite entry_app_l in Hy by done. by eapply Hmono.
    + assert (S i = length t) as Heq by lia. rewrite Heq in Hy, Hns.
      apply entry_snoc in Hy. injection Hy as <-.
      destruct Hlast as (x' & Hx' & Hle); [lia | done |].
      rewrite <- Heq in Hx'. simpl in Hx'.
      by rewrite (entry_inj _ _ _ _ Hx Hx').
Qed.

Lemma starts_snoc (t : jsarray) v :
  (forall s, Z.of_nat s ∈ starts -> (s < length t)%nat -> entry t s 0) ->
  (Z.of_nat (length t) ∈ starts -> v = 0) ->
  forall s, Z.of_nat s ∈ starts -> (s < length (t ++ [Some (Int v)]))%nat ->
    entry (t ++ [Some (Int v)]) s 0.
Proof.
  intros Hold Hnew s Hs Hlt. rewrite length_app in Hlt. simpl in Hlt.
  destruct (decide (s < length t)%nat) as [Hlt'|Hge].
  - rewrite entry_app_l by done. by apply Hold.
  - assert (s = length t) as -> by lia. rewrite entry_snoc.
    by rewrite Hnew.
Qed.

Lemma contentsInv_step a bound st :
  Z.of_nat a ∈ starts ->
  (forall s, s ∈ starts -> s <= Z.of_nat a \/ bound <= s) ->
  contentsInv starts a st -> Z.of_nat (charIndex st) < bound ->
  contentsInv starts a (incrIndex (bookkeeping st)).
Proof.
  intros Ha Hsplit
    (Hlen & Hle & (d & Hd & Hd0) & (o & Ho & Ho0 & Hzero & Hlink) & Hok & Hstart)
    Hbound.
  destruct (bookkeeping_numbers st d o Hd Hd0 Ho) as (w & d' & Hw & Hd' & Hbo & Hbd).
  assert (charOffsetInPartArr (incrIndex (bookkeeping st))
          = charOffsetInPartArr st ++ [Some (Int o)]) as Harr.
  { simpl. rewrite array_set_length by done. by rewrite Ho. }
  unfold contentsInv. rewrite Harr.
  change (offsetInPart (incrIndex (bookkeeping st)))
    with (offsetInPart (bookkeeping st)).
  change (tabsCharDelta (incrIndex (bookkeeping st)))
    with (tabsCharDelta (bookkeeping st)).
  change (charIndex (incrIndex (bookkeeping st))) with (S (charIndex st)).
  rewrite Hbo, Hbd.
  assert (Z.of_nat (charIndex st) ∈ starts -> charIndex st = a) as Hat.
  { intros Hin. destruct (Hsplit _ Hin); lia. }
  split_and!.
  - rewrite length_app. simpl. lia.
  - lia.
  - by exists d'.
  - exists (o + w). split_and!; [done | lia | lia |].
    intros _. exists o. split; [|lia].
    rewrite <- Hlen. by apply entry_snoc.
  - apply tableOk_snoc; [done..|].
    rewrite Hlen. intros Hne Hns. apply Hlink.
    destruct (decide (charIndex st = a)) as [Heq|];
      [rewrite Heq in Hns; by destruct Hns | lia].
  - intros s Hs Hlt. apply starts_snoc.
    + by rewrite Hlen.
    + rewrite Hlen. intros Hin. by apply Hzero, Hat.
    + done.
    + rewrite length_app. simpl. lia.
Qed.

Lemma contentsInv_break a st s partIndex :
  Z.of_nat a ∈ starts -> contentsInv starts a st ->
  contentsTruncated starts (truncated partIndex (setOut s (bookkeeping st))).
Proof.
  intros Ha
    (Hlen & Hle & (d & Hd & Hd0) & (o & Ho & Ho0 & Hzero & Hlink) & Hok & Hstart).
  destruct (bookkeeping_numbers st d o Hd Hd0 Ho) as (w & d' & Hw & Hd' & Hbo & Hbd).
  unfold contentsTruncated, truncated.
  change (charOffsetInPart (mkOutput ?t _ _)) with t.
  change (charIndex (setOut s (bookkeeping st))) with (charIndex st).
  change (offsetInPart (setOut s (bookkeeping st)))
    with (offsetInPart (bookkeeping st)).
  change (charOffsetInPartArr (setOut s (bookkeeping st)))
    with (array_set (charIndex st) (offsetInPart st) (charOffsetInPartArr st)).
  rewrite array_set_again by done. rewrite Hbo. split.
  - apply tableOk_snoc; [done | lia |].
    rewrite Hlen. intros Hne Hns.
    destruct Hlink as (x & Hx & Hxo).
    { destruct (decide (charIndex st = a)) as [Heq|];
        [rewrite Heq in Hns; by destruct Hns | lia]. }
    exists x. split; [done | lia].
  - intros s' Hs' Hlt. rewrite length_app in Hlt. simpl in Hlt.
    rewrite entry_app_l by lia. apply Hstart; [done | lia].
Qed.

Lemma contentsInv_enter a st :
  contentsInv starts a st -> contentsInv starts (charIndex st) (resetOffset st).
Proof.
  intros (Hlen & Hle & Hd & _ & Hok & Hstart).
  unfold contentsInv. simpl. split_and!; [done | done | done | | done | done].
  exists 0. split_and!; [done | done | done | lia].
Qed.

Lemma contentsInv_out a st s : contentsInv starts a st -> contentsInv starts a (setOut s st).
Proof. by destruct st. Qed.

Lemma shapeInv_out st s : shapeInv st -> shapeInv (setOut s st).
Proof. by destruct st. Qed.

Lemma shapeInv_reset st : shapeInv st -> shapeInv (resetOffset st).
Proof. by destruct st. Qed.

(** The loop over the parts from a part on that starts at the current
    index, when the starts of the parts behind it ascend within the
    line. *)
Lemma renderParts_contents rest :
  forall part partIndex st,
    shapeInv st ->
    contentsInv starts (charIndex st) (resetOffset st) ->
    Z.of_nat (charIndex st) = startIndex part ->
    startIndex part ∈ starts ->
    (forall s, s ∈ map startIndex rest -> s ∈ starts) ->
    (forall s, s ∈ starts -> s <= startIndex part \/ s ∈ map startIndex rest) ->
    ascendingFrom (startIndex part) (map startIndex rest) ->
    Forall (fun s => s <= lineTextLength) (map startIndex rest) ->
    startIndex part <= lineTextLength ->
    match renderParts (part :: rest) partIndex st with
    | Next st' =>
        shapeInv st' /\ Z.of_nat (charIndex st') = lineTextLength /\
        exists a, contentsInv starts a st' /\ Z.of_nat a ∈ starts /\
                  (forall s, s ∈ starts -> s <= Z.of_nat a)
    | Return r =>
        (exists i, shapeTruncated i r /\
                   (partIndex <= i < partIndex + S (length rest))%nat) /\
        contentsTruncated starts r
    end.
Proof.
  induction rest as [|next rest IH];
    intros part partIndex st Hshape Hinv Hat Hin Hsub Hsplit Hasc Hbound Hle.
  - (* the last part runs to the end of the line *)
    cbn [renderParts toCharIndexOf].
    pose proof (part_rule lineTextLength
      (fun st' => shapeInv st' /\ contentsInv starts (charIndex st) st')
      (fun i r => shapeTruncated i r /\ contentsTruncated starts r)) as Hrule.
    match goal with
    | |- match (match (if ?b then _ else _) with _ => _ end) with _ => _ end =>
        specialize (Hrule
          ltac:(intros ? ? [? ?]; split;
                [by apply shapeInv_out | by apply contentsInv_out])
          ltac:(intros ? [? ?] ? ?; split;
                [by apply shapeInv_step
                | apply (contentsInv_step _ (lineTextLength + 1));
                  [by rewrite Hat | | done | lia];
                  intros s Hs; destruct (Hsplit s Hs) as [?|Hn];
                  [left; lia | by apply elem_of_nil in Hn]])
          ltac:(intros ? ? ? [? ?] ? ?; split;
                [by apply shapeInv_break
                | apply (contentsInv_break (charIndex st)); [by rewrite Hat | done]])
          b part partIndex lineTextLength (resetOffset st)
          ltac:(split; [by apply shapeInv_reset | done])
          ltac:(lia) ltac:(simpl; lia))
    end.
    match type of Hrule with
    | match ?x with _ => _ end => destruct x as [st'|r]
    end.
    + destruct Hrule as [[Hshape' Hinv'] Hc]. simpl in Hc.
      split_and!; [done | lia |].
      exists (charIndex st). split_and!; [done | by rewrite Hat |].
      intros s Hs. destruct (Hsplit s Hs) as [?|Hn]; [lia|].
      by apply elem_of_nil in Hn.
    + destruct Hrule as [Hshape' Hinv']. split; [|done].
      exists partIndex. split; [done | simpl; lia].
  - (* a part that ends where the next one starts *)
    destruct Hasc as [Hnext Hasc].
    apply Forall_cons in Hbound as [Hnext_le Hbound].
    rewrite renderParts_cons. cbn [toCharIndexOf].
    rewrite Z.min_r by done.
    pose proof (part_rule (startIndex next)
      (fun st' => shapeInv st' /\ contentsInv starts (charIndex st) st')
      (fun i r => shapeTruncated i r /\ contentsTruncated starts r)) as Hrule.
    match goal with
    | |- match (match (if ?b then _ else _) with _ => _ end) with _ => _ end =>
        specialize (Hrule
          ltac:(intros ? ? [? ?]; split;
                [by apply shapeInv_out | by apply contentsInv_out])
          ltac:(intros ? [? ?] ? ?; split;
                [by apply shapeInv_step
                | apply (contentsInv_step _ (startIndex next));
                  [by rewrite Hat | | done | lia];
                  intros s Hs; destruct (Hsplit s Hs) as [?|Hn];
                  [left; lia | right; by apply (ascendingFrom_le _ (map startIndex (next :: rest)))]])
          ltac:(intros ? ? ? [? ?] ? ?; split;
                [apply shapeInv_break; [done | lia | done]
                | apply (contentsInv_break (charIndex st)); [by rewrite Hat | done]])
          b part partIndex (startIndex next) (resetOffset st)
          ltac:(split; [by apply shapeInv_reset | done])
          ltac:(lia) ltac:(simpl; lia))
    end.
    match type of Hrule with
    | match ?x with _ => _ end => destruct x as [st'|r]
    end.
    + destruct Hrule as [[Hshape' Hinv'] Hc]. simpl in Hc.
      assert (startIndex next ∈ starts) as Hin' by (apply Hsub; by left).
      assert (forall s, s ∈ map startIndex rest -> s ∈ starts) as Hsub'
        by (intros s Hs; apply Hsub; by right).
      assert (forall s, s ∈ starts ->
                s <= startIndex next \/ s ∈ map startIndex rest) as Hsplit'.
      { intros s Hs. destruct (Hsplit s Hs) as [?|Hn]; [left; lia|].
        apply elem_of_cons in Hn as [->|Hn]; [left; lia | by right]. }
      specialize (IH next (S partIndex) st' Hshape'
        (contentsInv_enter _ _ Hinv') ltac:(lia) Hin' Hsub' Hsplit' Hasc
        Hbound Hnext_le).
      cbn beta iota.
      destruct (renderParts (next :: rest) (S partIndex) st') as [st''|r];
        [done|].
      destruct IH as [(i & Hi & Hrange) Htr]. split; [|done].
      exists i. split; [done | simpl; lia].
    + destruct Hrule as [Hshape' Hinv']. split; [|done].
      exists partIndex. split; [done | simpl; lia].
Qed.

(** The table of a whole line whose first part starts at 0 and whose
    parts ascend within the line. *)
Lemma renderLineActual_contents first rest :
  starts = map startIndex (first :: rest) ->
  startIndex first = 0 ->
  ascendingFrom 0 (map startIndex rest) ->
  Forall (fun s => s <= lineTextLength) (map startIndex rest) ->
  0 < lineTextLength ->
  let r := renderLineActual (first :: rest) in
  (charBreakIndex < lineTextLength /\
   Z.of_nat (length (charOffsetInPart r)) = Z.max 0 charBreakIndex + 1 /\
   contentsTruncated starts r) \/
  (lineTextLength <= charBreakIndex /\
   Z.of_nat (length (charOffsetInPart r)) = lineTextLength + 1 /\
   contentsFinal starts r).
Proof.
  intros Hstarts Hfirst Hasc Hbound Hpos. unfold renderLineActual.
  assert (shapeInv initialLocals) as Hshape0
    by (by split_and!; [done | constructor | left]).
  assert (contentsInv starts 0 (resetOffset initialLocals)) as Hinv0.
  { unfold contentsInv, tableOk. simpl.
    split_and!; [done | done | by exists 0 | | | |].
    - exists 0. split_and!; [done | done | done | lia].
    - intros i Hi. lia.
    - intros i x y Hx. by apply entry_lt in Hx.
    - intros s _ Hs. lia. }
  assert (startIndex first ∈ starts) as Hin
    by (rewrite Hstarts; by left).
  assert (forall s, s ∈ map startIndex rest -> s ∈ starts) as Hsub
    by (intros s Hs; rewrite Hstarts; by right).
  assert (forall s, s ∈ starts ->
            s <= startIndex first \/ s ∈ map startIndex rest) as Hsplit.
  { intros s Hs. rewrite Hstarts in Hs.
    apply elem_of_cons in Hs as [->|Hs]; [left; lia | by right]. }
  rewrite <- Hfirst in Hasc.
  pose proof (renderParts_contents rest first 0%nat initialLocals
    Hshape0 Hinv0 (eq_sym Hfirst) Hin Hsub Hsplit Hasc Hbound ltac:(lia)) as H.
  destruct (renderParts (first :: rest) 0 initialLocals) as [st|r].
  - destruct H as ((Hlen & _ & Hb) & Hc & a & Hinv & Ha & Hmax).
    right.
    destruct Hinv as
      (_ & Hle & _ & (o & Ho & Ho0 & Hzero & Hlink) & Hok & Hstart).
    cbn [charOffsetInPart emit offsetInPart charOffsetInPartArr].
    unfold array_push. rewrite Ho.
    split_and!.
    + lia.
    + rewrite length_app. simpl. lia.
    + split.
      * apply tableOk_snoc; [done..|].
        rewrite Hlen. intros Hne Hns. apply Hlink.
        destruct (decide (charIndex st = a)) as [Heq|];
          [rewrite Heq in Hns; by destruct Hns | lia].
      * apply starts_snoc; [by rewrite Hlen|].
        rewrite Hlen. intros Hin'. apply Hzero.
        specialize (Hmax _ Hin'). lia.
  - destruct H as ((i & (Hlt & Hlen & _) & _) & Htr).
    left. by split_and!.
Qed.

End Contents.

(** *** The numbers in front of every iteration *)

Section Visits.

Hypothesis tabSize_pos : 1 <= tabSize input.

Lemma numbersInv_step st : numbersInv st -> numbersInv (incrIndex (bookkeeping st)).
Proof.
  intros (d & o & Hd & Hd0 & Ho).
  destruct (bookkeeping_numbers tabSize_pos st d o Hd Hd0 Ho)
    as (w & d' & _ & Hd' & Hbo & Hbd).
  exists d', (o + w). by split_and!.
Qed.

Lemma numbersInv_out st s : numbersInv st -> numbersInv (setOut s st).
Proof. by destruct st. Qed.

Lemma plainLoopVisits_numbers steps :
  forall st, numbersInv st -> Forall numbersInv (plainLoopVisits steps st).
Proof.
  induction steps as [|steps IH]; intros st Hst; [constructor|].
  cbn [plainLoopVisits]. constructor; [done|].
  destruct (atBreak (plainChar st)); [constructor|].
  apply IH. rewrite plainChar_bookkeeping.
  by apply (numbersInv_out (incrIndex (bookkeeping st))), numbersInv_step.
Qed.

Lemma whitespaceLoopVisits_numbers steps :
  forall w, numbersInv (ws w) ->
    Forall (fun w' => numbersInv (ws w')) (whitespaceLoopVisits steps w).
Proof.
  induction steps as [|steps IH]; intros w Hw; [constructor|].
  cbn [whitespaceLoopVisits]. constructor; [done|].
  destruct (atBreak (ws (whitespaceChar w))); [constructor|].
  apply IH. cbn [ws]. rewrite whitespaceChar_bookkeeping.
  by apply (numbersInv_out (incrIndex (bookkeeping (ws w)))), numbersInv_step.
Qed.

(** The state behind a part that did not return. *)
Lemma part_numbers (b : bool) part partIndex toCharIndex st :
  numbersInv st ->
  match (if b then whitespacePart part partIndex toCharIndex st
         else plainPart part partIndex toCharIndex st) with
  | Next st' => numbersInv st'
  | Return _ => True
  end.
Proof.
  intros Hst.
  pose proof (part_rule
    (Z.max (Z.of_nat (charIndex st)) toCharIndex) numbersInv (fun _ _ => True)
    numbersInv_out ltac:(intros; by apply numbersInv_step) ltac:(done)
    b part partIndex toCharIndex st Hst ltac:(lia) ltac:(lia)) as H.
  match type of H with
  | match ?x with _ => _ end => destruct x as [st'|r]
  end; [by destruct H | done].
Qed.

Lemma renderPartsVisits_numbers lineParts :
  forall partIndex st, numbersInv st ->
    Forall (fun v => numbersInv (visitLocals v))
      (renderPartsVisits lineParts partIndex st).
Proof.
  induction lineParts as [|part rest IH]; intros partIndex st Hst; [constructor|].
  cbn [renderPartsVisits].
  assert (numbersInv (resetOffset st)) as Hreset.
  { destruct Hst as (d & o & Hd & Hd0 & _). by exists d, 0. }
  pose proof (part_numbers (negb (isNone (renderWhitespace input)) && isWhitespace (type part))
    part partIndex (toCharIndexOf rest) (resetOffset st) Hreset) as Hnext.
  destruct (negb (isNone (renderWhitespace input)) && isWhitespace (type part)).
  - apply Forall_app. split.
    + apply Forall_fmap. by apply whitespaceLoopVisits_numbers.
    + destruct (whitespacePart _ _ _ _); [by apply IH | constructor].
  - apply Forall_app. split.
    + apply Forall_fmap. apply plainLoopVisits_numbers.
      by apply (numbersInv_out (resetOffset st)).
    + destruct (plainPart _ _ _ _); [by apply IH | constructor].
Qed.

End Visits.

(** *** The visual column in front of every iteration *)

(** A property of the locals that every statement of the loops keeps
    holds in front of every executed iteration. *)
Section VisitsRule.

Variable Inv : locals -> Prop.
Hypothesis Inv_out : forall st s, Inv st -> Inv (setOut s st).
Hypothesis Inv_reset : forall st, Inv st -> Inv (resetOffset st).
Hypothesis Inv_step : forall st, Inv st -> Inv (incrIndex (bookkeeping st)).

Lemma plainLoopVisits_rule steps :
  forall st, Inv st -> Forall Inv (plainLoopVisits steps st).
Proof.
  induction steps as [|steps IH]; intros st Hst; [constructor|].
  cbn [plainLoopVisits]. constructor; [done|].
  destruct (atBreak (plainChar st)); [constructor|].
  apply IH. rewrite plainChar_bookkeeping.
  by apply (Inv_out (incrIndex (bookkeeping st))), Inv_step.
Qed.

Lemma whitespaceLoopVisits_rule steps :
  forall w, Inv (ws w) ->
    Forall (fun w' => Inv (ws w')) (whitespaceLoopVisits steps w).
Proof.
  induction steps as [|steps IH]; intros w Hw; [constructor|].
  cbn [whitespaceLoopVisits]. constructor; [done|].
  destruct (atBreak (ws (whitespaceChar w))); [constructor|].
  apply IH. cbn [ws]. rewrite whitespaceChar_bookkeeping.
  by apply (Inv_out (incrIndex (bookkeeping (ws w)))), Inv_step.
Qed.

Lemma part_keeps (b : bool) part partIndex toCharIndex st :
  Inv st ->
  match (if b then whitespacePart part partIndex toCharIndex st
         else plainPart part partIndex toCharIndex st) with
  | Next st' => Inv st'
  | Return _ => True
  end.
Proof.
  intros Hst.
  pose proof (part_rule
    (Z.max (Z.of_nat (charIndex st)) toCharIndex) Inv (fun _ _ => True)
    Inv_out ltac:(intros; by apply Inv_step) ltac:(done)
    b part partIndex toCharIndex st Hst ltac:(lia) ltac:(lia)) as H.
  match type of H with
  | match ?x with _ => _ end => destruct x as [st'|r]
  end; [by destruct H | done].
Qed.

Lemma renderPartsVisits_rule lineParts :
  forall partIndex st, Inv st ->
    Forall (fun v => Inv (visitLocals v))
      (renderPartsVisits lineParts partIndex st).
Proof.
  induction lineParts as [|part rest IH]; intros partIndex st Hst; [constructor|].
  cbn [renderPartsVisits].
  pose proof (part_keeps (negb (isNone (renderWhitespace input)) && isWhitespace (type part))
    part partIndex (toCharIndexOf rest) (resetOffset st) (Inv_reset st Hst)) as Hnext.
  destruct (negb (isNone (renderWhitespace input)) && isWhitespace (type part)).
  - apply Forall_app. split.
    + apply Forall_fmap. apply whitespaceLoopVisits_rule. by apply Inv_reset.
    + destruct (whitespacePart _ _ _ _); [by apply IH | constructor].
  - apply Forall_app. split.
    + apply Forall_fmap. apply plainLoopVisits_rule.
      by apply (Inv_out (resetOffset st)), Inv_reset.
    + destruct (plainPart _ _ _ _); [by apply IH | constructor].
Qed.

End VisitsRule.

(** The test of both branches for a tab is a test of the character of the
    line at the current index. *)
Lemma isTab_lookup i :
  num_is (charCodeAt lineText i) CharCode.Tab = true <->
  lineText !! i = Some CharCode.Tab.
Proof.
  unfold charCodeAt. destruct (lineText !! i) as [c|]; simpl; [|done].
  rewrite Z.eqb_eq. split; [by intros -> | by intros [= ->]].
Qed.

(** One character of the line adds to the tab delta what it adds to the
    extra columns: the run less one for a tab, nothing otherwise. *)
Lemma visualInv_step st :
  1 <= tabSize input -> visualInv st -> visualInv (incrIndex (bookkeeping st)).
Proof.
  intros Hsize [Hnum Hextra]. split; [by apply numbersInv_step|].
  destruct Hnum as (d & o & Hd & Hd0 & Ho).
  rewrite Hd in Hextra. injection Hextra as Hextra.
  cbn [incrIndex bookkeeping charIndex tabsCharDelta extraColumns].
  rewrite <- Hextra.
  destruct (num_is (charCodeAt lineText (charIndex st)) CharCode.Tab) eqn:Htab.
  - apply isTab_lookup in Htab.
    destruct (decide (lineText !! charIndex st = Some CharCode.Tab)); [|done].
    destruct (insertSpacesCount_bounds Hsize st d Hd Hd0) as (run & -> & _ & ->).
    rewrite Hd; simpl; f_equal; lia.
  - destruct (decide (lineText !! charIndex st = Some CharCode.Tab)) as [Hc|_].
    + apply isTab_lookup in Hc. congruence.
    + rewrite Hd; f_equal; lia.
Qed.

Lemma visualInv_reset st : visualInv st -> visualInv (resetOffset st).
Proof.
  intros [(d & o & Hd & Hd0 & _) Hextra]. split; [by exists d, 0 | done].
Qed.

Lemma visualInv_out st s : visualInv st -> visualInv (setOut s st).
Proof. by destruct st. Qed.

(** In front of every iteration of a call the tab delta is the extra
    columns of the tabs in front of its index. *)
Lemma renderLineVisits_visual v :
  1 <= tabSize input -> v ∈ renderLineVisits -> visualInv (visitLocals v).
Proof.
  intros Hsize Hv. unfold renderLineVisits in Hv.
  destruct (lineTextLength =? 0); [by apply elem_of_nil in Hv|].
  destruct (Z.of_nat (length (parts input)) =? 0); [by apply elem_of_nil in Hv|].
  pose proof (renderPartsVisits_rule visualInv visualInv_out visualInv_reset
    ltac:(intros; by apply visualInv_step)
    (parts input) 0%nat initialLocals
    ltac:(split; [by exists 0, 0 | done])) as Hall.
  rewrite Forall_forall in Hall. by apply Hall.
Qed.

(** *** The indices of the executed iterations *)

Lemma plainLoop_indices partIndex steps :
  forall st, beforeBreak (charIndex st) ->
    match plainLoop partIndex steps st with
    | Next st' =>
        map charIndex (plainLoopVisits steps st) = seq (charIndex st) steps /\
        charIndex st' = (charIndex st + steps)%nat /\ beforeBreak (charIndex st')
    | Return r =>
        exists k, (k < steps)%nat /\
          map charIndex (plainLoopVisits steps st) = seq (charIndex st) (S k) /\
          Z.of_nat (charIndex st + k) = Z.max 0 charBreakIndex
    end.
Proof.
  induction steps as [|steps IH]; intros st Hst.
  - simpl. split_and!; [done | lia | done].
  - cbn [plainLoop plainLoopVisits map].
    assert (charIndex (plainChar st) = charIndex st) as Hidx
      by (by rewrite plainChar_bookkeeping).
    unfold atBreak. rewrite Hidx.
    destruct (Z.leb_spec charBreakIndex (Z.of_nat (charIndex st))) as [Hbreak|Hgo].
    + exists 0%nat. split_and!; [lia | done |].
      unfold beforeBreak in Hst. lia.
    + specialize (IH (incrIndex (plainChar st))).
      cbn [charIndex incrIndex] in IH. rewrite Hidx in IH.
      destruct (plainLoop partIndex steps (incrIndex (plainChar st))) as [st'|r].
      * destruct IH as (Hmap & Hc & Hb); [right; lia|].
        rewrite Hmap. split_and!; [done | lia | done].
      * destruct IH as (k & Hk & Hmap & Hc); [right; lia|].
        exists (S k). rewrite Hmap. split_and!; [lia | done | lia].
Qed.

Lemma whitespaceLoop_indices part partIndex steps :
  forall w, beforeBreak (charIndex (ws w)) ->
    match whitespaceLoop part partIndex steps w with
    | Next w' =>
        map (fun w0 => charIndex (ws w0)) (whitespaceLoopVisits steps w)
          = seq (charIndex (ws w)) steps /\
        charIndex (ws w') = (charIndex (ws w) + steps)%nat /\
        beforeBreak (charIndex (ws w'))
    | Return r =>
        exists k, (k < steps)%nat /\
          map (fun w0 => charIndex (ws w0)) (whitespaceLoopVisits steps w)
            = seq (charIndex (ws w)) (S k) /\
          Z.of_nat (charIndex (ws w) + k) = Z.max 0 charBreakIndex
    end.
Proof.
  induction steps as [|steps IH]; intros w Hw.
  - simpl. split_and!; [done | lia | done].
  - cbn [whitespaceLoop whitespaceLoopVisits map].
    assert (charIndex (ws (whitespaceChar w)) = charIndex (ws w)) as Hidx
      by (by rewrite whitespaceChar_bookkeeping).
    unfold atBreak. rewrite Hidx.
    destruct (Z.leb_spec charBreakIndex (Z.of_nat (charIndex (ws w)))) as [Hbreak|Hgo].
    + exists 0%nat. split_and!; [lia | done |].
      unfold beforeBreak in Hw. lia.
    + match goal with
      | |- context [whitespaceLoop part partIndex steps ?w1] =>
          specialize (IH w1); cbn [ws charIndex incrIndex] in IH; rewrite Hidx in IH;
          destruct (whitespaceLoop part partIndex steps w1) as [w'|r]
      end.
      * destruct IH as (Hmap & Hc & Hb); [right; lia|].
        rewrite Hmap. split_and!; [done | lia | done].
      * destruct IH as (k & Hk & Hmap & Hc); [right; lia|].
        exists (S k). rewrite Hmap. split_and!; [lia | done | lia].
Qed.

(** The loop over the parts executes an iteration for each index from the
    current one on, up to the end of the line or to the break index. *)
Lemma renderParts_indices lineParts :
  forall partIndex st,
    beforeBreak (charIndex st) -> Z.of_nat (charIndex st) <= lineTextLength ->
    let indices :=
      map (fun v => charIndex (visitLocals v)) (renderPartsVisits lineParts partIndex st) in
    match renderParts lineParts partIndex st with
    | Next st' =>
        (charIndex st <= charIndex st')%nat /\
        indices = seq (charIndex st) (charIndex st' - charIndex st) /\
        beforeBreak (charIndex st') /\
        Z.of_nat (charIndex st') <= lineTextLength /\
        (lineParts <> [] -> Z.of_nat (charIndex st') = lineTextLength)
    | Return r =>
        exists k, indices = seq (charIndex st) (S k) /\
          Z.of_nat (charIndex st + k) = Z.max 0 charBreakIndex /\
          Z.of_nat (charIndex st + k) < lineTextLength
    end.
Proof.
  induction lineParts as [|part rest IH]; intros partIndex st Hst Hlen.
  - simpl. split_and!; [lia | by rewrite Nat.sub_diag | done | done | done].
  - cbn zeta. rewrite renderParts_cons. cbn [renderPartsVisits].
    pose proof (toCharIndexOf_le rest) as Hto.
    set (steps := Z.to_nat (toCharIndexOf rest - Z.of_nat (charIndex (resetOffset st)))).
    assert (Z.of_nat (charIndex st + steps) <= lineTextLength) as Hsteps
      by (subst steps; simpl; lia).
    assert (rest = [] -> Z.of_nat (charIndex st + steps) = lineTextLength) as Hlast
      by (intros ->; subst steps; simpl; lia).
    destruct (negb (isNone (renderWhitespace input)) && isWhitespace (type part)).
    + unfold whitespacePart. fold steps.
      pose proof (whitespaceLoop_indices part partIndex steps
        (mkWs (resetOffset st) 0 []) Hst) as Hloop.
      rewrite map_app, map_map.
      destruct (whitespaceLoop part partIndex steps _) as [w'|r].
      * destruct Hloop as (Hmap & Hc & Hb). cbn [ws charIndex resetOffset] in *.
        cbn [visitLocals]. rewrite Hmap.
        specialize (IH (S partIndex) (whitespaceFlush part span_close w')).
        change (charIndex (whitespaceFlush part span_close w')) with (charIndex (ws w')) in *.
        rewrite Hc in *.
        destruct (renderParts rest (S partIndex) _) as [st''|r] eqn:Hrp.
        -- destruct IH as (Hle & Hmap' & Hb' & Hlen' & Hend); [done | lia |].
           rewrite Hmap'. split_and!; [lia | | done | done |].
           ++ rewrite <- seq_app. f_equal. lia.
           ++ intros _. destruct rest as [|next rest]; [|by apply Hend].
              simpl in Hrp. injection Hrp as <-. specialize (Hlast eq_refl).
              cbn [charIndex emit whitespaceFlush] in *. lia.
        -- destruct IH as (k & Hmap' & Hk & Hlt); [done | lia |].
           exists (steps + S k - 1)%nat. rewrite Hmap'. split_and!; [| lia | lia].
           rewrite <- seq_app. f_equal. lia.
      * destruct Hloop as (k & Hk & Hmap & Hc). cbn [ws charIndex resetOffset] in *.
        cbn [visitLocals]. rewrite Hmap. exists k.
        split_and!; [by rewrite app_nil_r | done | lia].
    + unfold plainPart. fold steps.
      change (charIndex (emit (plainOpen (type part)) (resetOffset st)))
        with (charIndex (resetOffset st)). fold steps.
      pose proof (plainLoop_indices partIndex steps
        (emit (plainOpen (type part)) (resetOffset st)) Hst) as Hloop.
      rewrite map_app, map_map.
      destruct (plainLoop partIndex steps _) as [st'|r].
      * destruct Hloop as (Hmap & Hc & Hb). cbn [charIndex emit resetOffset] in *.
        cbn [visitLocals]. change (fun x : locals => charIndex x) with charIndex.
        rewrite Hmap.
        specialize (IH (S partIndex) (emit span_close st')).
        change (charIndex (emit span_close st')) with (charIndex st') in *.
        rewrite Hc in *.
        destruct (renderParts rest (S partIndex) _) as [st''|r] eqn:Hrp.
        -- destruct IH as (Hle & Hmap' & Hb' & Hlen' & Hend); [done | lia |].
           rewrite Hmap'. split_and!; [lia | | done | done |].
           ++ rewrite <- seq_app. f_equal. lia.
           ++ intros _. destruct rest as [|next rest]; [|by apply Hend].
              simpl in Hrp. injection Hrp as <-. specialize (Hlast eq_refl).
              cbn [charIndex emit whitespaceFlush] in *. lia.
        -- destruct IH as (k & Hmap' & Hk & Hlt); [done | lia |].
           exists (steps + S k - 1)%nat. rewrite Hmap'. split_and!; [| lia | lia].
           rewrite <- seq_app. f_equal. lia.
      * destruct Hloop as (k & Hk & Hmap & Hc). cbn [charIndex emit resetOffset] in *.
        cbn [visitLocals]. change (fun x : locals => charIndex x) with charIndex.
        rewrite Hmap. exists k.
        split_and!; [by rewrite app_nil_r | done | lia].
Qed.

(** *** Results on [renderLine] *)

(** On a non-empty line with parts, [renderLine] is [renderLineActual]. *)
Lemma renderLine_actual :
  lineText <> [] -> parts input <> [] ->
  renderLine = Returned (renderLineActual (parts input)).
Proof.
  intros Htext Hparts. unfold renderLine, lineTextLength.
  destruct lineText as [|c text]; [done|].
  destruct (parts input) as [|p ps]; [done|].
  done.
Qed.

Lemma lineTextLength_pos : lineText <> [] -> 0 < lineTextLength.
Proof. unfold lineTextLength. destruct lineText; [done | simpl; lia]. Qed.

Lemma renderLine_shape :
  lineText <> [] -> parts input <> [] ->
  exists r, renderLine = Returned r /\
    Forall is_Some (charOffsetInPart r) /\
    ((charBreakIndex < lineTextLength /\
      Z.of_nat (length (charOffsetInPart r)) = Z.max 0 charBreakIndex + 1 /\
      0 <= lastRenderedPartIndex r < Z.of_nat (length (parts input)) /\
      hellip_close `suffix_of` output r) \/
     (lineTextLength <= charBreakIndex /\
      Z.of_nat (length (charOffsetInPart r)) = lineTextLength + 1 /\
      lastRenderedPartIndex r = Z.of_nat (length (parts input)) - 1 /\
      span_close `suffix_of` output r)).
Proof.
  intros Htext Hparts. eexists. split; [by apply renderLine_actual|].
  apply renderLineActual_shape; [done | by apply lineTextLength_pos].
Qed.

(** On a non-empty line with parts the iterations run through the indices
    from 0 up to the break index, or to the end of the line when the break
    index lies behind it. *)
Lemma renderLine_indices :
  lineText <> [] -> parts input <> [] ->
  visitedIndices =
  seq 0 (if charBreakIndex <? lineTextLength
         then Z.to_nat (Z.max 0 charBreakIndex + 1)
         else length lineText).
Proof.
  intros Htext Hparts. unfold visitedIndices, renderLineVisits.
  pose proof (lineTextLength_pos Htext) as Hpos.
  destruct (Z.eqb_spec lineTextLength 0) as [H0|_]; [lia|].
  destruct (Z.eqb_spec (Z.of_nat (length (parts input))) 0) as [H0|_].
  { destruct (parts input); [done | simpl in H0; lia]. }
  pose proof (renderParts_indices (parts input) 0%nat initialLocals
    ltac:(by left) ltac:(simpl; lia)) as H.
  cbn zeta in H.
  destruct (renderParts _ _ _) as [st|r].
  - destruct H as (_ & -> & Hb & _ & Hend). specialize (Hend Hparts).
    cbn [charIndex initialLocals] in *.
    destruct Hb as [?|Hb]; [lia|].
    destruct (Z.ltb_spec charBreakIndex lineTextLength); [lia|].
    f_equal. unfold lineTextLength in Hend. lia.
  - destruct H as (k & -> & Hk & Hlt). cbn [charIndex initialLocals] in *.
    destruct (Z.ltb_spec charBreakIndex lineTextLength); [|lia].
    f_equal. lia.
Qed.

(** A tab in front of which the tab delta is a non-negative integer, in
    either branch. *)
Lemma tab_run_at (w : wsLocals) d o
    (Htab : lineText !! charIndex (ws w) = Some CharCode.Tab)
    (Hsize : 1 <= tabSize input)
    (Hd : tabsCharDelta (ws w) = Int d) (Hd0 : 0 <= d)
    (Ho : offsetInPart (ws w) = Int o) :
  let st := ws w in
  let run := tabSize input - (Z.of_nat (charIndex st) + d) mod tabSize input in
  insertSpacesCount st = Int run /\
  1 <= run <= tabSize input /\
  (Z.of_nat (charIndex st) + d + run) mod tabSize input = 0 /\
  (let st' := plainChar st in
   out st' = out st ++ concat (replicate (Z.to_nat run) nbsp) /\
   tabsCharDelta st' = Int (d + (run - 1)) /\ 0 <= d + (run - 1) /\
   offsetInPart st' = Int (o + run)) /\
  (let w' := whitespaceChar w in
   partContent w' =
     partContent w ++ rarr ++ concat (replicate (Z.to_nat (run - 1)) nbsp) /\
   partContentCnt w' = partContentCnt w + run /\
   tabsCharDelta (ws w') = Int (d + (run - 1)) /\
   offsetInPart (ws w') = Int (o + run)).
Proof.
  cbn zeta. set (st := ws w) in *.
  set (run := tabSize input - (Z.of_nat (charIndex st) + d) mod tabSize input).
  destruct (insertSpacesCount_bounds Hsize st d Hd Hd0)
    as (run' & Hrun & Hbounds & Heq).
  fold run in Heq. subst run'.
  assert (tabsCharDelta (bookkeeping st) = Int (d + (run - 1)) /\
          offsetInPart (bookkeeping st) = Int (o + run)) as [Hbd Hbo].
  { unfold bookkeeping. cbn [tabsCharDelta offsetInPart].
    destruct (charCodeAt_lookup _ _ Htab) as [-> _].
    change (num_is (Int CharCode.Tab) CharCode.Tab) with true. cbn iota.
    rewrite Hrun. fold st. rewrite Hd, Ho. simpl. split; f_equal; lia. }
  assert ((Z.of_nat (charIndex st) + d + run) mod tabSize input = 0) as Hstop.
  { replace (Z.of_nat (charIndex st) + d + run)
      with (tabSize input + ((Z.of_nat (charIndex st) + d)
                        - (Z.of_nat (charIndex st) + d) mod tabSize input))
      by (unfold run; lia).
    rewrite <- Zplus_mod_idemp_l, Z_mod_same_full. simpl.
    apply Z.mod_divide; [lia|].
    exists ((Z.of_nat (charIndex st) + d) / tabSize input).
    pose proof (Z_div_mod_eq_full (Z.of_nat (charIndex st) + d) (tabSize input)). lia. }
  assert (out (plainChar st)
          = out st ++ concat (replicate (Z.to_nat run) nbsp)) as Hplain.
  { rewrite (plainChar_tab st Htab). by rewrite Hrun. }
  pose proof (whitespaceChar_tab w run Htab Hrun ltac:(lia)) as [Hcontent Hcnt].
  rewrite (plainChar_bookkeeping st) at 2 3.
  rewrite (whitespaceChar_bookkeeping w).
  cbn [tabsCharDelta offsetInPart setOut]. fold st. rewrite Hbd, Hbo.
  split_and!; try done; try lia.
Qed.

(** *** The structure of the markup *)

Lemma noAngle_app a b : noAngle a -> noAngle b -> noAngle (a ++ b).
Proof. intros. by apply Forall_app. Qed.

Lemma noAngle_concat (l : list jsstring) : Forall noAngle l -> noAngle (concat l).
Proof.
  induction 1 as [|s l Hs _ IH]; [constructor|]. simpl. by apply noAngle_app.
Qed.

Lemma noAngle_glyph g : isGlyph g -> noAngle g.
Proof. intros [->|[->| ->]]; by repeat constructor. Qed.

Section Markup.

Hypothesis text_units : codeUnits lineText.

(** One character of a plain part appends a piece without angle brackets. *)
Lemma plainChar_noAngle st :
  exists piece, out (plainChar st) = out st ++ piece /\ noAngle piece.
Proof.
  unfold plainChar.
  change (charIndex (recordOffset st)) with (charIndex st).
  unfold charCodeAt, charAt.
  destruct (lineText !! charIndex st) as [c|] eqn:Hc.
  - assert (0 <= c < 65536) as Hrange.
    { unfold codeUnits in text_units. rewrite Forall_lookup in text_units.
      by apply (text_units (charIndex st)). }
    unfold num_is.
    repeat match goal with
           | |- context [c =? ?k] => destruct (Z.eqb_spec c k)
           end;
      cbn [orb andb out incrOffset emit setOut advanceTab recordOffset];
      rewrite ?appendNbsp_spec;
      try (eexists; split; [reflexivity|]; by repeat constructor).
    + eexists. split; [reflexivity|].
      apply noAngle_concat, Forall_replicate. by repeat constructor.
    + destruct (renderHardSpace input); cbn [out emit recordOffset];
        (eexists; split; [reflexivity|]); [by repeat constructor|].
      subst c. by repeat constructor.
    + unfold isControlCharacter, controlCharacterToPrintable, num_ltb.
      cbn [num_add fromCharCode].
      destruct (renderControlCharacters input && (c <? 32)) eqn:Hctl;
        cbn [out emit recordOffset]; (eexists; split; [reflexivity|]);
        (constructor; [|constructor]); [|done].
      apply andb_true_iff in Hctl as [_ Hlt]. apply Z.ltb_lt in Hlt.
      unfold _controlCharacterSequenceConversionStart,
        CharCode.LessThan, CharCode.GreaterThan.
      rewrite Z.mod_small by lia. lia.
  - cbn [num_is orb isControlCharacter num_ltb].
    rewrite andb_false_r. cbn [out incrOffset emit recordOffset].
    exists []. split; [done | constructor].
Qed.

Lemma plainLoop_markup partIndex steps :
  forall st,
    exists body, noAngle body /\
      match plainLoop partIndex steps st with
      | Next st' => out st' = out st ++ body
      | Return r =>
          output r = out st ++ body ++ hellip_close /\
          lastRenderedPartIndex r = Z.of_nat partIndex
      end.
Proof.
  induction steps as [|steps IH]; intros st.
  - exists []. split; [constructor|]. simpl. by rewrite app_nil_r.
  - cbn [plainLoop].
    destruct (plainChar_noAngle st) as (piece & Hpiece & Hno).
    destruct (atBreak (plainChar st)).
    + exists piece. split; [done|].
      cbn [output lastRenderedPartIndex truncated out emit].
      by rewrite Hpiece, <- app_assoc.
    + destruct (IH (incrIndex (plainChar st))) as (body & Hbody & H).
      exists (piece ++ body). split; [by apply noAngle_app|].
      change (out (incrIndex (plainChar st))) with (out (plainChar st)) in H.
      rewrite Hpiece in H.
      destruct (plainLoop partIndex steps (incrIndex (plainChar st))) as [st'|r].
      * by rewrite <- app_assoc in H.
      * by rewrite <- !app_assoc in H |- *.
Qed.

Lemma whitespaceLoop_partIndex part partIndex steps :
  forall w,
    match whitespaceLoop part partIndex steps w with
    | Next _ => True
    | Return r => lastRenderedPartIndex r = Z.of_nat partIndex
    end.
Proof.
  induction steps as [|steps IH]; intros w; [done|].
  cbn [whitespaceLoop]. destruct (atBreak (ws (whitespaceChar w))); [done|].
  apply IH.
Qed.

Lemma hellip_close_split : hellip_close = hellip_span ++ span_close.
Proof. reflexivity. Qed.

(** The markup of one part, in either branch. *)
Lemma part_markup (b : bool) part partIndex toCharIndex st :
  match (if b then whitespacePart part partIndex toCharIndex st
         else plainPart part partIndex toCharIndex st) with
  | Next st' => exists seg, isSegment span_close part seg /\ out st' = out st ++ seg
  | Return r =>
      exists seg, isSegment hellip_span part seg /\
        output r = out st ++ seg ++ span_close /\
        lastRenderedPartIndex r = Z.of_nat partIndex
  end.
Proof.
  destruct b.
  - unfold whitespacePart.
    set (steps := Z.to_nat (toCharIndex - Z.of_nat (charIndex st))).
    destruct (whitespaceLoop_glyphs part partIndex steps (mkWs st 0 []))
      as (per & [Hglyphs _] & H).
    pose proof (whitespaceLoop_partIndex part partIndex steps (mkWs st 0 [])) as Hidx.
    assert (noAngle (concat (concat per))) as Hno.
    { apply noAngle_concat, Forall_concat.
      eapply Forall_impl; [exact Hglyphs|]. intros gs Hgs.
      eapply Forall_impl; [exact Hgs|]. apply noAngle_glyph. }
    cbn [ws partContent partContentCnt] in H.
    destruct (whitespaceLoop part partIndex steps (mkWs st 0 [])) as [w'|r].
    + destruct H as (_ & Hout & Hcontent & Hcnt).
      eexists. split.
      * exists (whitespaceOpen (spaceWidth input) (type part) (partContentCnt w')),
          (partContent w').
        split_and!; [right; by eexists | by rewrite Hcontent | reflexivity].
      * unfold whitespaceFlush. cbn [out emit]. rewrite Hout.
        by rewrite <- !app_assoc.
    + destruct H as (_ & Hr & _).
      eexists. split; [|split; [|done]].
      * eexists _, (concat (concat per)).
        split_and!; [right; by eexists | done | reflexivity].
      * rewrite Hr, hellip_close_split. cbn [app]. by rewrite <- !app_assoc.
  - unfold plainPart.
    set (st0 := emit (plainOpen (type part)) st).
    destruct (plainLoop_markup partIndex
                (Z.to_nat (toCharIndex - Z.of_nat (charIndex st0))) st0)
      as (body & Hbody & H).
    destruct (plainLoop _ _ st0) as [st'|r].
    + eexists. split.
      * exists (plainOpen (type part)), body.
        split_and!; [by left | done | reflexivity].
      * cbn [out emit]. rewrite H. subst st0. cbn [out emit].
        by rewrite <- !app_assoc.
    + destruct H as [Hr Hidx]. eexists. split; [|split; [|done]].
      * exists (plainOpen (type part)), body.
        split_and!; [by left | done | reflexivity].
      * rewrite Hr, hellip_close_split. subst st0. cbn [out emit].
        by rewrite <- !app_assoc.
Qed.

(** The markup of the loop over the parts: a segment for each part, and
    after a [return] the segments of the parts up to the one it stopped
    in. *)
Lemma renderParts_markup lineParts :
  forall partIndex st,
    match renderParts lineParts partIndex st with
    | Next st' =>
        exists segs, Forall2 (isSegment span_close) lineParts segs /\
          out st' = out st ++ concat segs
    | Return r =>
        exists k part front seg,
          lineParts !! k = Some part /\
          Forall2 (isSegment span_close) (take k lineParts) front /\
          isSegment hellip_span part seg /\
          output r = out st ++ concat front ++ seg ++ span_close /\
          lastRenderedPartIndex r = Z.of_nat (partIndex + k)
    end.
Proof.
  induction lineParts as [|part rest IH]; intros partIndex st.
  - exists []. split; [constructor|]. simpl. by rewrite app_nil_r.
  - rewrite renderParts_cons.
    pose proof (part_markup
      (negb (isNone (renderWhitespace input)) && isWhitespace (type part))
      part partIndex (toCharIndexOf rest) (resetOffset st)) as H.
    destruct (if negb (isNone (renderWhitespace input)) && isWhitespace (type part)
              then _ else _) as [st1|r].
    + destruct H as (seg & Hseg & Hout). cbn [out resetOffset] in Hout.
      specialize (IH (S partIndex) st1).
      destruct (renderParts rest (S partIndex) st1) as [st'|r].
      * destruct IH as (segs & Hsegs & Hout').
        exists (seg :: segs). split; [by constructor|].
        rewrite Hout', Hout. cbn [concat]. by rewrite <- !app_assoc.
      * destruct IH as (k & part' & front & seg' & Hk & Hfront & Hseg' & Hr & Hidx).
        exists (S k), part', (seg :: front), seg'.
        split_and!; [done | by constructor | done | | ].
        -- rewrite Hr, Hout. cbn [concat]. by rewrite <- !app_assoc.
        -- rewrite Hidx. f_equal. lia.
    + destruct H as (seg & Hseg & Hr & Hidx). cbn [out resetOffset] in Hr.
      exists 0%nat, part, [], seg.
      split_and!; [done | constructor | done | done |].
      rewrite Hidx. f_equal. lia.
Qed.

(** The markup of a whole line. *)
Lemma renderLineActual_markup actualLineParts :
  actualLineParts <> [] -> 0 < lineTextLength ->
  exists k part front seg closing,
    let r := renderLineActual actualLineParts in
    lastRenderedPartIndex r = Z.of_nat k /\
    actualLineParts !! k = Some part /\
    Forall2 (isSegment span_close) (take k actualLineParts) front /\
    isSegment closing part seg /\
    output r = lit "<span>" ++ concat front ++ seg ++ span_close /\
    ((charBreakIndex < lineTextLength /\ closing = hellip_span) \/
     (lineTextLength <= charBreakIndex /\ closing = span_close /\
      S k = length actualLineParts)).
Proof.
  intros Hparts Hpos. unfold renderLineActual.
  pose proof (renderParts_markup actualLineParts 0%nat initialLocals) as Hm.
  pose proof (renderParts_indices actualLineParts 0%nat initialLocals
    ltac:(by left) ltac:(simpl; lia)) as Hi.
  cbv zeta in Hi.
  destruct (renderParts actualLineParts 0 initialLocals) as [st|r].
  - destruct Hm as (segs & Hsegs & Hout).
    destruct Hi as (_ & _ & Hb & _ & Hend). specialize (Hend Hparts).
    destruct (exists_last Hparts) as (ps & p & Hps).
    rewrite Hps in Hsegs |- *.
    apply Forall2_app_inv_l in Hsegs as (front & last & Hfront & Hlast & ->).
    inversion Hlast as [|? seg ? ? Hseg Hnil]; subst. inversion Hnil; subst.
    exists (length ps), p, front, seg, span_close.
    cbn [lastRenderedPartIndex output out emit].
    split_and!.
    + rewrite length_app. simpl. lia.
    + by rewrite lookup_app_r, Nat.sub_diag by lia.
    + by rewrite take_app_length.
    + done.
    + rewrite Hout, concat_app. cbn [concat out initialLocals].
      by rewrite app_nil_r, <- !app_assoc.
    + right. split_and!; [|done | rewrite length_app; simpl; lia].
      destruct Hb as [Hb|Hb]; lia.
  - destruct Hm as (k & part & front & seg & Hk & Hfront & Hseg & Hr & Hidx).
    destruct Hi as (j & _ & Hj & Hlt).
    exists k, part, front, seg, hellip_span.
    split_and!; [done | done | done | done | |].
    + by rewrite Hr.
    + left. split; [lia | done].
Qed.

End Markup.

(** *** Angle brackets come from tags alone *)

Lemma occurrences_app c a b :
  occurrences c (a ++ b) = (occurrences c a + occurrences c b)%nat.
Proof. apply count_occ_app. Qed.

Lemma occurrences_noAngle s :
  noAngle s ->
  occurrences CharCode.LessThan s = 0%nat /\ occurrences CharCode.GreaterThan s = 0%nat.
Proof.
  induction 1 as [|c s [Hlt Hgt] _ [IH1 IH2]]; [done|].
  unfold occurrences in *. simpl.
  destruct (Z.eq_dec c CharCode.LessThan); [done|].
  destruct (Z.eq_dec c CharCode.GreaterThan); done.
Qed.

Section Angles.

Hypothesis pxText_noAngle : forall px, noAngle (pxText px).

Lemma occurrences_tag part tag :
  noAngle (type part) -> isOpenTag part tag ->
  occurrences CharCode.LessThan tag = 1%nat /\
  occurrences CharCode.GreaterThan tag = 1%nat.
Proof.
  intros Hty Htag. destruct (occurrences_noAngle _ Hty) as [Hty1 Hty2].
  destruct Htag as [->|[cnt ->]].
  - unfold plainOpen. rewrite !occurrences_app, Hty1, Hty2. by vm_compute.
  - unfold whitespaceOpen.
    destruct (occurrences_noAngle _ (pxText_noAngle (pxMul (spaceWidth input) cnt)))
      as [Hpx1 Hpx2].
    rewrite !occurrences_app, Hty1, Hty2, Hpx1, Hpx2. by vm_compute.
Qed.

Lemma occurrences_segment closing part seg :
  noAngle (type part) -> isSegment closing part seg ->
  occurrences CharCode.LessThan seg = S (occurrences CharCode.LessThan closing) /\
  occurrences CharCode.GreaterThan seg = S (occurrences CharCode.GreaterThan closing).
Proof.
  intros Hty (tag & body & Htag & Hbody & ->).
  destruct (occurrences_tag part tag Hty Htag) as [Ht1 Ht2].
  destruct (occurrences_noAngle _ Hbody) as [Hb1 Hb2].
  by rewrite !occurrences_app, Ht1, Ht2, Hb1, Hb2.
Qed.

Lemma occurrences_segments lineParts segs :
  Forall (fun part => noAngle (type part)) lineParts ->
  Forall2 (isSegment span_close) lineParts segs ->
  occurrences CharCode.LessThan (concat segs) = (2 * length segs)%nat /\
  occurrences CharCode.GreaterThan (concat segs) = (2 * length segs)%nat.
Proof.
  intros Hty Hsegs. induction Hsegs as [|part seg rest segs Hseg _ IH]; [done|].
  apply Forall_cons in Hty as [Hpart Hrest].
  destruct (IH Hrest) as [IH1 IH2].
  destruct (occurrences_segment _ _ _ Hpart Hseg) as [Hs1 Hs2].
  cbn [concat length]. rewrite !occurrences_app, Hs1, Hs2, IH1, IH2.
  split; vm_compute occurrences; lia.
Qed.

End Angles.

(** *** What the rendering of a part reads of the part *)

(** A part is rendered from its type alone. *)
Lemma whitespaceLoop_type part part' partIndex steps :
  type part = type part' ->
  forall w, whitespaceLoop part partIndex steps w = whitespaceLoop part' partIndex steps w.
Proof.
  intros Hty. induction steps as [|steps IH]; intros w; [done|].
  cbn [whitespaceLoop]. unfold whitespaceFlush. rewrite Hty.
  destruct (atBreak (ws (whitespaceChar w))); [done|]. apply IH.
Qed.

Lemma part_type (b : bool) part part' partIndex toCharIndex st :
  type part = type part' ->
  (if b then whitespacePart part partIndex toCharIndex st
   else plainPart part partIndex toCharIndex st) =
  (if b then whitespacePart part' partIndex toCharIndex st
   else plainPart part' partIndex toCharIndex st).
Proof.
  intros Hty. destruct b.
  - unfold whitespacePart, whitespaceFlush.
    by rewrite (whitespaceLoop_type part part' _ _ Hty), Hty.
  - unfold plainPart. by rewrite Hty.
Qed.

(** *** The substring test of [isWhitespace] *)

Lemma startsWith_spec needle hay :
  startsWith needle hay = true <-> exists post, hay = needle ++ post.
Proof.
  revert hay. induction needle as [|n needle IH]; intros hay; simpl.
  - split; [by exists hay | done].
  - destruct hay as [|h hay].
    + split; [done | by intros [post ?]].
    + rewrite andb_true_iff, Z.eqb_eq, IH. split.
      * intros [-> [post ->]]. by exists post.
      * intros [post [= -> ->]]. split; [done | by exists post].
Qed.

Lemma indexOfFrom_spec needle hay :
  forall i, 0 <= i ->
    (0 <= indexOfFrom needle hay i <-> exists pre post, hay = pre ++ needle ++ post) /\
    (indexOfFrom needle hay i = -1 \/ i <= indexOfFrom needle hay i).
Proof.
  induction hay as [|h hay IH]; intros i Hi.
  - simpl. destruct (startsWith needle []) eqn:Hs.
    + split; [|by right]. split; [|done]. intros _.
      apply startsWith_spec in Hs as [post Hs]. by exists [], post.
    + split; [|by left]. split; [lia|]. intros (pre & post & Heq).
      destruct pre; [|done]. simpl in Heq.
      assert (startsWith needle [] = true) as Hs'
        by (apply startsWith_spec; by exists post).
      congruence.
  - cbn [indexOfFrom]. destruct (startsWith needle (h :: hay)) eqn:Hs.
    + split; [|by right]. split; [|done]. intros _.
      apply startsWith_spec in Hs as [post Hs]. by exists [], post.
    + destruct (IH (i + 1) ltac:(lia)) as [IH1 IH2]. split; [|lia].
      rewrite IH1. split.
      * intros (pre & post & ->). by exists (h :: pre), post.
      * intros (pre & post & Heq). destruct pre as [|p pre].
        -- simpl in Heq.
           assert (startsWith needle (h :: hay) = true) as Hs'
             by (apply startsWith_spec; by exists post).
           congruence.
        -- injection Heq as -> ->. by exists pre, post.
Qed.

(** *** Text that passes through *)

Lemma countingFrom_S o n :
  countingFrom o (S n) = Some (Int o) :: countingFrom (o + 1) n.
Proof.
  unfold countingFrom. cbn [seq map]. rewrite Z.add_0_r. f_equal.
  rewrite <- seq_shift, map_map. apply map_ext. intros k. do 2 f_equal. lia.
Qed.

(** The plain loop over ordinary characters, when no truncation is asked
    for: it copies them and counts the offsets up. *)
Lemma plainLoop_ordinary partIndex rest :
  lineTextLength <= charBreakIndex ->
  Forall ordinary rest ->
  forall pre st o,
    lineText = pre ++ rest -> charIndex st = length pre ->
    length (charOffsetInPartArr st) = charIndex st ->
    offsetInPart st = Int o ->
    plainLoop partIndex (length rest) st =
    Next (mkLocals (charIndex st + length rest) (out st ++ rest)
            (charOffsetInPartArr st ++ countingFrom o (length rest))
            (Int (o + Z.of_nat (length rest))) (tabsCharDelta st)).
Proof.
  intros Hbreak Hord. induction Hord as [|c rest Hc _ IH]; intros pre st o Htext Hidx Hlen Ho.
  - simpl. destruct st; simpl in *. rewrite Nat.add_0_r, Z.add_0_r, !app_nil_r.
    by subst.
  - cbn [plainLoop length].
    assert (lineText !! charIndex st = Some c) as Hlook.
    { rewrite Htext, Hidx. by rewrite lookup_app_r, Nat.sub_diag by lia. }
    destruct Hc as (Hgt & Hlt & Hg & Hamp & Hhard & Hsep & Hbom).
    assert (out (plainChar st) = out st ++ [c]) as Hout.
    { rewrite (plainChar_default st c Hlook);
        try done; try (unfold CharCode.Tab, CharCode.Space, CharCode.Null,
                         CharCode.CarriageReturn; lia).
      replace (c <? 32) with false by (symmetry; apply Z.ltb_ge; lia).
      by rewrite andb_false_r. }
    assert (bookkeeping st =
            mkLocals (charIndex st) (out st)
              (charOffsetInPartArr st ++ [Some (Int o)]) (Int (o + 1))
              (tabsCharDelta st)) as Hbook.
    { unfold bookkeeping.
      destruct (charCodeAt_lookup _ _ Hlook) as [-> _]. cbn [num_is].
      replace (c =? CharCode.Tab) with false
        by (symmetry; apply Z.eqb_neq; unfold CharCode.Tab; lia).
      by rewrite array_set_length, Ho by done. }
    rewrite (plainChar_bookkeeping st), Hout, Hbook.
    assert (atBreak (setOut (out st ++ [c])
              (mkLocals (charIndex st) (out st)
                 (charOffsetInPartArr st ++ [Some (Int o)]) (Int (o + 1))
                 (tabsCharDelta st))) = false) as ->.
    { unfold atBreak. cbn [charIndex setOut]. apply Z.leb_gt.
      unfold lineTextLength in Hbreak. rewrite Htext, length_app in Hbreak.
      simpl in Hbreak. lia. }
    cbn [setOut incrIndex charIndex out charOffsetInPartArr offsetInPart tabsCharDelta].
    rewrite (IH (pre ++ [c]) _ (o + 1));
      cbn [setOut incrIndex charIndex out charOffsetInPartArr offsetInPart
           tabsCharDelta].
    + rewrite countingFrom_S, <- !app_assoc. cbn [app].
      do 2 f_equal; [lia | f_equal; lia].
    + by rewrite Htext, <- app_assoc.
    + rewrite length_app. simpl. lia.
    + rewrite length_app. simpl. lia.
    + done.
Qed.

(** *** A rule for parts that cover the line *)

(** The rule for the loop over parts that start where the one before
    ends: the offset is reset at the start indices alone. *)
Section ValidPartsRule.

Variable starts : list Z.
Variable Inv : locals -> Prop.
Variable R : nat -> RenderLineOutput -> Prop.

Hypothesis Inv_out : forall st s, Inv st -> Inv (setOut s st).
Hypothesis Inv_reset :
  forall st, Inv st -> Z.of_nat (charIndex st) ∈ starts -> Inv (resetOffset st).

Hypothesis Inv_step :
  forall st, Inv st -> Z.of_nat (charIndex st) < lineTextLength ->
    atBreak st = false -> Inv (incrIndex (bookkeeping st)).

Hypothesis R_break :
  forall st s partIndex, Inv st -> Z.of_nat (charIndex st) < lineTextLength ->
    atBreak st = true ->
    R partIndex (truncated partIndex (setOut (s ++ hellip_close) (bookkeeping st))).

Lemma renderParts_valid_rule rest :
  forall part partIndex st,
    Inv st -> Z.of_nat (charIndex st) = startIndex part ->
    Forall (fun s => s ∈ starts) (map startIndex (part :: rest)) ->
    ascendingFrom (startIndex part) (map startIndex rest) ->
    Forall (fun s => s <= lineTextLength) (map startIndex rest) ->
    startIndex part <= lineTextLength ->
    match renderParts (part :: rest) partIndex st with
    | Next st' => Inv st' /\ Z.of_nat (charIndex st') = lineTextLength
    | Return r => exists i, R i r
    end.
Proof.
  induction rest as [|next rest IH];
    intros part partIndex st Hinv Hat Hin Hasc Hbound Hle;
    apply Forall_cons in Hin as [Hpart Hin];
    rewrite renderParts_cons;
    match goal with
    | |- context [plainPart part partIndex ?t _] =>
        pose proof (part_rule lineTextLength Inv R Inv_out Inv_step R_break
          (negb (isNone (renderWhitespace input)) && isWhitespace (type part))
          part partIndex t (resetOffset st)
          ltac:(apply Inv_reset; [done | by rewrite Hat])
          (toCharIndexOf_le _) ltac:(simpl; lia)) as Hrule
    end;
    destruct (if negb (isNone (renderWhitespace input)) && isWhitespace (type part)
              then _ else _) as [st'|r];
    try (by exists partIndex).
  - destruct Hrule as [Hinv' Hc]. cbn [renderParts]. split; [done|].
    cbn [toCharIndexOf charIndex resetOffset] in Hc. lia.
  - destruct Hrule as [Hinv' Hc].
    destruct Hasc as [Hnext Hasc].
    apply Forall_cons in Hbound as [Hnext_le Hbound].
    cbn [toCharIndexOf charIndex resetOffset] in Hc.
    apply (IH next (S partIndex) st' Hinv'); [lia | done..].
Qed.

End ValidPartsRule.

(** *** Neighbouring offsets *)

(** The entries of the table, pair by pair, for a relation [rel] that
    every character establishes between the offsets in front of it and
    behind it while the numbers satisfy [P]. *)
Section Neighbours.

Variable rel : nat -> Z -> Z -> Prop.
Variable P : locals -> Prop.
Variable starts : list Z.

Hypothesis P_out : forall st s, P st -> P (setOut s st).
Hypothesis P_reset :
  forall st, P st -> Z.of_nat (charIndex st) ∈ starts -> P (resetOffset st).
Hypothesis P_step :
  forall st o, P st -> offsetInPart st = Int o ->
    exists o', offsetInPart (bookkeeping st) = Int o' /\
      rel (charIndex st) o o' /\ P (incrIndex (bookkeeping st)).

Lemma neighbours_snoc (t : jsarray) v :
  neighbours rel starts t ->
  (length t <> 0%nat -> Z.of_nat (length t) ∉ starts ->
     exists x, entry t (pred (length t)) x /\ rel (pred (length t)) x v) ->
  neighbours rel starts (t ++ [Some (Int v)]).
Proof.
  intros Hadv Hlast i x y Hx Hy Hns.
  pose proof (entry_lt _ _ _ Hy) as Hi. rewrite length_app in Hi. simpl in Hi.
  rewrite entry_app_l in Hx by lia.
  destruct (decide (S i < length t)%nat) as [Hlt|Hge].
  - rewrite entry_app_l in Hy by done. by eapply Hadv.
  - assert (S i = length t) as Heq by lia. rewrite Heq in Hy, Hns.
    apply entry_snoc in Hy. injection Hy as <-.
    destruct Hlast as (x' & Hx' & Hadv'); [lia | done |].
    rewrite <- Heq in Hx', Hadv'. simpl in Hx', Hadv'.
    by rewrite (entry_inj _ _ _ _ Hx Hx').
Qed.

Lemma neighboursInv_out st s :
  neighboursInv rel P starts st -> neighboursInv rel P starts (setOut s st).
Proof.
  intros (Hlen & Hb & HP & Hlink & Hadv). unfold neighboursInv.
  split_and!; [done | done | by apply P_out | done | done].
Qed.

Lemma neighboursInv_reset st :
  neighboursInv rel P starts st -> Z.of_nat (charIndex st) ∈ starts ->
  neighboursInv rel P starts (resetOffset st).
Proof.
  intros (Hlen & Hb & HP & _ & Hadv) Hin.
  unfold neighboursInv. split_and!; [done | done | by apply P_reset | | done].
  exists 0. split; [done|]. intros _ Hns. by destruct Hns.
Qed.

Lemma neighboursInv_step st :
  neighboursInv rel P starts st -> atBreak st = false ->
  neighboursInv rel P starts (incrIndex (bookkeeping st)).
Proof.
  intros (Hlen & Hb & HP & (o & Ho & Hlink) & Hadv) Hnb.
  destruct (P_step st o HP Ho) as (o' & Hbo & Hrel & HP').
  assert (charOffsetInPartArr (incrIndex (bookkeeping st))
          = charOffsetInPartArr st ++ [Some (Int o)]) as Harr.
  { simpl. rewrite array_set_length by done. by rewrite Ho. }
  unfold neighboursInv. rewrite Harr.
  change (offsetInPart (incrIndex (bookkeeping st)))
    with (offsetInPart (bookkeeping st)).
  change (charIndex (incrIndex (bookkeeping st))) with (S (charIndex st)).
  rewrite Hbo. unfold atBreak in Hnb. apply Z.leb_gt in Hnb.
  split_and!.
  - rewrite length_app. simpl. lia.
  - right. lia.
  - done.
  - exists o'. split; [done|]. intros _ _. exists o. split; [|done].
    simpl. rewrite <- Hlen. by apply entry_snoc.
  - apply neighbours_snoc; [done|]. rewrite Hlen. exact Hlink.
Qed.

Lemma neighboursInv_break st s partIndex :
  neighboursInv rel P starts st -> Z.of_nat (charIndex st) < lineTextLength ->
  atBreak st = true ->
  neighboursTruncated rel starts
    (truncated partIndex (setOut (s ++ hellip_close) (bookkeeping st))).
Proof.
  intros (Hlen & Hb & HP & (o & Ho & Hlink) & Hadv) Hlt Hbreak.
  unfold atBreak in Hbreak. apply Z.leb_le in Hbreak.
  split; [lia|].
  exists (charOffsetInPartArr st), (offsetInPart (bookkeeping st)).
  split_and!; [|destruct Hb; lia | done].
  unfold truncated.
  change (charOffsetInPart (mkOutput ?t _ _)) with t.
  change (charIndex (setOut (s ++ hellip_close) (bookkeeping st)))
    with (charIndex st).
  change (offsetInPart (setOut (s ++ hellip_close) (bookkeeping st)))
    with (offsetInPart (bookkeeping st)).
  change (charOffsetInPartArr (setOut (s ++ hellip_close) (bookkeeping st)))
    with (array_set (charIndex st) (offsetInPart st) (charOffsetInPartArr st)).
  by rewrite array_set_again.
Qed.

(** The table of a whole line whose first part starts at 0 and whose
    parts ascend within the line: its entries are neighbours, the one
    apart that a truncated rendering writes last, behind its character. *)
Lemma renderLineActual_neighbours first rest :
  starts = map startIndex (first :: rest) ->
  startIndex first = 0 ->
  ascendingFrom 0 (map startIndex rest) ->
  Forall (fun s => s <= lineTextLength) (map startIndex rest) ->
  0 < lineTextLength ->
  P initialLocals ->
  let t := charOffsetInPart (renderLineActual (first :: rest)) in
  forall i x y, entry t i x -> entry t (S i) y ->
    Z.of_nat (S i) ∉ starts ->
    (charBreakIndex < lineTextLength -> Z.of_nat (S i) <> Z.max 0 charBreakIndex) ->
    rel i x y.
Proof.
  intros Hstarts Hfirst Hasc Hbound Hpos HP0. unfold renderLineActual.
  pose proof (renderParts_valid_rule starts
    (neighboursInv rel P starts) (fun _ r => neighboursTruncated rel starts r)
    neighboursInv_out neighboursInv_reset
    (fun st Hinv _ Hnb => neighboursInv_step st Hinv Hnb)
    neighboursInv_break
    rest first 0%nat initialLocals) as Hrule.
  specialize (Hrule ltac:(split_and!;
    [done | by left | done | exists 0; by split
    | intros i x y Hx; by apply entry_lt in Hx])).
  specialize (Hrule ltac:(by rewrite Hfirst)).
  specialize (Hrule ltac:(rewrite Hstarts; apply Forall_forall; by intros)).
  rewrite <- Hfirst in Hasc.
  specialize (Hrule Hasc Hbound ltac:(lia)).
  destruct (renderParts (first :: rest) 0 initialLocals) as [st|r].
  - destruct Hrule as [(Hlen & _ & _ & (o & Ho & Hlink) & Hadv) Hend].
    cbn [charOffsetInPart emit offsetInPart charOffsetInPartArr].
    unfold array_push. rewrite Ho.
    intros i x y Hx Hy Hns _.
    apply (neighbours_snoc _ o Hadv) with (i := i) (x := x) (y := y); [|done..].
    rewrite Hlen. intros Hne. exact (Hlink Hne).
  - destruct Hrule as (_ & Hlt & t & v & Ht & Hlen & Hadv).
    cbv zeta. intros i x y Hx Hy Hns Hnb. specialize (Hnb Hlt).
    rewrite Ht in Hx, Hy.
    pose proof (entry_lt _ _ _ Hy) as Hi. rewrite length_app in Hi. simpl in Hi.
    rewrite entry_app_l in Hx, Hy by lia.
    exact (Hadv i x y Hx Hy Hns).
Qed.

End Neighbours.

(** *** The columns between neighbouring offsets *)

Section Columns.

Hypothesis tabSize_pos : 1 <= tabSize input.

(** One character advances the offset by its columns. *)
Lemma bookkeeping_advances st o :
  deltaInv st -> offsetInPart st = Int o ->
  exists o', offsetInPart (bookkeeping st) = Int o' /\
    advances (charIndex st) o o' /\ deltaInv (incrIndex (bookkeeping st)).
Proof.
  intros (d & Hd & Hd0) Ho. unfold bookkeeping, advances, deltaInv. simpl.
  rewrite Ho, Hd. unfold charCodeAt.
  destruct (lineText !! charIndex st) as [c|] eqn:Hc; cbn [num_is].
  - destruct (Z.eqb_spec c CharCode.Tab) as [->|Hne].
    + destruct (insertSpacesCount_bounds tabSize_pos st d Hd Hd0)
        as (run & -> & Hrun & _).
      simpl. exists (o + (run - 1) + 1).
      split_and!; [done | done | intros _; lia |].
      exists (d + (run - 1)). split; [done | lia].
    + exists (o + 1). split_and!; [done | done | | by exists d].
      intros [= ?]. done.
  - exists (o + 1). split_and!; [done | done | done | by exists d].
Qed.

(** While the offset is the visual column, a tab moves it to the next
    tab stop. *)
Lemma bookkeeping_tabStop st o :
  columnInv st -> offsetInPart st = Int o ->
  exists o', offsetInPart (bookkeeping st) = Int o' /\
    reachesTabStop (charIndex st) o o' /\ columnInv (incrIndex (bookkeeping st)).
Proof.
  intros (d & Hd & Hd0 & Hcol & _) Ho. rewrite Ho in Hcol. injection Hcol as ->.
  unfold bookkeeping, reachesTabStop, columnInv. simpl.
  rewrite Ho, Hd. unfold charCodeAt.
  destruct (lineText !! charIndex st) as [c|] eqn:Hc; cbn [num_is].
  - destruct (Z.eqb_spec c CharCode.Tab) as [->|Hne].
    + destruct (insertSpacesCount_bounds tabSize_pos st d Hd Hd0)
        as (run & -> & Hrun & Heq).
      simpl. eexists. split; [done|]. split.
      * intros _. split; [|lia].
        replace (Z.of_nat (charIndex st) + d + (run - 1) + 1)
          with (Z.of_nat (charIndex st) + d + run) by lia.
        rewrite Heq.
        pose proof (Z_div_mod_eq_full (Z.of_nat (charIndex st) + d) (tabSize input)).
        replace (Z.of_nat (charIndex st) + d
                 + (tabSize input
                    - (Z.of_nat (charIndex st) + d) mod tabSize input))
          with (((Z.of_nat (charIndex st) + d) / tabSize input + 1) * tabSize input)
          by lia.
        apply Z_mod_mult.
      * exists (d + (run - 1)). split_and!; [done | lia | f_equal; lia | lia].
    + eexists. split; [done|]. split; [by intros [= ?]|].
      exists d. split_and!; [done | done | simpl; f_equal; lia | lia].
  - eexists. split; [done|]. split; [done|].
    exists d. split_and!; [done | done | simpl; f_equal; lia | lia].
Qed.

(** One character of a whitespace part buffers as many glyphs as it
    advances the offset by columns. *)
Lemma whitespaceChar_columns w o :
  deltaInv (ws w) -> offsetInPart (ws w) = Int o ->
  exists k,
    offsetInPart (ws (whitespaceChar w)) = Int (o + k) /\
    partContentCnt (whitespaceChar w) = partContentCnt w + k /\
    deltaInv (ws (whitespaceChar w)).
Proof.
  intros (d & Hd & Hd0) Ho.
  destruct (lineText !! charIndex (ws w)) as [c|] eqn:Hc.
  - destruct (decide (c = CharCode.Tab)) as [->|Hne].
    + destruct (tab_run_at w d o Hc tabSize_pos Hd Hd0 Ho)
        as (_ & _ & _ & _ & _ & Hcnt & Hbd & Hbo).
      eexists. split_and!; [exact Hbo | exact Hcnt |].
      eexists. split; [exact Hbd|].
      destruct (insertSpacesCount_bounds tabSize_pos (ws w) d Hd Hd0)
        as (run & _ & Hrun & Heq). lia.
    + destruct (whitespaceChar_other w c Hc Hne) as [_ Hcnt].
      exists 1. rewrite whitespaceChar_bookkeeping. unfold bookkeeping, deltaInv.
      cbn [offsetInPart tabsCharDelta setOut].
      destruct (charCodeAt_lookup _ _ Hc) as [-> _]. cbn [num_is].
      replace (c =? CharCode.Tab) with false by (symmetry; by apply Z.eqb_neq).
      rewrite Ho. split_and!; [done | done | by exists d].
  - exists 1. rewrite whitespaceChar_bookkeeping. unfold bookkeeping, deltaInv.
    cbn [offsetInPart tabsCharDelta setOut].
    destruct w as [st cnt content]. unfold whitespaceChar, charCodeAt.
    cbn [ws charIndex recordOffset partContentCnt] in *. rewrite Hc.
    cbn [num_is partContentCnt]. rewrite Ho.
    split_and!; [done | done | by exists d].
Qed.

(** The loop of a whitespace part: the glyphs it counts are the columns
    by which the offset has advanced. *)
Lemma whitespaceLoop_columns part partIndex steps :
  forall w o,
    deltaInv (ws w) -> offsetInPart (ws w) = Int o ->
    length (charOffsetInPartArr (ws w)) = charIndex (ws w) ->
    exists k more,
      match whitespaceLoop part partIndex steps w with
      | Next w' =>
          offsetInPart (ws w') = Int (o + k) /\
          partContentCnt w' = partContentCnt w + k /\
          partContent w' = partContent w ++ more /\
          out (ws w') = out (ws w)
      | Return r =>
          last (charOffsetInPart r) = Some (Some (Int (o + k))) /\
          output r =
            out (ws w)
              ++ whitespaceOpen (spaceWidth input) (type part) (partContentCnt w + k)
              ++ (partContent w ++ more) ++ hellip_close
      end.
Proof.
  induction steps as [|steps IH]; intros w o Hdelta Ho Hlen.
  - exists 0, []. simpl. rewrite !Z.add_0_r, app_nil_r. by split_and!.
  - cbn [whitespaceLoop].
    destruct (whitespaceChar_columns w o Hdelta Ho) as (k & Hbo & Hcnt & Hdelta').
    destruct (whitespaceChar_glyphs w) as (gs & _ & Hcontent & _).
    pose proof (whitespaceChar_bookkeeping w) as Hws.
    destruct (atBreak (ws (whitespaceChar w))).
    + exists k, (concat gs). split.
      * unfold truncated. cbn [charOffsetInPart].
        change (charIndex (whitespaceFlush part hellip_close (whitespaceChar w)))
          with (charIndex (ws (whitespaceChar w))).
        change (offsetInPart (whitespaceFlush part hellip_close (whitespaceChar w)))
          with (offsetInPart (ws (whitespaceChar w))).
        change (charOffsetInPartArr
                  (whitespaceFlush part hellip_close (whitespaceChar w)))
          with (charOffsetInPartArr (ws (whitespaceChar w))).
        rewrite Hbo, Hws.
        cbn [charIndex charOffsetInPartArr setOut bookkeeping].
        rewrite array_set_again by done. by rewrite last_snoc.
      * unfold truncated, whitespaceFlush. cbn [output out emit].
        rewrite Hcnt, Hcontent, Hws. cbn [out setOut].
        by rewrite <- !app_assoc.
    + match goal with
      | |- context [whitespaceLoop part partIndex steps ?w1] =>
          destruct (IH w1 (o + k)) as (k' & more & H)
      end.
      * done.
      * done.
      * cbn [ws charIndex incrIndex charOffsetInPartArr]. rewrite Hws.
        cbn [charIndex charOffsetInPartArr setOut bookkeeping].
        rewrite array_set_length by done. rewrite length_app. simpl. lia.
      * exists (k + k'), (concat gs ++ more).
        cbn [ws partContent partContentCnt out incrIndex] in H.
        destruct (whitespaceLoop part partIndex steps _) as [w'|r].
        -- destruct H as (Ho' & Hcnt' & Hcontent' & Hout').
           rewrite Ho', Hcnt', Hcontent', Hout', Hcnt, Hcontent, Hws.
           cbn [out setOut]. rewrite <- !app_assoc.
           split_and!; [f_equal; lia | lia | done | done].
        -- destruct H as (Hlast & Hr).
           rewrite Hlast, Hr, Hcnt, Hcontent, Hws. cbn [out setOut].
           rewrite <- !app_assoc.
           split; [do 2 f_equal; f_equal; lia|].
           do 2 f_equal. f_equal. lia.
Qed.

End Columns.

(** *** Tables that are extended *)

Lemma extendsInv_out t0 st s : extendsInv t0 st -> extendsInv t0 (setOut s st).
Proof. by destruct st. Qed.

Lemma extendsInv_reset t0 st : extendsInv t0 st -> extendsInv t0 (resetOffset st).
Proof. by destruct st. Qed.

Lemma extendsInv_step t0 st :
  extendsInv t0 st -> extendsInv t0 (incrIndex (bookkeeping st)).
Proof.
  intros [Hlen Hpre]. unfold extendsInv. simpl.
  rewrite array_set_length by done. rewrite length_app. simpl.
  split; [lia | by apply prefix_app_r].
Qed.

(** The table that a truncating [return] hands out: the table in front
    of the iteration and the offset behind the character. *)
Lemma truncated_table partIndex s st :
  length (charOffsetInPartArr st) = charIndex st ->
  charOffsetInPart (truncated partIndex (setOut s (bookkeeping st)))
  = charOffsetInPartArr st ++ [Some (offsetInPart (bookkeeping st))].
Proof.
  intros Hlen. unfold truncated.
  change (charOffsetInPart (mkOutput ?t _ _)) with t.
  change (charIndex (setOut s (bookkeeping st))) with (charIndex st).
  change (offsetInPart (setOut s (bookkeeping st)))
    with (offsetInPart (bookkeeping st)).
  change (charOffsetInPartArr (setOut s (bookkeeping st)))
    with (array_set (charIndex st) (offsetInPart st) (charOffsetInPartArr st)).
  by rewrite array_set_again.
Qed.

(** *** A tab size that is not positive *)

(** With a tab size of 0 or below the run of a tab is negative or no
    number: neither loop over it runs. *)
Lemma insertSpacesCount_nonpositive st :
  tabSize input <= 0 ->
  iterations (insertSpacesCount st) = 0%nat /\
  num_gtb (insertSpacesCount st) 0 = false /\
  (tabSize input = 0 -> insertSpacesCount st = NaN).
Proof.
  intros Hsize. unfold insertSpacesCount.
  destruct (tabsCharDelta st) as [d|]; [|done]. cbn [num_add num_rem].
  destruct (Z.eqb_spec (tabSize input) 0) as [Hz|Hnz]; [done|].
  cbn [num_sub iterations num_gtb].
  pose proof (Z.rem_bound_abs (Z.of_nat (charIndex st) + d) (tabSize input) Hnz).
  split_and!; [lia | apply Z.ltb_ge; lia | done].
Qed.

End Call.

(** ** The claims of the specification *)

(** C1, amended. With truncation enabled, whatever the column is, the break
    index is the truncation column less one; it is the length of the line
    when truncation is disabled.  On a non-empty line with parts rendering
    stops right behind the character at the break index, or behind the
    first character when the break index is negative, provided that this
    index lies within the line: the iterations executed are those of the
    indices from 0 to it, the markup ends in the ellipsis marker, the
    offset table has one entry for each of these indices, none of them a
    hole, and the last rendered part is a part of the line, the only one
    if there is just one.  When the break index lies behind the line, the
    line is rendered to its end and not truncated.  The statement of the
    specification, with the break index as the last index and as many
    entries as the column says, holds exactly for the columns from 1 to the
    length of the line; for column 3 on a line of ten characters in one
    part these are three entries, at indices 0, 1, 2.  An empty line, or a
    request without parts, has no iteration at all. *)
Theorem C1_truncation_stops_at_break_index input :
  (stopRenderingLineAfter input <> -1 ->
     charBreakIndex input = stopRenderingLineAfter input - 1) /\
  (stopRenderingLineAfter input = -1 ->
     charBreakIndex input = lineTextLength input) /\
  charBreakIndex (withStopRenderingLineAfter (-1) input) = lineTextLength input /\
  (lineText input = [] \/ parts input = [] -> visitedIndices input = []) /\
  (lineText input <> [] -> parts input <> [] ->
   exists r, renderLine input = Returned r /\
     let b := charBreakIndex input in
     let stop := Z.to_nat (Z.max 0 b) in
     (b < lineTextLength input ->
        visitedIndices input = seq 0 (S stop) /\
        last (visitedIndices input) = Some stop /\
        hellip_close `suffix_of` output r /\
        length (charOffsetInPart r) = S stop /\
        (forall i, (i <= stop)%nat ->
           exists v, charOffsetInPart r !! i = Some (Some v)) /\
        0 <= lastRenderedPartIndex r < Z.of_nat (length (parts input)) /\
        (length (parts input) = 1%nat -> lastRenderedPartIndex r = 0)) /\
     (lineTextLength input <= b ->
        visitedIndices input = seq 0 (length (lineText input)) /\
        length (charOffsetInPart r) = S (length (lineText input)) /\
        lastRenderedPartIndex r = Z.of_nat (length (parts input)) - 1) /\
     (stopRenderingLineAfter input <> -1 ->
        (truncationAsStated input r <->
         1 <= stopRenderingLineAfter input <= lineTextLength input)) /\
     (1 <= stopRenderingLineAfter input <= lineTextLength input ->
        visitedIndices input = seq 0 (Z.to_nat (stopRenderingLineAfter input)) /\
        Z.of_nat (length (charOffsetInPart r)) = stopRenderingLineAfter input /\
        (forall i, Z.of_nat i < stopRenderingLineAfter input ->
           exists v, charOffsetInPart r !! i = Some (Some v)))).
Proof.
  assert (stopRenderingLineAfter input <> -1 ->
          charBreakIndex input = stopRenderingLineAfter input - 1) as Hb.
  { intros Hne. unfold charBreakIndex.
    by destruct (Z.eqb_spec (stopRenderingLineAfter input) (-1)). }
  assert (stopRenderingLineAfter input = -1 ->
          charBreakIndex input = lineTextLength input) as Hoff.
  { intros Heq. unfold charBreakIndex. by rewrite Heq. }
  split; [done|]. split; [done|]. split; [done|]. split.
  { intros Hnone. unfold visitedIndices, renderLineVisits, lineTextLength.
    destruct Hnone as [-> | ->]; [done|].
    by destruct (Z.of_nat (length (lineText input)) =? 0). }
  intros Htext Hparts.
  pose proof (lineTextLength_pos input Htext) as Hpos.
  assert (lineTextLength input = Z.of_nat (length (lineText input))) as Hlen0 by done.
  destruct (renderLine_shape input Htext Hparts) as (r & Hr & Hsome & H).
  pose proof (renderLine_indices input Htext Hparts) as Hidx.
  assert (forall i, (i < length (charOffsetInPart r))%nat ->
            exists v, charOffsetInPart r !! i = Some (Some v)) as Hentry.
  { intros i Hi.
    destruct (lookup_lt_is_Some_2 (charOffsetInPart r) i) as [x Hx]; [done|].
    rewrite Forall_forall in Hsome.
    destruct (Hsome x) as [v ->]; [by eapply list_elem_of_lookup_2 | by exists v]. }
  assert (forall n, last (seq 0 (S n)) = Some n) as Hlast.
  { intros n. by rewrite seq_S, last_snoc. }
  exists r. split; [done|]. cbn zeta.
  set (b := charBreakIndex input) in *.
  destruct (Z.ltb_spec b (lineTextLength input)) as [Hlt|Hge].
  - destruct H as [(_ & Hlen & Hpart & Hsuf)|(? & _)]; [|lia].
    assert (visitedIndices input = seq 0 (S (Z.to_nat (Z.max 0 b)))) as Hseq.
    { rewrite Hidx. f_equal. lia. }
    split_and!.
    + intros _. split; [done|]. split; [by rewrite Hseq, Hlast|].
      split; [done|]. split; [lia|]. split; [|split; [done | lia]].
      intros i Hi. apply Hentry. lia.
    + intros ?. lia.
    + intros Hne. specialize (Hb Hne). unfold truncationAsStated. fold b.
      rewrite Hseq, Hlast. cbn [fmap option_fmap option_map]. split.
      * intros (_ & Heq & _). injection Heq as Heq. lia.
      * intros Hrange. split_and!; [done | f_equal; lia | lia].
    + intros Hrange.
      assert (stopRenderingLineAfter input <> -1) as Hne by lia.
      specialize (Hb Hne). split_and!; [rewrite Hseq; f_equal; lia | lia |].
      intros i Hi. apply Hentry. lia.
  - destruct H as [(? & _)|(_ & Hlen & Hpart & _)]; [lia|].
    assert (visitedIndices input = seq 0 (length (lineText input))) as Hseq by done.
    split_and!.
    + intros ?. lia.
    + intros _. split_and!; [done | lia | done].
    + intros Hne. specialize (Hb Hne). unfold truncationAsStated. fold b. split.
      * intros (_ & Heq & _). rewrite Hseq in Heq.
        destruct (length (lineText input)) as [|n] eqn:Hn; [lia|].
        rewrite Hlast in Heq. injection Heq as Heq. lia.
      * intros Hrange. lia.
    + intros Hrange.
      assert (stopRenderingLineAfter input <> -1) as Hne by lia.
      specialize (Hb Hne). lia.
Qed.

(** C2. [renderLine] throws exactly when the part list is empty while the
    line is not; on every other request, whatever its tab size, truncation
    column and characters are, it returns a result, and the offset table of
    that result has no hole. *)
Theorem C2_throws_iff_no_parts_for_text input :
  ((exists message, renderLine input = Throw message) <->
   (parts input = [] /\ lineContent input <> [])) /\
  (~ (parts input = [] /\ lineContent input <> []) <->
   exists r, renderLine input = Returned r /\ Forall is_Some (charOffsetInPart r)).
Proof.
  change (lineContent input) with (lineText input).
  destruct (decide (lineText input = [])) as [Hempty|Htext].
  - assert (renderLine input = Returned emptyLineOutput) as Hr
      by (unfold renderLine, lineTextLength; by rewrite Hempty).
    rewrite Hr. split; split.
    + by intros [? ?].
    + by intros [_ ?].
    + intros _. exists emptyLineOutput. split; [done | constructor].
    + by intros _ [_ ?].
  - destruct (decide (parts input = [])) as [Hnone|Hparts].
    + assert (exists message, renderLine input = Throw message) as [message Hr].
      { unfold renderLine, lineTextLength. rewrite Hnone.
        destruct (lineText input); [done | by eexists]. }
      rewrite Hr. split; split.
      * done.
      * by eexists.
      * intros H. by destruct H.
      * by intros (? & ? & _).
    + destruct (renderLine_shape input Htext Hparts) as (r & Hr & Hsome & _).
      rewrite Hr. split; split.
      * by intros [? ?].
      * by intros [? _].
      * intros _. by exists r.
      * by intros _ [? _].
Qed.

(** C3. In front of every iteration that [renderLine] executes on a tab, in
    either branch and in whichever part, the tab delta is the sum of the
    extra columns of the tabs of the line in front of the current index,
    so that the index plus the delta is the visual column of the tab; with
    a tab size of at least 1 it is a non-negative integer.  The tab inserts
    [tabSize - ((charIndex + tabsCharDelta) mod tabSize)] columns, counted
    from that visual column.  This run lies between 1 and the tab size and
    ends on a tab stop, which is the visual column of the next index; the
    plain branch writes that many non-breaking spaces, the whitespace
    branch an arrow and non-breaking spaces for the rest, and both advance
    the delta by the run less one and the offset by the run.  For the text
    of a tab and an [A], tab size 4 and one plain part, the table has 0 at
    index 0 and 4 at index 1; when a second tab and a [B] follow in a part
    of their own, that tab stands at visual column 5 and runs 3 columns to
    the tab stop 8, though its part starts at offset 0. *)
Theorem C3_tab_run input v
    (Hsize : 1 <= tabSize input)
    (Hv : v ∈ renderLineVisits input)
    (Htab : lineText input !! charIndex (visitLocals v) = Some CharCode.Tab) :
  (exists d o run,
     let st := visitLocals v in
     tabsCharDelta st = Int d /\ 0 <= d /\ offsetInPart st = Int o /\
     d = extraColumns input (charIndex st) /\
     Z.of_nat (charIndex st) + d = visualColumn input (charIndex st) /\
     run = tabSize input - (Z.of_nat (charIndex st) + d) mod tabSize input /\
     insertSpacesCount input st = Int run /\
     1 <= run <= tabSize input /\
     (Z.of_nat (charIndex st) + d + run) mod tabSize input = 0 /\
     extraColumns input (S (charIndex st)) = d + (run - 1) /\
     visualColumn input (S (charIndex st))
     = visualColumn input (charIndex st) + run /\
     visualColumn input (S (charIndex st)) mod tabSize input = 0 /\
     match v with
     | PlainVisit st =>
         let st' := plainChar input st in
         out st' = out st ++ concat (replicate (Z.to_nat run) nbsp) /\
         tabsCharDelta st' = Int (d + (run - 1)) /\
         offsetInPart st' = Int (o + run)
     | WhitespaceVisit w =>
         let w' := whitespaceChar input w in
         partContent w' =
           partContent w ++ rarr ++ concat (replicate (Z.to_nat (run - 1)) nbsp) /\
         partContentCnt w' = partContentCnt w + run /\
         tabsCharDelta (ws w') = Int (d + (run - 1)) /\
         offsetInPart (ws w') = Int (o + run)
     end) /\
  (forall sw mode hard control start,
     exists r,
       renderLine (mkInput [CharCode.Tab; 65] 4 sw (-1) mode hard control
                     [mkToken start (lit "plain")]) = Returned r /\
       entry (charOffsetInPart r) 0 0 /\ entry (charOffsetInPart r) 1 4) /\
  (forall sw mode hard control start,
     renderLine (mkInput [CharCode.Tab; 65; CharCode.Tab; 66] 4 sw (-1) mode hard
                   control [mkToken start (lit "plain"); mkToken 2 (lit "other")])
     = Returned (mkOutput
         [Some (Int 0); Some (Int 4); Some (Int 0); Some (Int 3); Some (Int 4)]
         1
         (lit "<span>" ++ plainOpen (lit "plain")
            ++ lit "&nbsp;&nbsp;&nbsp;&nbsp;A</span>" ++ plainOpen (lit "other")
            ++ lit "&nbsp;&nbsp;&nbsp;B</span></span>"))).
Proof.
  split; [|split].
  - destruct (renderLineVisits_visual input v Hsize Hv)
      as [(d & o & Hd & Hd0 & Ho) Hextra].
    assert (d = extraColumns input (charIndex (visitLocals v))) as Hsum
      by (rewrite Hd in Hextra; by injection Hextra).
    set (run :=
      tabSize input - (Z.of_nat (charIndex (visitLocals v)) + d) mod tabSize input).
    assert (extraColumns input (S (charIndex (visitLocals v))) = d + (run - 1))
      as Hnext.
    { cbn [extraColumns]. rewrite <- Hsum.
      destruct (decide (_ = Some CharCode.Tab)); [|done]. subst run. lia. }
    exists d, o, run.
    destruct v as [st|w]; cbn [visitLocals] in *.
    + destruct (tab_run_at input (mkWs st 0 []) d o Htab Hsize Hd Hd0 Ho)
        as (Hrun & Hbounds & Hstop & (Hout & Hdelta & _ & Hoff) & _).
      cbn [ws] in *. fold run in Hrun, Hbounds, Hstop, Hout, Hdelta, Hoff.
      unfold visualColumn. rewrite Hnext, <- Hsum.
      split_and!; try done; try lia.
      by replace (Z.of_nat (S (charIndex st)) + (d + (run - 1)))
        with (Z.of_nat (charIndex st) + d + run) by lia.
    + destruct (tab_run_at input w d o Htab Hsize Hd Hd0 Ho)
        as (Hrun & Hbounds & Hstop & _ & (Hcontent & Hcnt & Hdelta & Hoff)).
      fold run in Hrun, Hbounds, Hstop, Hcontent, Hcnt, Hdelta, Hoff.
      unfold visualColumn. rewrite Hnext, <- Hsum.
      split_and!; try done; try lia.
      by replace (Z.of_nat (S (charIndex (ws w))) + (d + (run - 1)))
        with (Z.of_nat (charIndex (ws w)) + d + run) by lia.
  - intros sw mode hard control start. eexists. split; [reflexivity|].
    destruct mode, hard, control; by vm_compute.
  - intros sw mode hard control start.
    destruct mode, hard, control; by vm_compute.
Qed.

(** C4, amended. For a valid request on a non-empty line the offset table
    has [max(breakIndex, 0) + 1] entries when the line is truncated (the
    break index lies below its length) and one more than the line has
    characters otherwise.  All entries are non-negative integers; they do
    not decrease from an index to the next one inside a part; and the
    entry at the start of each part is 0, unless the line was truncated at
    that very index. *)
Theorem C4_offset_table_coverage input
    (Hvalid : validRequest input) (Htext : lineText input <> []) :
  exists r, renderLine input = Returned r /\
    let t := charOffsetInPart r in
    let len := lineTextLength input in
    let b := charBreakIndex input in
    let starts := map startIndex (parts input) in
    (b < len -> Z.of_nat (length t) = Z.max 0 b + 1) /\
    (len <= b -> Z.of_nat (length t) = len + 1) /\
    (forall i, (i < length t)%nat -> exists v, entry t i v /\ 0 <= v) /\
    (forall i x y, entry t i x -> entry t (S i) y ->
       Z.of_nat (S i) ∉ starts -> x <= y) /\
    (forall s, Z.of_nat s ∈ starts -> (s < length t)%nat ->
       (b < len -> Z.of_nat s <> Z.max 0 b) -> entry t s 0).
Proof.
  destruct Hvalid as [Htab Hcover]. unfold partsCover in Hcover.
  destruct (parts input) as [|first rest] eqn:Hparts; [done|].
  destruct Hcover as (Hfirst & Hasc & Hbound).
  eexists. split; [apply renderLine_actual; [done | by rewrite Hparts]|].
  rewrite Hparts.
  destruct (renderLineActual_contents input Htab (map startIndex (first :: rest))
    first rest eq_refl Hfirst Hasc Hbound (lineTextLength_pos input Htext))
    as [(Hlt & Hlen & [Hint Hmono] & Hstart)|(Hge & Hlen & [Hint Hmono] & Hstart)].
  - cbn zeta. split_and!; [done | lia | done | done |].
    intros s Hs Hlt' Hne. apply Hstart; [done|]. specialize (Hne Hlt). lia.
  - cbn zeta. split_and!; [lia | done | done | done |].
    intros s Hs Hlt' _. by apply Hstart.
Qed.

(** C5. A line without characters renders to the fixed markup of one
    non-breaking space in two nested spans, with an empty offset table and
    last rendered part 0, whatever the other options and parts are. *)
Theorem C5_empty_line tabSize0 spaceWidth0 stop0 mode hardSpace control lineParts :
  renderLine (mkInput [] tabSize0 spaceWidth0 stop0 mode hardSpace control lineParts)
  = Returned (mkOutput [] 0 (lit "<span><span>&nbsp;</span></span>")).
Proof. reflexivity. Qed.

(** C6. In the plain branch each of [<], [&] and [>] is written as its
    entity, and a character that is neither a control character nor one
    the renderer treats on its own goes through as it is.  The text
    [<a&b>] in one plain part renders to the three entities around the
    raw [a] and [b], with a table of six entries, one for each character
    and one behind the last. *)
Theorem C6_plain_escaping input st c
    (Hc : lineText input !! charIndex st = Some c) :
  let st' := plainChar input st in
  (c = CharCode.LessThan -> out st' = out st ++ lit "&lt;") /\
  (c = CharCode.Ampersand -> out st' = out st ++ lit "&amp;") /\
  (c = CharCode.GreaterThan -> out st' = out st ++ lit "&gt;") /\
  (32 < c -> c <> CharCode.LessThan -> c <> CharCode.Ampersand ->
   c <> CharCode.GreaterThan -> c <> CharCode.HardSpace ->
   c <> CharCode.LINE_SEPARATOR_2028 -> c <> CharCode.UTF8_BOM ->
   out st' = out st ++ [c]) /\
  (forall tabSize0 sw mode hard control start,
     renderLine (mkInput (lit "<a&b>") tabSize0 sw (-1) mode hard control
                   [mkToken start (lit "plain")])
     = Returned (mkOutput
         [Some (Int 0); Some (Int 1); Some (Int 2); Some (Int 3); Some (Int 4);
          Some (Int 5)]
         0
         (lit "<span>" ++ plainOpen (lit "plain")
            ++ lit "&lt;" ++ lit "a" ++ lit "&amp;" ++ lit "b" ++ lit "&gt;"
            ++ lit "</span>" ++ lit "</span>"))).
Proof.
  intros st'.
  destruct (plainChar_case input st c Hc) as (_ & Hlt & Hgt & Hamp & _).
  split_and!; [done | done | done | |].
  - intros. unfold st'. rewrite (plainChar_default input st c Hc);
      unfold CharCode.Tab, CharCode.Space, CharCode.Null, CharCode.CarriageReturn;
      try lia; try done.
    destruct (Z.ltb_spec c 32); [lia|]. by rewrite andb_false_r.
  - intros tabSize0 sw mode hard control start.
    destruct mode, hard, control; by vm_compute.
Qed.

(** C7. A part whose type is a whitespace type, with whitespace rendering
    enabled, goes through the whitespace branch.  That branch writes one
    wrapper around the glyphs of the part: the tag
    [<span class="token T" style="width:Wpx">] (34 is the code unit of the
    double quote), in which [T] is the type of the part and [W] the text of
    the product of [spaceWidth] and the number of these glyphs.  The glyphs
    are those of all characters of the part when the branch runs to the end
    of the part, and those of the characters up to the break index when the
    line is truncated inside the part; every character other than a tab,
    so every space, is the one glyph [&middot;].  A line of one space in
    one such part has the width [spaceWidth * 1]. *)
Theorem C7_whitespace_width input part rest partIndex st
    (Hmode : isNone (renderWhitespace input) = false)
    (Hws : isWhitespace (type part) = true) :
  let branch :=
    whitespacePart input part partIndex (toCharIndexOf input rest) (resetOffset st) in
  let wrapper (count : Z) : jsstring :=
    lit "<span class=" ++ [34] ++ lit "token " ++ type part ++ [34]
      ++ lit " style=" ++ [34] ++ lit "width:"
      ++ pxText (pxMul (spaceWidth input) count) ++ lit "px" ++ [34] ++ lit ">" in
  renderParts input (part :: rest) partIndex st
    = match branch with
      | Return r => Return r
      | Next st' => renderParts input rest (S partIndex) st'
      end /\
  (exists per : list (list jsstring),
     glyphsFrom input (charIndex st) per /\
     (forall k, (k < length per)%nat ->
        lineText input !! (charIndex st + k)%nat <> Some CharCode.Tab ->
        per !! k = Some [lit "&middot;"]) /\
     let glyphs := concat per in
     match branch with
     | Next st' =>
         length per = Z.to_nat (toCharIndexOf input rest - Z.of_nat (charIndex st)) /\
         out st' = out st
                     ++ whitespaceOpen (spaceWidth input) (type part)
                          (Z.of_nat (length glyphs))
                     ++ concat glyphs ++ span_close /\
         out st' = out st ++ wrapper (Z.of_nat (length glyphs))
                     ++ concat glyphs ++ lit "</span>"
     | Return r =>
         Z.of_nat (length per)
         = Z.max 1 (charBreakIndex input - Z.of_nat (charIndex st) + 1) /\
         (length per <= Z.to_nat (toCharIndexOf input rest - Z.of_nat (charIndex st)))%nat /\
         output r = out st
                      ++ whitespaceOpen (spaceWidth input) (type part)
                           (Z.of_nat (length glyphs))
                      ++ concat glyphs ++ hellip_close /\
         output r = out st ++ wrapper (Z.of_nat (length glyphs))
                      ++ concat glyphs ++ lit "&hellip;</span></span>"
     end) /\
  (forall tabSize0 sw hard control start,
     renderLine (mkInput [CharCode.Space] tabSize0 sw (-1) rw_all hard control
                   [mkToken start (lit "whitespace")])
     = Returned (mkOutput [Some (Int 0); Some (Int 1)] 0
         (lit "<span>" ++ whitespaceOpen sw (lit "whitespace") 1 ++ middot
            ++ lit "</span>" ++ lit "</span>")) /\
     renderLine (mkInput [CharCode.Space] tabSize0 sw (-1) rw_all hard control
                   [mkToken start (lit "whitespace")])
     = Returned (mkOutput [Some (Int 0); Some (Int 1)] 0
         (lit "<span><span class=" ++ [34] ++ lit "token whitespace" ++ [34]
            ++ lit " style=" ++ [34] ++ lit "width:" ++ pxText (pxMul sw 1)
            ++ lit "px" ++ [34] ++ lit ">&middot;</span></span>"))).
Proof.
  cbn zeta.
  change (lit "<span class=" ++ [34] ++ lit "token " ++ type part ++ [34]
            ++ lit " style=" ++ [34] ++ lit "width:"
            ++ pxText (pxMul (spaceWidth input) ?count) ++ lit "px" ++ [34] ++ lit ">")
    with (whitespaceOpen (spaceWidth input) (type part) count).
  split_and!.
  - rewrite renderParts_cons. by rewrite Hmode, Hws.
  - unfold whitespacePart.
    destruct (whitespaceLoop_glyphs input part partIndex
      (Z.to_nat (toCharIndexOf input rest - Z.of_nat (charIndex (resetOffset st))))
      (mkWs (resetOffset st) 0 [])) as (per & Hper & H).
    exists per. split; [done|]. split; [exact (proj2 Hper)|].
    destruct (whitespaceLoop _ _ _ _ _) as [w'|r].
    + destruct H as (Hlen & Hout & Hcontent & Hcnt). split; [done|].
      assert (out (whitespaceFlush input part span_close w')
              = out st ++ whitespaceOpen (spaceWidth input) (type part)
                            (Z.of_nat (length (concat per)))
                  ++ concat (concat per) ++ span_close) as Hflush.
      { unfold whitespaceFlush. cbn [out emit]. rewrite Hout, Hcontent, Hcnt.
        cbn [ws partContent partContentCnt out resetOffset app].
        by rewrite <- !app_assoc. }
      split; exact Hflush.
    + destruct H as (Hle & Hr & Hstop). split; [exact Hstop|].
      split; [exact Hle|]. split; exact Hr.
  - intros tabSize0 sw hard control start.
    assert (renderLine (mkInput [CharCode.Space] tabSize0 sw (-1) rw_all hard control
                          [mkToken start (lit "whitespace")])
            = Returned (mkOutput [Some (Int 0); Some (Int 1)] 0
                (lit "<span>" ++ whitespaceOpen sw (lit "whitespace") 1 ++ middot
                   ++ lit "</span>" ++ lit "</span>"))) as Hline.
    { match goal with
      | |- _ = Returned (mkOutput ?t ?i (?a ++ ?b ++ ?g ++ ?e ++ ?f)) =>
          transitivity (Returned (mkOutput t i ((((a ++ b) ++ g) ++ e) ++ f)));
          [|by rewrite <- !app_assoc]
      end.
      by vm_compute. }
    split; [exact Hline|]. rewrite Hline. do 2 f_equal.
    unfold whitespaceOpen, dquote. by rewrite <- !app_assoc.
Qed.

(** C8. In the plain branch a code point below 32 that is not a tab, NUL
    or a carriage return is written as the control picture whose code
    point is the source code point plus 9216 when control characters are
    rendered, and as it is otherwise; a line of this one character in a
    part that is not rendered as whitespace shows it between the tags. *)
Theorem C8_control_pictures input st c
    (Hc : lineText input !! charIndex st = Some c)
    (Hrange : 0 <= c < 32)
    (Htab : c <> CharCode.Tab) (Hnul : c <> CharCode.Null)
    (Hcr : c <> CharCode.CarriageReturn) :
  out (plainChar input st)
    = out st ++ (if renderControlCharacters input then [c + 9216] else [c]) /\
  (forall tabSize0 sw hard control start ty,
     renderLine (mkInput [c] tabSize0 sw (-1) rw_none hard control [mkToken start ty])
     = Returned (mkOutput [Some (Int 0); Some (Int 1)] 0
         (lit "<span>" ++ plainOpen ty ++ (if control then [c + 9216] else [c])
            ++ lit "</span>" ++ lit "</span>"))).
Proof.
  split.
  - rewrite (plainChar_default input st c Hc);
      unfold CharCode.Tab, CharCode.Space, CharCode.Null, CharCode.CarriageReturn,
        CharCode.LessThan, CharCode.GreaterThan, CharCode.Ampersand,
        CharCode.UTF8_BOM, CharCode.LINE_SEPARATOR_2028, CharCode.HardSpace in *;
      try lia.
    destruct (Z.ltb_spec c 32); [|lia]. rewrite andb_true_r.
    destruct (renderControlCharacters input); [|done].
    unfold _controlCharacterSequenceConversionStart.
    rewrite Z.mod_small by lia. do 2 f_equal. lia.
  - intros tabSize0 sw hard control start ty. clear Hc.
    unfold CharCode.Tab, CharCode.Null, CharCode.CarriageReturn in *.
    match goal with
    | |- _ = Returned (mkOutput ?t ?i (?a ++ ?b ++ ?g ++ ?e ++ ?f)) =>
        transitivity (Returned (mkOutput t i ((((a ++ b) ++ g) ++ e) ++ f)));
        [|by rewrite <- !app_assoc]
    end.
    destruct c as [|p|p]; [lia | | lia].
    do 5 (try destruct p as [p|p|]); try lia;
      destruct hard, control; by vm_compute.
Qed.

(** C9, amended. A carriage return in the plain branch is written as the
    zero-width-space marker, the six characters [&#8203], and the markup
    of a line contains no carriage return, provided that the type of no
    part contains one (the types are copied into the markup as they are);
    the text is a string of 16-bit code units and the text of a number
    has no carriage return. *)
Theorem C9_carriage_return input r
    (Hunits : codeUnits (lineText input))
    (Htypes : Forall (fun part => noCR (type part)) (parts input))
    (Hpx : forall px, noCR (pxText px))
    (Hr : renderLine input = Returned r) :
  (CharCode.CarriageReturn ∉ output r) /\
  (forall st,
     lineText input !! charIndex st = Some CharCode.CarriageReturn ->
     out (plainChar input st) = out st ++ lit "&#8203").
Proof.
  split.
  - assert (noCR (output r)) as Hno.
    { unfold renderLine in Hr.
      destruct (lineTextLength input =? 0).
      - injection Hr as <-. by repeat constructor.
      - destruct (Z.of_nat (length (parts input)) =? 0); [done|].
        injection Hr as <-. by apply renderLineActual_noCR. }
    unfold noCR in Hno. rewrite Forall_forall in Hno.
    intros Hin. by apply (Hno _ Hin).
  - intros st Hc. by apply (plainChar_case input st _ Hc).
Qed.

(** C10. When the truncation column equals the length of a non-empty line,
    every character is processed and the result still comes from the
    truncation path: there is an iteration for each index of the line, the
    markup ends in the ellipsis marker and the offset table has one entry
    for each character and none behind the last one, while the same
    request without truncation has that further entry. *)
Theorem C10_truncation_at_line_length input
    (Htext : lineText input <> [])
    (Hparts : parts input <> [])
    (Hstop : stopRenderingLineAfter input = lineTextLength input) :
  charBreakIndex input = lineTextLength input - 1 /\
  visitedIndices input = seq 0 (length (lineText input)) /\
  (exists r, renderLine input = Returned r /\
     hellip_close `suffix_of` output r /\
     length (charOffsetInPart r) = length (lineText input) /\
     (forall i, (i < length (lineText input))%nat ->
        exists v, charOffsetInPart r !! i = Some (Some v))) /\
  (exists r', renderLine (withStopRenderingLineAfter (-1) input) = Returned r' /\
     length (charOffsetInPart r') = S (length (lineText input))).
Proof.
  pose proof (lineTextLength_pos input Htext) as Hpos.
  assert (lineTextLength input = Z.of_nat (length (lineText input))) as Hlen0 by done.
  assert (charBreakIndex input = lineTextLength input - 1) as Hb.
  { unfold charBreakIndex. rewrite Hstop.
    destruct (Z.eqb_spec (lineTextLength input) (-1)); lia. }
  split; [done|]. split.
  { rewrite renderLine_indices; [|done..]. rewrite Hb.
    destruct (Z.ltb_spec (lineTextLength input - 1) (lineTextLength input)); [|lia].
    f_equal. lia. }
  split.
  - destruct (renderLine_shape input Htext Hparts) as (r & Hr & Hsome & H).
    exists r. split; [done|]. rewrite Hb in H.
    destruct H as [(_ & Hlen & _ & Hsuf)|(? & _)]; [|lia].
    split_and!; [done | lia |].
    intros i Hi.
    destruct (lookup_lt_is_Some_2 (charOffsetInPart r) i) as [x Hx]; [lia|].
    rewrite Forall_forall in Hsome.
    destruct (Hsome x) as [v ->]; [by eapply list_elem_of_lookup_2 | by exists v].
  - destruct (renderLine_shape (withStopRenderingLineAfter (-1) input) Htext Hparts)
      as (r & Hr & _ & H).
    exists r. split; [done|].
    change (charBreakIndex (withStopRenderingLineAfter (-1) input))
      with (lineTextLength input) in H.
    change (lineTextLength (withStopRenderingLineAfter (-1) input))
      with (lineTextLength input) in H.
    destruct H as [(? & _)|(_ & Hlen & _)]; lia.
Qed.

(** ** Further properties of the renderer *)

(** X1. The markup of a line with text and parts is the root [<span>]
    around one span for each rendered part, in the order of the parts: the
    opening tag of the part, a body without angle brackets and the closing
    tag.  The rendered parts are those up to [lastRenderedPartIndex]; a
    truncated rendering puts the ellipsis in front of the closing tag of
    the last of them, a complete one renders every part. *)
Theorem X1_markup_one_span_per_rendered_part input
    (Hunits : codeUnits (lineText input))
    (Htext : lineText input <> []) (Hparts : parts input <> []) :
  exists r k part front seg closing,
    renderLine input = Returned r /\
    lastRenderedPartIndex r = Z.of_nat k /\
    parts input !! k = Some part /\
    Forall2 (isSegment input span_close) (take k (parts input)) front /\
    isSegment input closing part seg /\
    output r = lit "<span>" ++ concat front ++ seg ++ span_close /\
    ((charBreakIndex input < lineTextLength input /\ closing = hellip_span) \/
     (lineTextLength input <= charBreakIndex input /\ closing = span_close /\
      S k = length (parts input))).
Proof.
  rewrite (renderLine_actual input Htext Hparts).
  destruct (renderLineActual_markup input Hunits (parts input) Hparts
              (lineTextLength_pos input Htext))
    as (k & part & front & seg & closing & H).
  by exists (renderLineActual input (parts input)), k, part, front, seg, closing.
Qed.

(** X2. The text of the line never adds a tag.  When neither the type
    labels of the parts nor the text of a pixel width contain an angle
    bracket, the markup has exactly two opening and two closing angle
    brackets for the root span and for each rendered part, whatever the
    line contains. *)
Theorem X2_text_never_adds_a_tag input
    (Hunits : codeUnits (lineText input))
    (Htypes : Forall (fun part => noAngle (type part)) (parts input))
    (Hpx : forall px, noAngle (pxText px))
    (Htext : lineText input <> []) (Hparts : parts input <> []) :
  exists r, renderLine input = Returned r /\
    Z.of_nat (occurrences CharCode.LessThan (output r))
      = 2 * (lastRenderedPartIndex r + 2) /\
    Z.of_nat (occurrences CharCode.GreaterThan (output r))
      = 2 * (lastRenderedPartIndex r + 2).
Proof.
  rewrite (renderLine_actual input Htext Hparts).
  destruct (renderLineActual_markup input Hunits (parts input) Hparts
              (lineTextLength_pos input Htext))
    as (k & part & front & seg & closing & Hidx & Hk & Hfront & Hseg & Hout & Hcase).
  exists (renderLineActual input (parts input)). split; [done|].
  rewrite Hout, Hidx.
  assert (noAngle (type part)) as Hpart.
  { rewrite Forall_lookup in Htypes. by apply (Htypes k). }
  assert (Forall (fun part => noAngle (type part)) (take k (parts input))) as Hfront_ty
    by (by apply Forall_take).
  destruct (occurrences_segments input Hpx _ _ Hfront_ty Hfront) as [Hf1 Hf2].
  destruct (occurrences_segment input Hpx _ _ _ Hpart Hseg) as [Hs1 Hs2].
  assert (length front = k) as Hlen.
  { apply Forall2_length in Hfront. rewrite <- Hfront, length_take.
    apply lookup_lt_Some in Hk. lia. }
  assert (occurrences CharCode.LessThan closing = 1%nat /\
          occurrences CharCode.GreaterThan closing = 1%nat) as [Hc1 Hc2]
    by (by destruct Hcase as [[_ ->]|(_ & -> & _)]).
  rewrite !occurrences_app, Hf1, Hf2, Hs1, Hs2, Hc1, Hc2, Hlen.
  split; vm_compute occurrences; lia.
Qed.

(** X3. The renderer tells ['boundary'] and ['all'] apart nowhere: the two
    modes give the same result on every request. *)
Theorem X3_boundary_renders_as_all text size sw stop hard control lineParts :
  renderLine (mkInput text size sw stop rw_boundary hard control lineParts) =
  renderLine (mkInput text size sw stop rw_all hard control lineParts).
Proof. reflexivity. Qed.

(** X4. The start index of the first part is never read: rendering begins
    at index 0 whatever it is. *)
Theorem X4_first_startIndex_is_ignored text size sw stop mode hard control
    s s' ty rest :
  renderLine (mkInput text size sw stop mode hard control (mkToken s ty :: rest)) =
  renderLine (mkInput text size sw stop mode hard control (mkToken s' ty :: rest)).
Proof.
  unfold renderLine, renderLineActual. cbn [parts length].
  rewrite !renderParts_cons.
  rewrite (part_type _ _ (mkToken s ty) (mkToken s' ty)) by done.
  reflexivity.
Qed.

(** Two requests that differ in the width of a space and in the mode
    run the loop over the parts alike when neither takes the whitespace
    branch. *)
Lemma renderParts_without_whitespace text size sw sw' stop mode mode' hard control
    lineParts lineParts' rest :
  (mode = rw_none /\ mode' = rw_none) \/
  Forall (fun part => isWhitespace (type part) = false) rest ->
  forall partIndex st,
    renderParts (mkInput text size sw stop mode hard control lineParts)
      rest partIndex st =
    renderParts (mkInput text size sw' stop mode' hard control lineParts')
      rest partIndex st.
Proof.
  intros H. induction rest as [|part rest IH]; intros partIndex st; [done|].
  rewrite !renderParts_cons. cbn [renderWhitespace].
  assert (negb (isNone mode) && isWhitespace (type part) = false /\
          negb (isNone mode') && isWhitespace (type part) = false) as [-> ->].
  { destruct H as [[-> ->]|H]; [done|].
    apply Forall_cons in H as [-> _]. by rewrite !andb_false_r. }
  change (plainPart (mkInput text size sw stop mode hard control lineParts))
    with (plainPart (mkInput text size sw' stop mode' hard control lineParts')).
  change (toCharIndexOf (mkInput text size sw stop mode hard control lineParts))
    with (toCharIndexOf (mkInput text size sw' stop mode' hard control lineParts')).
  destruct (plainPart _ part partIndex _ (resetOffset st)) as [st'|r]; [|done].
  apply IH. destruct H as [H|H]; [by left|].
  right. by apply Forall_cons in H as [_ H].
Qed.

(** X5. The width of a space and the whitespace mode matter in whitespace
    parts alone: two requests that differ in nothing else give the same
    result when whitespace rendering is off in both, and when no part has a
    type that contains ['whitespace']. *)
Theorem X5_spaceWidth_matters_in_whitespace_parts_only
    text size sw sw' stop mode mode' hard control lineParts
    (H : (mode = rw_none /\ mode' = rw_none) \/
         Forall (fun part => isWhitespace (type part) = false) lineParts) :
  renderLine (mkInput text size sw stop mode hard control lineParts) =
  renderLine (mkInput text size sw' stop mode' hard control lineParts).
Proof.
  unfold renderLine, renderLineActual. cbn [parts].
  by rewrite (renderParts_without_whitespace text size sw sw' stop mode mode'
             hard control lineParts lineParts lineParts H).
Qed.

(** X6. A part takes the whitespace branch by a substring test on its
    type: [isWhitespace] holds exactly of the types in which ['whitespace']
    occurs somewhere, as a word of its own or inside another. *)
Theorem X6_isWhitespace_iff_substring ty :
  isWhitespace ty = true <-> exists pre post, ty = pre ++ lit "whitespace" ++ post.
Proof.
  unfold isWhitespace, indexOf. rewrite Z.leb_le.
  by destruct (indexOfFrom_spec (lit "whitespace") ty 0 ltac:(lia)) as [H _].
Qed.

(** X7. Ordinary text passes through.  A line of ordinary characters in
    one part of the plain branch, rendered without truncation, is copied
    into the markup as it is, between the opening tag of the part and the
    closing tags; the offset of every character is its index, and the
    trailing entry is the length of the line. *)
Theorem X7_ordinary_text_passes_through input part
    (Hparts : parts input = [part])
    (Hstop : stopRenderingLineAfter input = -1)
    (Hplain : renderWhitespace input = rw_none \/ isWhitespace (type part) = false)
    (Htext : lineText input <> [])
    (Hord : Forall ordinary (lineText input)) :
  renderLine input =
  Returned
    (mkOutput (countingFrom 0 (S (length (lineText input)))) 0
       (lit "<span>" ++ plainOpen (type part) ++ lineText input
          ++ lit "</span></span>")).
Proof.
  rewrite (renderLine_actual input Htext) by (by rewrite Hparts).
  unfold renderLineActual. rewrite Hparts, renderParts_cons.
  assert (negb (isNone (renderWhitespace input)) && isWhitespace (type part) = false)
    as -> by (destruct Hplain as [-> | ->]; [done | by rewrite andb_false_r]).
  unfold plainPart. cbn [toCharIndexOf charIndex emit resetOffset initialLocals].
  unfold lineTextLength at 1. rewrite Z.sub_0_r, Nat2Z.id.
  rewrite (plainLoop_ordinary input 0 (lineText input)
             ltac:(unfold charBreakIndex; by rewrite Hstop) Hord [] _ 0);
    [|done..].
  cbn [renderParts emit out offsetInPart charOffsetInPartArr length app].
  f_equal. f_equal.
  - unfold array_push.
    replace (S (length (lineText input))) with (length (lineText input) + 1)%nat by lia.
    unfold countingFrom. by rewrite seq_app, map_app.
  - by rewrite <- !app_assoc.
Qed.

(** X8. Inside a part the offsets advance by the columns of the
    characters.  On a valid request for a non-empty line, the entry of an
    index that starts no part is the entry of the index before it plus one
    when the character between them is no tab, and plus the run of the tab,
    between 1 and the tab size, when it is one.  The entry that a truncated
    rendering writes last is behind its character and is left out. *)
Theorem X8_offsets_advance_by_columns input
    (Hvalid : validRequest input) (Htext : lineText input <> []) :
  exists r, renderLine input = Returned r /\
    let t := charOffsetInPart r in
    let starts := map startIndex (parts input) in
    forall i x y, entry t i x -> entry t (S i) y ->
      Z.of_nat (S i) ∉ starts ->
      (charBreakIndex input < lineTextLength input ->
         Z.of_nat (S i) <> Z.max 0 (charBreakIndex input)) ->
      (lineText input !! i <> Some CharCode.Tab -> y = x + 1) /\
      (lineText input !! i = Some CharCode.Tab ->
         x + 1 <= y <= x + tabSize input).
Proof.
  destruct Hvalid as [Hsize Hcover]. unfold partsCover in Hcover.
  destruct (parts input) as [|first rest] eqn:Hparts; [done|].
  destruct Hcover as (Hfirst & Hasc & Hbound).
  rewrite (renderLine_actual input Htext) by (by rewrite Hparts).
  rewrite Hparts. eexists. split; [reflexivity|].
  apply (renderLineActual_neighbours input (advances input) deltaInv
           (map startIndex (first :: rest))); try done.
  - intros st o. apply (bookkeeping_advances input Hsize).
  - by apply lineTextLength_pos.
  - by exists 0.
Qed.

(** X9. Tabs reach tab stops.  On a valid request for a non-empty line in
    one part the offsets are visual columns: the entry behind a tab is the
    first multiple of the tab size above the entry of the tab.  The entry
    that a truncated rendering writes last is left out. *)
Theorem X9_tabs_reach_tab_stops input part
    (Hvalid : validRequest input) (Hparts : parts input = [part])
    (Htext : lineText input <> []) :
  exists r, renderLine input = Returned r /\
    let t := charOffsetInPart r in
    forall i x y, entry t i x -> entry t (S i) y ->
      (charBreakIndex input < lineTextLength input ->
         Z.of_nat (S i) <> Z.max 0 (charBreakIndex input)) ->
      lineText input !! i = Some CharCode.Tab ->
      y mod tabSize input = 0 /\ x < y <= x + tabSize input.
Proof.
  destruct Hvalid as [Hsize Hcover]. unfold partsCover in Hcover.
  rewrite Hparts in Hcover. destruct Hcover as (Hfirst & Hasc & Hbound).
  rewrite (renderLine_actual input Htext) by (by rewrite Hparts).
  rewrite Hparts. eexists. split; [reflexivity|].
  intros t i x y Hx Hy Hnb.
  apply (renderLineActual_neighbours input (reachesTabStop input) columnInv
           [0]) with (first := part) (rest := []); try done.
  - intros [] (d & Hd & Hd0 & Hcol & Hzero) Hin. simpl in *.
    apply list_elem_of_singleton in Hin.
    exists d. split_and!; [done | done | | done].
    simpl. f_equal. rewrite Hzero; lia.
  - intros st o. apply (bookkeeping_tabStop input Hsize).
  - simpl. by rewrite Hfirst.
  - by apply lineTextLength_pos.
  - exists 0. by split_and!.
  - intros Hin. apply list_elem_of_singleton in Hin. lia.
Qed.

(** X10. The width of a whitespace part is the width of the columns it
    spans.  With a positive tab size, the glyph count that the wrapper of a
    whitespace part multiplies [spaceWidth] with is the offset that the
    part has reached at its end: the offset handed on behind the part, and
    the last entry of the table when the rendering is truncated in the
    part. *)
Theorem X10_whitespace_width_is_columns input part partIndex toCharIndex st
    (Hsize : 1 <= tabSize input)
    (Hdelta : deltaInv st)
    (Hlen : length (charOffsetInPartArr st) = charIndex st) :
  match whitespacePart input part partIndex toCharIndex (resetOffset st) with
  | Next st' =>
      exists cnt content,
        offsetInPart st' = Int cnt /\
        out st' = out st
          ++ whitespaceOpen (spaceWidth input) (type part) cnt
          ++ content ++ span_close
  | Return r =>
      exists cnt content,
        last (charOffsetInPart r) = Some (Some (Int cnt)) /\
        output r = out st
          ++ whitespaceOpen (spaceWidth input) (type part) cnt
          ++ content ++ hellip_close
  end.
Proof.
  unfold whitespacePart.
  destruct (whitespaceLoop_columns input Hsize part partIndex
              (Z.to_nat (toCharIndex - Z.of_nat (charIndex (resetOffset st))))
              (mkWs (resetOffset st) 0 []) 0 Hdelta eq_refl Hlen)
    as (k & more & H).
  cbn [ws partContent partContentCnt out resetOffset] in H.
  rewrite Z.add_0_l in H.
  destruct (whitespaceLoop input part partIndex _ _) as [w'|r].
  - destruct H as (Ho & Hcnt & Hcontent & Hout).
    exists k, more. split; [done|].
    unfold whitespaceFlush. cbn [out emit]. rewrite Hout, Hcnt, Hcontent.
    by rewrite <- !app_assoc.
  - destruct H as (Hlast & Hr). exists k, more. by split.
Qed.

(** *** Truncation against the rendering of the whole line *)

Section Truncation.

Variable input : RenderLineInput.

Lemma unlimited_atBreak st :
  Z.of_nat (charIndex st) < lineTextLength input -> atBreak (unlimited input) st = false.
Proof.
  intros Hlt. unfold atBreak, charBreakIndex. simpl. apply Z.leb_gt.
  exact Hlt.
Qed.

(** Without truncation a part runs to its end and extends the table. *)
Lemma unlimited_part t0 (b : bool) part partIndex toCharIndex st :
  extendsInv t0 st -> toCharIndex <= lineTextLength input ->
  Z.of_nat (charIndex st) <= lineTextLength input ->
  exists st',
    (if b then whitespacePart (unlimited input) part partIndex toCharIndex st
     else plainPart (unlimited input) part partIndex toCharIndex st) = Next st' /\
    extendsInv t0 st' /\ Z.of_nat (charIndex st') <= lineTextLength input.
Proof.
  intros Hinv Hto Hle.
  pose proof (part_rule (unlimited input) (lineTextLength input) (extendsInv t0)
    (fun _ _ => False) (extendsInv_out t0)
    (fun st' Hst' _ _ => extendsInv_step (unlimited input) t0 st' Hst')
    (fun st' s i _ Hlt Hb =>
       eq_ind false (fun x => if x then False else True) I true
         (eq_trans (eq_sym (unlimited_atBreak st' Hlt)) Hb))
    b part partIndex toCharIndex st Hinv Hto Hle) as H.
  destruct (if b then _ else _) as [st'|r]; [|done].
  destruct H as [Hinv' Hc]. exists st'. split_and!; [done | done | lia].
Qed.

(** The plain loop of the request and of the request without truncation:
    they run alike until the first returns. *)
Lemma plainLoop_cut partIndex steps :
  forall st,
    length (charOffsetInPartArr st) = charIndex st ->
    Z.of_nat (charIndex st + steps) <= lineTextLength input ->
    match plainLoop input partIndex steps st with
    | Next st1 => plainLoop (unlimited input) partIndex steps st = Next st1
    | Return r =>
        exists st1, plainLoop (unlimited input) partIndex steps st = Next st1 /\
          extendsInv (charOffsetInPartArr st) st1 /\
          cutOf (charOffsetInPartArr st1) r
    end.
Proof.
  induction steps as [|steps IH]; intros st Hlen Hsteps; [done|].
  cbn [plainLoop].
  change (plainChar (unlimited input) st) with (plainChar input st).
  assert (charIndex (plainChar input st) = charIndex st) as Hidx
    by (by rewrite plainChar_bookkeeping).
  rewrite (unlimited_atBreak (plainChar input st)) by lia.
  assert (extendsInv (charOffsetInPartArr st) (incrIndex (plainChar input st)))
    as Hext.
  { rewrite plainChar_bookkeeping.
    apply (extendsInv_step input (charOffsetInPartArr st) st). by split. }
  destruct (atBreak input (plainChar input st)).
  - pose proof (plainLoop_rule (unlimited input) (lineTextLength input)
      (extendsInv (charOffsetInPartArr st)) (fun _ _ => False)
      (extendsInv_out _)
      (fun st' Hst' _ _ => extendsInv_step (unlimited input) _ st' Hst')
      (fun st' s i _ Hlt Hb =>
         eq_ind false (fun x => if x then False else True) I true
           (eq_trans (eq_sym (unlimited_atBreak st' Hlt)) Hb))
      partIndex steps (incrIndex (plainChar input st)) Hext
      ltac:(cbn [charIndex incrIndex]; lia)) as H.
    destruct (plainLoop (unlimited input) partIndex steps _) as [st1|?]; [|done].
    destruct H as [[Hlen1 Hpre1] _].
    exists st1. split_and!; [done | by split |].
    exists (charOffsetInPartArr st), (Some (offsetInPart (bookkeeping input st))).
    split; [|done]. rewrite plainChar_bookkeeping.
    change (emit hellip_close (setOut ?s (bookkeeping input st)))
      with (setOut (s ++ hellip_close) (bookkeeping input st)).
    by apply truncated_table.
  - specialize (IH (incrIndex (plainChar input st)) (proj1 Hext)
      ltac:(cbn [charIndex incrIndex]; lia)).
    destruct (plainLoop input partIndex steps _) as [st1|r]; [done|].
    destruct IH as (st1 & Hrun & [Hlen1 Hpre] & Hcut).
    destruct Hext as [_ Hpre0].
    exists st1. split_and!; [done | split; [done | by etrans] | done].
Qed.

Lemma whitespaceLoop_cut part partIndex steps :
  forall w,
    length (charOffsetInPartArr (ws w)) = charIndex (ws w) ->
    Z.of_nat (charIndex (ws w) + steps) <= lineTextLength input ->
    match whitespaceLoop input part partIndex steps w with
    | Next w1 => whitespaceLoop (unlimited input) part partIndex steps w = Next w1
    | Return r =>
        exists w1, whitespaceLoop (unlimited input) part partIndex steps w = Next w1 /\
          extendsInv (charOffsetInPartArr (ws w)) (ws w1) /\
          cutOf (charOffsetInPartArr (ws w1)) r
    end.
Proof.
  induction steps as [|steps IH]; intros w Hlen Hsteps; [done|].
  cbn [whitespaceLoop].
  change (whitespaceChar (unlimited input) w) with (whitespaceChar input w).
  pose proof (whitespaceChar_bookkeeping input w) as Hws.
  assert (charIndex (ws (whitespaceChar input w)) = charIndex (ws w)) as Hidx
    by (by rewrite Hws).
  rewrite (unlimited_atBreak (ws (whitespaceChar input w))) by lia.
  set (w' := mkWs (incrIndex (ws (whitespaceChar input w)))
               (partContentCnt (whitespaceChar input w))
               (partContent (whitespaceChar input w))).
  assert (extendsInv (charOffsetInPartArr (ws w)) (ws w')) as Hext.
  { subst w'. cbn [ws]. rewrite Hws.
    apply (extendsInv_step input (charOffsetInPartArr (ws w)) (ws w)). by split. }
  destruct (atBreak input (ws (whitespaceChar input w))).
  - pose proof (whitespaceLoop_rule (unlimited input) (lineTextLength input)
      (extendsInv (charOffsetInPartArr (ws w))) (fun _ _ => False)
      (extendsInv_out _)
      (fun st' Hst' _ _ => extendsInv_step (unlimited input) _ st' Hst')
      (fun st' s i _ Hlt Hb =>
         eq_ind false (fun x => if x then False else True) I true
           (eq_trans (eq_sym (unlimited_atBreak st' Hlt)) Hb))
      part partIndex steps w' Hext
      ltac:(subst w'; cbn [ws charIndex incrIndex]; lia)) as H.
    destruct (whitespaceLoop (unlimited input) part partIndex steps w') as [w1|?]; [|done].
    destruct H as [[Hlen1 Hpre1] _].
    exists w1. split_and!; [done | by split |].
    exists (charOffsetInPartArr (ws w)),
      (Some (offsetInPart (bookkeeping input (ws w)))).
    split; [|done]. unfold whitespaceFlush. rewrite Hws.
    change (emit ?a (emit ?b (emit ?c (setOut ?s ?x))))
      with (setOut (((s ++ c) ++ b) ++ a) x).
    by apply truncated_table.
  - specialize (IH w' (proj1 Hext)
      ltac:(subst w'; cbn [ws charIndex incrIndex]; lia)).
    destruct (whitespaceLoop input part partIndex steps w') as [w1|r]; [done|].
    destruct IH as (w1 & Hrun & [Hlen1 Hpre] & Hcut).
    destruct Hext as [_ Hpre0].
    exists w1. split_and!; [done | split; [done | by etrans] | done].
Qed.

(** A part of the request and of the request without truncation. *)
Lemma part_cut (b : bool) part partIndex toCharIndex st :
  length (charOffsetInPartArr st) = charIndex st ->
  toCharIndex <= lineTextLength input ->
  Z.of_nat (charIndex st) <= lineTextLength input ->
  match (if b then whitespacePart input part partIndex toCharIndex st
         else plainPart input part partIndex toCharIndex st) with
  | Next st1 =>
      (if b then whitespacePart (unlimited input) part partIndex toCharIndex st
       else plainPart (unlimited input) part partIndex toCharIndex st) = Next st1
  | Return r =>
      exists st1,
        (if b then whitespacePart (unlimited input) part partIndex toCharIndex st
         else plainPart (unlimited input) part partIndex toCharIndex st) = Next st1 /\
        extendsInv (charOffsetInPartArr st) st1 /\
        cutOf (charOffsetInPartArr st1) r
  end.
Proof.
  intros Hlen Hto Hle. destruct b.
  - unfold whitespacePart.
    pose proof (whitespaceLoop_cut part partIndex
      (Z.to_nat (toCharIndex - Z.of_nat (charIndex st))) (mkWs st 0 [])
      Hlen ltac:(cbn [ws]; lia)) as H.
    destruct (whitespaceLoop input part partIndex _ _) as [w1|r].
    + by rewrite H.
    + destruct H as (w1 & -> & Hext & Hcut). by eexists.
  - unfold plainPart.
    pose proof (plainLoop_cut partIndex
      (Z.to_nat (toCharIndex - Z.of_nat (charIndex (emit (plainOpen (type part)) st))))
      (emit (plainOpen (type part)) st)
      Hlen ltac:(cbn [charIndex emit]; lia)) as H.
    destruct (plainLoop input partIndex _ _) as [st1|r].
    + by rewrite H.
    + destruct H as (st1 & -> & Hext & Hcut). by eexists.
Qed.

(** Without truncation the loop over the parts runs to its end and
    extends the table. *)
Lemma unlimited_parts t0 lineParts :
  forall partIndex st,
    extendsInv t0 st -> Z.of_nat (charIndex st) <= lineTextLength input ->
    exists st', renderParts (unlimited input) lineParts partIndex st = Next st' /\
      extendsInv t0 st'.
Proof.
  induction lineParts as [|part rest IH]; intros partIndex st Hinv Hle.
  - by exists st.
  - rewrite renderParts_cons.
    destruct (unlimited_part t0
      (negb (isNone (renderWhitespace (unlimited input))) && isWhitespace (type part))
      part partIndex (toCharIndexOf (unlimited input) rest) (resetOffset st)
      (extendsInv_reset t0 st Hinv) (toCharIndexOf_le input rest) Hle)
      as (st1 & -> & Hinv1 & Hle1).
    by apply IH.
Qed.

(** The loop over the parts of the request and of the request without
    truncation. *)
Lemma renderParts_cut lineParts :
  forall partIndex st,
    length (charOffsetInPartArr st) = charIndex st ->
    Z.of_nat (charIndex st) <= lineTextLength input ->
    match renderParts input lineParts partIndex st with
    | Next st1 => renderParts (unlimited input) lineParts partIndex st = Next st1
    | Return r =>
        exists st1, renderParts (unlimited input) lineParts partIndex st = Next st1 /\
          length (charOffsetInPartArr st1) = charIndex st1 /\
          cutOf (charOffsetInPartArr st1) r
    end.
Proof.
  induction lineParts as [|part rest IH]; intros partIndex st Hlen Hle; [done|].
  rewrite !renderParts_cons.
  change (renderWhitespace (unlimited input)) with (renderWhitespace input).
  change (toCharIndexOf (unlimited input) rest) with (toCharIndexOf input rest).
  set (b := negb (isNone (renderWhitespace input)) && isWhitespace (type part)).
  pose proof (part_cut b part partIndex (toCharIndexOf input rest) (resetOffset st)
    Hlen (toCharIndexOf_le input rest) Hle) as H.
  destruct (unlimited_part (charOffsetInPartArr st) b part partIndex
    (toCharIndexOf input rest) (resetOffset st)
    ltac:(by split) (toCharIndexOf_le input rest) Hle)
    as (st' & Hrun & [Hlen' Hpre'] & Hle').
  destruct (if b then whitespacePart input _ _ _ _ else _) as [st1|r].
  - rewrite H. rewrite H in Hrun. injection Hrun as ->.
    by apply IH.
  - destruct H as (st1 & H & _ & Hcut). rewrite H in Hrun |- *.
    injection Hrun as ->.
    destruct (unlimited_parts (charOffsetInPartArr st') rest (S partIndex) st'
      ltac:(by split) Hle') as (st2 & -> & Hlen2 & Hpre2).
    exists st2. split_and!; [done | done |].
    destruct Hcut as (t & v & Hr & Ht). exists t, v. split; [done | by etrans].
Qed.

End Truncation.

(** X11. Truncation cuts and changes nothing in front of the cut.  The
    table of a request has, in front of its last entry, the entries that
    the same request without truncation has at these indices. *)
Theorem X11_truncation_keeps_earlier_offsets input
    (Htext : lineText input <> []) (Hparts : parts input <> []) :
  exists r r',
    renderLine input = Returned r /\
    renderLine (withStopRenderingLineAfter (-1) input) = Returned r' /\
    (length (charOffsetInPart r) <= length (charOffsetInPart r'))%nat /\
    forall i, (S i < length (charOffsetInPart r))%nat ->
      charOffsetInPart r !! i = charOffsetInPart r' !! i.
Proof.
  rewrite (renderLine_actual input Htext Hparts).
  rewrite (renderLine_actual (withStopRenderingLineAfter (-1) input) Htext Hparts).
  do 2 eexists. split; [reflexivity|]. split; [reflexivity|].
  unfold renderLineActual.
  change (withStopRenderingLineAfter (-1) input) with (unlimited input).
  change (parts (unlimited input)) with (parts input).
  pose proof (lineTextLength_pos input Htext) as Hpos.
  pose proof (renderParts_cut input (parts input) 0%nat initialLocals eq_refl
    ltac:(simpl; lia)) as H.
  destruct (renderParts input (parts input) 0 initialLocals) as [st1|r].
  - rewrite H. by split.
  - destruct H as (st1 & -> & Hlen & t & v & Hr & Ht).
    cbn [charOffsetInPart emit offsetInPart charOffsetInPartArr].
    unfold array_push. rewrite Hr, !length_app. simpl.
    pose proof (prefix_length _ _ Ht) as Hle.
    split; [lia|]. intros i Hi.
    rewrite !lookup_app_l by lia.
    apply prefix_lookup_lt; [lia | done].
Qed.

(** X12. A tab size of 0 or below drops the tabs.  A tab then writes no
    markup in the plain branch and buffers no glyph in the whitespace
    branch, so that it adds nothing to the width of a whitespace part; at
    tab size 0 the offset and the tab delta behind it are not numbers. *)
Theorem X12_nonpositive_tabSize_drops_tabs input w
    (Hsize : tabSize input <= 0)
    (Htab : lineText input !! charIndex (ws w) = Some CharCode.Tab) :
  out (plainChar input (ws w)) = out (ws w) /\
  partContent (whitespaceChar input w) = partContent w /\
  partContentCnt (whitespaceChar input w) = partContentCnt w /\
  (tabSize input = 0 ->
     offsetInPart (plainChar input (ws w)) = NaN /\
     tabsCharDelta (plainChar input (ws w)) = NaN /\
     offsetInPart (ws (whitespaceChar input w)) = NaN /\
     tabsCharDelta (ws (whitespaceChar input w)) = NaN).
Proof.
  destruct (insertSpacesCount_nonpositive input (ws w) Hsize) as (Hiter & Hgt & Hnan).
  split_and!.
  - rewrite (plainChar_tab input (ws w) Htab), Hiter. apply app_nil_r.
  - destruct w as [st cnt content]. unfold whitespaceChar.
    cbn [ws partContent partContentCnt] in *.
    change (charIndex (recordOffset st)) with (charIndex st).
    destruct (charCodeAt_lookup input _ _ Htab) as [-> _]. cbn [num_is Z.eqb].
    change (insertSpacesCount input (recordOffset st))
      with (insertSpacesCount input st).
    unfold CharCode.Tab. cbn [Z.eqb Pos.eqb].
    rewrite Hgt, bufferNbsp_spec, Hiter. done.
  - destruct w as [st cnt content]. unfold whitespaceChar.
    cbn [ws partContent partContentCnt] in *.
    change (charIndex (recordOffset st)) with (charIndex st).
    destruct (charCodeAt_lookup input _ _ Htab) as [-> _].
    change (insertSpacesCount input (recordOffset st))
      with (insertSpacesCount input st).
    unfold CharCode.Tab. cbn [num_is Z.eqb Pos.eqb].
    rewrite Hgt, bufferNbsp_spec, Hiter. cbn [partContentCnt]. lia.
  - intros Hzero. specialize (Hnan Hzero).
    rewrite plainChar_bookkeeping, whitespaceChar_bookkeeping.
    unfold bookkeeping. cbn [offsetInPart tabsCharDelta setOut].
    destruct (charCodeAt_lookup input _ _ Htab) as [-> _].
    unfold CharCode.Tab. cbn [num_is Z.eqb Pos.eqb]. rewrite Hnan.
    cbn [num_sub num_add].
    by destruct (offsetInPart (ws w)), (tabsCharDelta (ws w)).
Qed.

(** X13. Every index once, whatever the parts.  On a non-empty line with
    at least one part, wherever the parts start (also when they overlap,
    descend or lie behind the line), the iterations run through the indices
    from 0 on, each once and in order, up to the break index or to the end
    of the line, and the table has an entry for each of them, and one more
    when the line was rendered to its end. *)
Theorem X13_every_index_once_whatever_the_parts input
    (Htext : lineText input <> []) (Hparts : parts input <> []) :
  exists r n,
    renderLine input = Returned r /\
    visitedIndices input = seq 0 n /\
    ((charBreakIndex input < lineTextLength input /\
      n = Z.to_nat (Z.max 0 (charBreakIndex input) + 1) /\
      length (charOffsetInPart r) = n) \/
     (lineTextLength input <= charBreakIndex input /\
      n = length (lineText input) /\
      length (charOffsetInPart r) = S n)).
Proof.
  destruct (renderLine_shape input Htext Hparts) as (r & Hr & _ & Hshape).
  pose proof (renderLine_indices input Htext Hparts) as Hidx.
  exists r. eexists. split; [done|]. split; [exact Hidx|].
  unfold lineTextLength in *.
  destruct Hshape as [(Hlt & Hlen & _)|(Hge & Hlen & _)].
  - left. rewrite (proj2 (Z.ltb_lt _ _) Hlt). split_and!; [done | done | lia].
  - right. rewrite (proj2 (Z.ltb_ge _ _) Hge). split_and!; [done | done | lia].
Qed.

(** X14. The characters with a [case] of their own besides the tab, the
    escaped three and the carriage return.  In the plain branch a space is
    written as [&nbsp;], the NUL character as [&#00;], the byte order mark
    and the line separator U+2028 as the replacement character U+FFFD, and
    the hard space as [&middot;] when [renderHardSpace] is set and as
    itself otherwise; each of them advances the offset by one column. *)
Theorem X14_plain_dedicated_characters input st c o
    (Hc : lineText input !! charIndex st = Some c)
    (Ho : offsetInPart st = Int o) :
  let st' := plainChar input st in
  (c = CharCode.Space -> out st' = out st ++ lit "&nbsp;") /\
  (c = CharCode.Null -> out st' = out st ++ lit "&#00;") /\
  (c = CharCode.UTF8_BOM \/ c = CharCode.LINE_SEPARATOR_2028 ->
     out st' = out st ++ [65533]) /\
  (c = CharCode.HardSpace ->
     out st' = out st ++ (if renderHardSpace input then lit "&middot;" else [160])) /\
  (c <> CharCode.Tab -> offsetInPart st' = Int (o + 1)).
Proof.
  intros st'.
  destruct (plainChar_case input st c Hc)
    as (Hsp & _ & _ & _ & Hnul & _ & Hrep & Hhard).
  split_and!; [done | done | done | |].
  - intros ->. unfold st'. by rewrite (Hhard eq_refl).
  - intros Hne. unfold st'. rewrite plainChar_bookkeeping. unfold bookkeeping.
    cbn [offsetInPart setOut].
    destruct (charCodeAt_lookup input _ _ Hc) as [-> _]. cbn [num_is].
    replace (c =? CharCode.Tab) with false by (symmetry; by apply Z.eqb_neq).
    by rewrite Ho.
Qed.

End Renderer.

(** ** The renderer at integer pixel widths *)

Lemma intText_noCR z : noCR (intText z).
Proof.
  unfold intText.
  assert (forall d, noCR (lit (NilEmpty.string_of_uint d))) as Huint.
  { induction d; simpl; try constructor; try done; exact IHd. }
  assert (forall d, noCR (lit (NilZero.string_of_uint d))) as Hzero.
  { intros d. destruct d; try apply Huint. by repeat constructor. }
  destruct (Z.to_int z) as [d|d]; simpl.
  - apply Hzero.
  - constructor; [done | apply Hzero].
Qed.

(** The truncation example: ten characters in one part, truncated after
    column 3. *)
Lemma C1_witness :
  let input :=
    mkInput Z (lit "0123456789") 4 7 3 rw_none false false [mkToken 0 (lit "plain")] in
  charBreakIndex Z input = 2 /\
  visitedIndices Z Z.mul intText input = [0; 1; 2]%nat /\
  exists r, renderLine Z Z.mul intText input = Returned r /\
    hellip_close `suffix_of` output r /\
    length (charOffsetInPart r) = 3%nat /\
    lastRenderedPartIndex r = 0 /\
    truncationAsStated Z Z.mul intText input r.
Proof.
  intros input.
  destruct (C1_truncation_stops_at_break_index Z Z.mul intText input)
    as (Hb & _ & _ & _ & Hrender).
  destruct Hrender as (r & Hr & Htrunc & _ & Hstated & _); [done | done |].
  assert (stopRenderingLineAfter Z input <> -1) as Hne by done.
  assert (charBreakIndex Z input < lineTextLength Z input) as Hlt by done.
  assert (1 <= stopRenderingLineAfter Z input <= lineTextLength Z input) as Hrange
    by done.
  destruct (Htrunc Hlt) as (Hidx & _ & Hsuf & Hlen & _ & _ & Hlast).
  split; [exact (Hb Hne)|]. split; [exact Hidx|].
  exists r. split; [exact Hr|]. split; [exact Hsuf|]. split; [exact Hlen|].
  split; [exact (Hlast eq_refl) | exact (proj2 (Hstated Hne) Hrange)].
Defined.

(** Two tabs in two parts: the second stands at visual column 5 and runs
    to the tab stop 8, as the tab of the first part has added 3 columns;
    and the tab example of the specification. *)
Lemma C3_witness :
  let input :=
    mkInput Z [CharCode.Tab; 65; CharCode.Tab; 66] 4 7 (-1) rw_none false false
      [mkToken 0 (lit "plain"); mkToken 2 (lit "other")] in
  (exists v, renderLineVisits Z Z.mul intText input !! 2%nat = Some v /\
     charIndex (visitLocals v) = 2%nat /\
     offsetInPart (visitLocals v) = Int 0 /\
     tabsCharDelta (visitLocals v) = Int 3 /\
     extraColumns Z input 2 = 3 /\
     visualColumn Z input 2 = 5 /\
     insertSpacesCount Z input (visitLocals v) = Int 3 /\
     visualColumn Z input 3 = 8) /\
  exists r,
    renderLine Z Z.mul intText
      (mkInput Z [CharCode.Tab; 65] 4 7 (-1) rw_none false false
         [mkToken 0 (lit "plain")]) = Returned r /\
    entry (charOffsetInPart r) 0 0 /\ entry (charOffsetInPart r) 1 4.
Proof.
  intros input.
  assert (exists v, renderLineVisits Z Z.mul intText input !! 2%nat = Some v /\
            charIndex (visitLocals v) = 2%nat /\
            offsetInPart (visitLocals v) = Int 0) as (v & Hlookup & Hindex & Hoffset).
  { eexists. split; [by vm_compute | split; reflexivity]. }
  assert (1 <= tabSize Z input) as Hsize by done.
  assert (lineText Z input !! charIndex (visitLocals v) = Some CharCode.Tab) as Htab
    by (by rewrite Hindex).
  destruct (C3_tab_run Z Z.mul intText input v Hsize
              (list_elem_of_lookup_2 _ _ _ Hlookup) Htab)
    as ((d & o & run & Hd & _ & _ & Hsum & Hcol & Hrun & Hcount & _ & _ & _
         & Hnext & _) & Hexample & _).
  rewrite Hindex in Hsum, Hcol, Hrun, Hnext.
  assert (extraColumns Z input 2 = 3) as Hextra by (by vm_compute).
  assert (visualColumn Z input 2 = 5) as Hcolumn by (by vm_compute).
  assert (d = 3) as -> by (by rewrite Hsum).
  assert (run = 3) as -> by (by rewrite Hrun).
  split; [|exact (Hexample 7 rw_none false false 0)].
  exists v. split; [exact Hlookup|]. split; [exact Hindex|]. split; [exact Hoffset|].
  split; [exact Hd|]. split; [exact Hextra|]. split; [exact Hcolumn|].
  split; [exact Hcount|]. by rewrite Hnext, Hcolumn.
Defined.

(** A line of a tab and two letters in two parts, the first of them
    rendered as whitespace. *)
Lemma C4_witness :
  let input :=
    mkInput Z (CharCode.Tab :: lit "ab") 4 7 (-1) rw_all false false
      [mkToken 0 (lit "leading whitespace"); mkToken 1 (lit "identifier")] in
  validRequest Z input /\
  exists r, renderLine Z Z.mul intText input = Returned r /\
    length (charOffsetInPart r) = 4%nat /\
    entry (charOffsetInPart r) 0 0 /\ entry (charOffsetInPart r) 1 0.
Proof.
  intros input.
  assert (validRequest Z input) as Hvalid.
  { split; [by vm_compute|]. simpl. split_and!; [done | lia | done |].
    constructor; [by vm_compute | constructor]. }
  split; [exact Hvalid|].
  destruct (C4_offset_table_coverage Z Z.mul intText input Hvalid)
    as (r & Hr & _ & Hlen & _ & _ & Hstart).
  - done.
  - exists r. split; [exact Hr|].
    assert (length (charOffsetInPart r) = 4%nat) as Hlen'.
    { specialize (Hlen ltac:(by vm_compute)).
      change (Z.of_nat (length (charOffsetInPart r)) = 4) in Hlen. lia. }
    split; [exact Hlen'|]. split.
    + apply Hstart; [by left | lia | intros H; vm_compute in H; discriminate].
    + apply Hstart; [right; by left | lia | intros H; vm_compute in H; discriminate].
Defined.

Lemma C6_witness :
  let input :=
    mkInput Z (lit "<a&b>") 4 7 (-1) rw_none false false [mkToken 0 (lit "plain")] in
  out (plainChar Z input initialLocals) = lit "<span>" ++ lit "&lt;" /\
  out (plainChar Z input (incrIndex initialLocals)) = lit "<span>" ++ lit "a".
Proof.
  intros input. split.
  - by apply (C6_plain_escaping Z Z.mul intText input initialLocals
                CharCode.LessThan eq_refl).
  - apply (C6_plain_escaping Z Z.mul intText input (incrIndex initialLocals) 97 eq_refl);
      by vm_compute.
Defined.

(** A line of one space in a whitespace part, at the width 7. *)
Lemma C7_witness :
  let input :=
    mkInput Z [CharCode.Space] 4 7 (-1) rw_all false false
      [mkToken 0 (lit "whitespace")] in
  renderLine Z Z.mul intText input
  = Returned (mkOutput [Some (Int 0); Some (Int 1)] 0
      (lit "<span><span class=" ++ [34] ++ lit "token whitespace" ++ [34]
         ++ lit " style=" ++ [34] ++ lit "width:7px" ++ [34]
         ++ lit ">&middot;</span></span>")).
Proof.
  intros input.
  exact (proj2 (proj2 (proj2 (C7_whitespace_width Z Z.mul intText input
                                (mkToken 0 (lit "whitespace")) [] 0%nat
                                initialLocals eq_refl eq_refl))
                  4 7 false false 0)).
Defined.

Lemma C8_witness :
  let withControl :=
    mkInput Z [7] 4 7 (-1) rw_none false true [mkToken 0 (lit "plain")] in
  let without :=
    mkInput Z [7] 4 7 (-1) rw_none false false [mkToken 0 (lit "plain")] in
  out (plainChar Z withControl initialLocals) = lit "<span>" ++ [9223] /\
  out (plainChar Z without initialLocals) = lit "<span>" ++ [7].
Proof.
  intros withControl without. split.
  - by apply (C8_control_pictures Z Z.mul intText withControl initialLocals 7
                eq_refl ltac:(lia) ltac:(done) ltac:(done) ltac:(done)).
  - by apply (C8_control_pictures Z Z.mul intText without initialLocals 7
                eq_refl ltac:(lia) ltac:(done) ltac:(done) ltac:(done)).
Defined.

(** A line with a carriage return between two letters. *)
Lemma C9_witness :
  let input :=
    mkInput Z [97; CharCode.CarriageReturn; 98] 4 7 (-1) rw_none false false
      [mkToken 0 (lit "plain")] in
  exists r, renderLine Z Z.mul intText input = Returned r /\
    output r = lit "<span>" ++ plainOpen (lit "plain") ++ lit "a&#8203b"
                 ++ lit "</span></span>" /\
    CharCode.CarriageReturn ∉ output r.
Proof.
  intros input. eexists. split; [reflexivity|]. split; [by vm_compute|].
  apply (C9_carriage_return Z Z.mul intText input).
  - repeat constructor; by vm_compute.
  - repeat constructor; by vm_compute.
  - exact intText_noCR.
  - reflexivity.
Defined.

Lemma C10_witness :
  let input :=
    mkInput Z (lit "abc") 4 7 3 rw_none false false [mkToken 0 (lit "plain")] in
  visitedIndices Z Z.mul intText input = [0; 1; 2]%nat /\
  exists r,
    renderLine Z Z.mul intText input = Returned r /\
    hellip_close `suffix_of` output r /\
    length (charOffsetInPart r) = 3%nat.
Proof.
  intros input.
  destruct (C10_truncation_at_line_length Z Z.mul intText input)
    as (_ & Hidx & (r & Hr & Hsuf & Hlen & _) & _).
  - done.
  - done.
  - reflexivity.
  - split; [exact Hidx|].
    exists r. split_and!; [exact Hr | exact Hsuf | exact Hlen].
Defined.

(** ** Where the specification and the renderer differ *)

(** C1 as stated fails with truncation column 0: the break index is -1,
    which is the index of no character, and yet the first character is
    rendered in front of the ellipsis; the last iteration is that of index
    0 and the table has one entry, not none. *)
Lemma C1_counterexample :
  let input :=
    mkInput Z (lit "0123456789") 4 7 0 rw_none false false [mkToken 0 (lit "plain")] in
  stopRenderingLineAfter Z input <> -1 /\
  charBreakIndex Z input = -1 /\
  visitedIndices Z Z.mul intText input = [0%nat] /\
  exists r, renderLine Z Z.mul intText input = Returned r /\
    charOffsetInPart r = [Some (Int 1)] /\
    output r = lit "<span>" ++ plainOpen (lit "plain") ++ lit "0&hellip;</span></span>" /\
    ~ truncationAsStated Z Z.mul intText input r.
Proof.
  intros input. split; [done|]. split; [done|]. split; [done|].
  eexists. split; [reflexivity|]. split; [by vm_compute|]. split; [by vm_compute|].
  intros (_ & Hlast & _). vm_compute in Hlast. discriminate.
Qed.

(** C4 as stated fails on valid requests: on the empty line the table has
    no entry, not one; with truncation column 0 it has one entry, not none;
    and where truncation stops at the first index of a part, the entry of
    that index is not 0. *)
Lemma C4_counterexample :
  (let input := mkInput Z [] 4 7 (-1) rw_none false false [] in
   validRequest Z input /\
   exists r, renderLine Z Z.mul intText input = Returned r /\
     ~ coverageAsStated Z input r) /\
  (let input := mkInput Z (lit "ab") 4 7 0 rw_none false false
                  [mkToken 0 (lit "plain")] in
   validRequest Z input /\
   exists r, renderLine Z Z.mul intText input = Returned r /\
     ~ coverageAsStated Z input r) /\
  (let input := mkInput Z (lit "ab") 4 7 2 rw_none false false
                  [mkToken 0 (lit "plain"); mkToken 1 (lit "other")] in
   validRequest Z input /\
   exists r, renderLine Z Z.mul intText input = Returned r /\
     charOffsetInPart r = [Some (Int 0); Some (Int 1)] /\
     ~ coverageAsStated Z input r).
Proof.
  split_and!.
  - split; [by split|]. eexists. split; [reflexivity|].
    intros ([H|H] & _); vm_compute in H; discriminate.
  - split; [split; [by vm_compute | by repeat constructor]|].
    eexists. split; [reflexivity|].
    intros ([H|H] & _); vm_compute in H; discriminate.
  - split.
    { split; [by vm_compute|]. simpl. split_and!; [done | lia | done |].
      constructor; [by vm_compute | constructor]. }
    eexists. split; [reflexivity|]. split; [by vm_compute|].
    intros (_ & _ & H).
    specialize (H 1%nat ltac:(right; by left) ltac:(vm_compute; lia)).
    vm_compute in H. discriminate.
Qed.

(** C9 as stated fails when the type of a part contains a carriage return:
    the type is copied into the markup. *)
Lemma C9_counterexample :
  exists r,
    renderLine Z Z.mul intText
      (mkInput Z (lit "a") 4 7 (-1) rw_none false false
         [mkToken 0 [120; CharCode.CarriageReturn]])
    = Returned r /\
    CharCode.CarriageReturn ∈ output r.
Proof.
  eexists. split; [reflexivity|].
  apply list_elem_of_In. vm_compute.
  repeat (first [left; reflexivity | right]).
Qed.

(** ** The further properties at integer pixel widths *)

Lemma intText_noAngle z : noAngle (intText z).
Proof.
  unfold intText.
  assert (forall d, noAngle (lit (NilEmpty.string_of_uint d))) as Huint.
  { induction d; simpl; try constructor; try done; exact IHd. }
  assert (forall d, noAngle (lit (NilZero.string_of_uint d))) as Hzero.
  { intros d. destruct d; try apply Huint. by repeat constructor. }
  destruct (Z.to_int z) as [d|d]; simpl.
  - apply Hzero.
  - constructor; [done | apply Hzero].
Qed.

(** A line with a tab, a space and escaped characters in a whitespace
    part and a plain part, truncated inside the second part. *)
Lemma X1_witness :
  let input :=
    mkInput Z (CharCode.Tab :: lit " a<b>") 4 7 5 rw_all false false
      [mkToken 0 (lit "leading whitespace"); mkToken 2 (lit "text")] in
  codeUnits (lineText Z input) /\
  exists r k part front seg closing,
    renderLine Z Z.mul intText input = Returned r /\
    lastRenderedPartIndex r = Z.of_nat k /\
    parts Z input !! k = Some part /\
    Forall2 (isSegment Z Z.mul intText input span_close) (take k (parts Z input)) front /\
    isSegment Z Z.mul intText input closing part seg /\
    output r = lit "<span>" ++ concat front ++ seg ++ span_close /\
    ((charBreakIndex Z input < lineTextLength Z input /\ closing = hellip_span) \/
     (lineTextLength Z input <= charBreakIndex Z input /\ closing = span_close /\
      S k = length (parts Z input))).
Proof.
  intros input.
  assert (codeUnits (lineText Z input)) as Hunits
    by (repeat constructor; by vm_compute).
  split; [exact Hunits|].
  exact (X1_markup_one_span_per_rendered_part Z Z.mul intText input Hunits
           ltac:(done) ltac:(done)).
Defined.

Lemma X2_witness :
  let input :=
    mkInput Z (lit "<i>a</i>") 4 7 (-1) rw_none false false
      [mkToken 0 (lit "text"); mkToken 3 (lit "more")] in
  exists r, renderLine Z Z.mul intText input = Returned r /\
    lastRenderedPartIndex r = 1 /\
    occurrences CharCode.LessThan (output r) = 6%nat /\
    occurrences CharCode.GreaterThan (output r) = 6%nat.
Proof.
  intros input.
  destruct (X2_text_never_adds_a_tag Z Z.mul intText input) as (r & Hr & Hlt & Hgt).
  - repeat constructor; by vm_compute.
  - repeat constructor; by vm_compute.
  - exact intText_noAngle.
  - done.
  - done.
  - exists r. split; [exact Hr|].
    assert (lastRenderedPartIndex r = 1) as Hidx
      by (clear -Hr; vm_compute in Hr; by injection Hr as <-).
    rewrite Hidx in Hlt, Hgt. split_and!; [done | lia | lia].
Defined.

Lemma X5_witness :
  renderLine Z Z.mul intText
    (mkInput Z (lit "a b") 4 7 (-1) rw_all false false
       [mkToken 0 (lit "text"); mkToken 1 (lit "blank"); mkToken 2 (lit "text")]) =
  renderLine Z Z.mul intText
    (mkInput Z (lit "a b") 4 9 (-1) rw_none false false
       [mkToken 0 (lit "text"); mkToken 1 (lit "blank"); mkToken 2 (lit "text")]).
Proof.
  apply X5_spaceWidth_matters_in_whitespace_parts_only. right.
  repeat constructor.
Defined.

Lemma X7_witness :
  let input :=
    mkInput Z (lit "x=y+1;") 4 7 (-1) rw_all false false
      [mkToken 0 (lit "source")] in
  Forall ordinary (lineText Z input) /\
  renderLine Z Z.mul intText input =
  Returned
    (mkOutput
       [Some (Int 0); Some (Int 1); Some (Int 2); Some (Int 3); Some (Int 4);
        Some (Int 5); Some (Int 6)] 0
       (lit "<span>" ++ plainOpen (lit "source") ++ lit "x=y+1;"
          ++ lit "</span></span>")).
Proof.
  intros input.
  assert (Forall ordinary (lineText Z input)) as Hord
    by (repeat constructor; by vm_compute).
  split; [exact Hord|].
  exact (X7_ordinary_text_passes_through Z Z.mul intText input
           (mkToken 0 (lit "source")) eq_refl eq_refl (or_intror eq_refl)
           ltac:(done) Hord).
Defined.

(** Two tabs and two letters in one part, at tab size 4: the offsets are
    0, 4, 5, 8 and 9. *)
Lemma X8_witness :
  let input :=
    mkInput Z [CharCode.Tab; 97; CharCode.Tab; 98] 4 7 (-1) rw_none false false
      [mkToken 0 (lit "text")] in
  validRequest Z input /\
  exists r, renderLine Z Z.mul intText input = Returned r /\
    forall x y,
      (entry (charOffsetInPart r) 0 x -> entry (charOffsetInPart r) 1 y ->
         x + 1 <= y <= x + 4) /\
      (entry (charOffsetInPart r) 1 x -> entry (charOffsetInPart r) 2 y ->
         y = x + 1).
Proof.
  intros input.
  assert (validRequest Z input) as Hvalid.
  { split; [by vm_compute|]. simpl. by split_and!. }
  split; [exact Hvalid|].
  destruct (X8_offsets_advance_by_columns Z Z.mul intText input Hvalid ltac:(done))
    as (r & Hr & H).
  exists r. split; [exact Hr|]. intros x y. split.
  - intros Hx Hy.
    apply (H 0%nat x y Hx Hy); [|intros Hlt; vm_compute in Hlt; discriminate|done].
    intros Hin. apply list_elem_of_singleton in Hin. discriminate.
  - intros Hx Hy.
    apply (H 1%nat x y Hx Hy); [|intros Hlt; vm_compute in Hlt; discriminate|done].
    intros Hin. apply list_elem_of_singleton in Hin. discriminate.
Defined.

Lemma X9_witness :
  let input :=
    mkInput Z [97; 98; CharCode.Tab; 99] 4 7 (-1) rw_none false false
      [mkToken 0 (lit "text")] in
  validRequest Z input /\
  exists r, renderLine Z Z.mul intText input = Returned r /\
    forall x y,
      entry (charOffsetInPart r) 2 x -> entry (charOffsetInPart r) 3 y ->
      y mod 4 = 0 /\ x < y <= x + 4.
Proof.
  intros input.
  assert (validRequest Z input) as Hvalid.
  { split; [by vm_compute|]. simpl. by split_and!. }
  split; [exact Hvalid|].
  destruct (X9_tabs_reach_tab_stops Z Z.mul intText input (mkToken 0 (lit "text"))
              Hvalid eq_refl ltac:(done))
    as (r & Hr & H).
  exists r. split; [exact Hr|]. intros x y Hx Hy.
  apply (H 2%nat x y Hx Hy); [intros Hlt; vm_compute in Hlt; discriminate | done].
Defined.

(** A whitespace part of a tab and a space at tab size 4: five glyphs, and
    the offset 5 behind the part. *)
Lemma X10_witness :
  let input :=
    mkInput Z [CharCode.Tab; CharCode.Space; 97] 4 7 (-1) rw_all false false
      [mkToken 0 (lit "whitespace"); mkToken 2 (lit "text")] in
  exists st' cnt content,
    whitespacePart Z Z.mul intText input (mkToken 0 (lit "whitespace")) 0 2
      (resetOffset initialLocals) = Next st' /\
    offsetInPart st' = Int cnt /\
    out st' = out initialLocals
      ++ whitespaceOpen Z Z.mul intText 7 (lit "whitespace") cnt
      ++ content ++ span_close.
Proof.
  intros input.
  pose proof (X10_whitespace_width_is_columns Z Z.mul intText input
    (mkToken 0 (lit "whitespace")) 0 2 initialLocals
    ltac:(by vm_compute) ltac:(by exists 0) eq_refl) as H.
  destruct (whitespacePart Z Z.mul intText input _ 0 2 (resetOffset initialLocals))
    as [st'|r] eqn:Hpart; [|by vm_compute in Hpart].
  destruct H as (cnt & content & Ho & Hout).
  by exists st', cnt, content.
Defined.

Lemma X11_witness :
  let input :=
    mkInput Z (CharCode.Tab :: lit "abc") 4 7 3 rw_none false false
      [mkToken 0 (lit "text")] in
  exists r r',
    renderLine Z Z.mul intText input = Returned r /\
    renderLine Z Z.mul intText (withStopRenderingLineAfter Z (-1) input)
      = Returned r' /\
    (length (charOffsetInPart r) <= length (charOffsetInPart r'))%nat /\
    forall i, (S i < length (charOffsetInPart r))%nat ->
      charOffsetInPart r !! i = charOffsetInPart r' !! i.
Proof.
  intros input.
  exact (X11_truncation_keeps_earlier_offsets Z Z.mul intText input
           ltac:(done) ltac:(done)).
Defined.

Lemma X12_witness :
  let input :=
    mkInput Z [CharCode.Tab; 97] 0 7 (-1) rw_none false false
      [mkToken 0 (lit "text")] in
  let w := mkWs initialLocals 0 [] in
  out (plainChar Z input (ws w)) = out (ws w) /\
  offsetInPart (plainChar Z input (ws w)) = NaN /\
  partContentCnt (whitespaceChar Z input w) = 0.
Proof.
  intros input w.
  destruct (X12_nonpositive_tabSize_drops_tabs Z input w
              ltac:(by vm_compute) eq_refl)
    as (Hout & _ & Hcnt & Hnan).
  destruct (Hnan eq_refl) as (Ho & _).
  by split_and!.
Defined.

Lemma X13_witness :
  let input :=
    mkInput Z (lit "abcdef") 4 7 (-1) rw_none false false
      [mkToken 4 (lit "late"); mkToken 2 (lit "early"); mkToken 9 (lit "beyond")] in
  exists r,
    renderLine Z Z.mul intText input = Returned r /\
    visitedIndices Z Z.mul intText input = [0; 1; 2; 3; 4; 5]%nat /\
    length (charOffsetInPart r) = 7%nat.
Proof.
  intros input.
  destruct (X13_every_index_once_whatever_the_parts Z Z.mul intText input
              ltac:(done) ltac:(done))
    as (r & n & Hr & Hidx & [(Hlt & _)|(_ & -> & Hlen)]).
  - by vm_compute in Hlt.
  - exists r. by split_and!.
Defined.

Lemma X14_witness :
  let input :=
    mkInput Z [CharCode.HardSpace] 4 7 (-1) rw_none true false
      [mkToken 0 (lit "text")] in
  out (plainChar Z input initialLocals) = lit "<span>&middot;" /\
  offsetInPart (plainChar Z input initialLocals) = Int 1.
Proof.
  intros input.
  destruct (X14_plain_dedicated_characters Z input initialLocals
              CharCode.HardSpace 0 eq_refl eq_refl)
    as (_ & _ & _ & Hhard & Ho).
  split; [exact (Hhard eq_refl) | by apply Ho].
Defined.

(** ** The marker navigation, verified *)

Import MarkerModel.

Section MarkerModelFacts.

Context {IMarker Severity Position : Type}.
Context `{!MarkerHost IMarker Severity Position}.

Lemma item_lookup {A : Type} (a : list A) (i : Z) :
  0 <= i -> item a i = a !! Z.to_nat i.
Proof. intros Hi. unfold item. by rewrite (proj2 (Z.ltb_ge _ _) Hi). Qed.

(** The index that the loop of [initIdx] assigns lies between [i - 1] and
    the last index. *)
Lemma initIdxLoop_range fwd position markers :
  forall i idx,
    initIdxLoop fwd position markers i = Some idx ->
    i - 1 <= idx < i + Z.of_nat (length markers).
Proof.
  induction markers as [|marker rest IH]; intros i idx; simpl; [done|].
  destruct (isBeforeOrEqual _ _).
  - intros [= <-]. destruct fwd; lia.
  - intros Hidx. apply IH in Hidx. lia.
Qed.

Lemma initIdx_range fwd position this :
  _markers this <> [] ->
  0 <= _nextIdx (initIdx fwd position this) < Z.of_nat (length (_markers this)).
Proof.
  intros Hne. unfold initIdx. cbn [_nextIdx setNextIdx].
  assert (0 < Z.of_nat (length (_markers this))) as Hlen
    by (destruct (_markers this); [done | simpl; lia]).
  destruct (initIdxLoop fwd position (_markers this) 0) as [idx|] eqn:Hloop.
  - apply initIdxLoop_range in Hloop.
    destruct (Z.ltb_spec idx 0); lia.
  - destruct fwd;
      match goal with
      | |- context [?a <? 0] => destruct (Z.ltb_spec a 0)
      end; lia.
Qed.

(** A move from the index of a marker: one forward or backward, around
    the ends. *)
Lemma move_from_index (fwd : bool) position this :
  0 <= _nextIdx this < total this ->
  let idx :=
    (if fwd then _nextIdx this + 1 else _nextIdx this - 1) mod total this in
  move fwd position this
  = (setNextIdx idx this, _markers this !! Z.to_nat idx) /\
  0 <= idx < total this.
Proof.
  intros Hidx idx. unfold total in *.
  assert (0 <= idx < Z.of_nat (length (_markers this))) as Hrange
    by (apply Z.mod_pos_bound; lia).
  split; [|done].
  unfold move, canNavigate.
  rewrite (proj2 (Z.ltb_lt _ _)) by lia. cbn [negb].
  rewrite (proj2 (Z.eqb_neq _ _)) by lia.
  assert (idx = if fwd
                then (if Z.of_nat (length (_markers this)) <=? _nextIdx this + 1
                      then 0 else _nextIdx this + 1)
                else (if _nextIdx this - 1 <? 0
                      then Z.of_nat (length (_markers this)) - 1
                      else _nextIdx this - 1)) as Hcase.
  { subst idx. unfold total. destruct fwd.
    - destruct (Z.leb_spec (Z.of_nat (length (_markers this))) (_nextIdx this + 1)).
      + replace (_nextIdx this + 1) with (Z.of_nat (length (_markers this))) by lia.
        apply Z_mod_same_full.
      + apply Z.mod_small. lia.
    - destruct (Z.ltb_spec (_nextIdx this - 1) 0).
      + replace (_nextIdx this - 1)
          with (Z.of_nat (length (_markers this)) - 1
                + (-1) * Z.of_nat (length (_markers this))) by lia.
        rewrite Z_mod_plus_full. apply Z.mod_small. lia.
      + apply Z.mod_small. lia. }
  destruct fwd; cbv zeta; rewrite <- Hcase;
    cbn [_markers _nextIdx setNextIdx];
    by rewrite item_lookup by lia.
Qed.

(** X15. [next] and [previous] announce a marker whenever there is one.
    With markers, a move from an index that is [-1] or the index of a
    marker ends at the index of a marker and fires that marker, never
    [undefined]; it changes nothing but the index.  Without markers it
    fires [undefined] and changes nothing. *)
Theorem X15_move_announces_a_marker fwd position this
    (Hinv : indexInv this) :
  (_markers this = [] -> move fwd position this = (this, None)) /\
  (_markers this <> [] ->
   exists idx marker,
     move fwd position this = (setNextIdx idx this, Some marker) /\
     0 <= idx < total this /\
     _markers this !! Z.to_nat idx = Some marker).
Proof.
  split.
  - intros Hnil. unfold move, canNavigate. by rewrite Hnil.
  - intros Hne. destruct Hinv as [Hnone|Hidx].
    + unfold move, canNavigate.
      assert (0 < Z.of_nat (length (_markers this))) as Hlen
        by (destruct (_markers this); [done | simpl; lia]).
      rewrite (proj2 (Z.ltb_lt _ _) Hlen), Hnone. cbn [negb Z.eqb Pos.eqb].
      pose proof (initIdx_range fwd position this Hne) as Hrange.
      destruct (lookup_lt_is_Some_2 (_markers this)
                  (Z.to_nat (_nextIdx (initIdx fwd position this))) ltac:(lia))
        as [marker Hmarker].
      exists (_nextIdx (initIdx fwd position this)), marker.
      split; [|split; [exact Hrange | exact Hmarker]].
      f_equal. rewrite item_lookup by lia. exact Hmarker.
    + destruct (move_from_index fwd position this Hidx) as [Hmove Hrange].
      cbv zeta in Hmove, Hrange.
      destruct (lookup_lt_is_Some_2 (_markers this) _
                  ltac:(unfold total in Hrange;
                        apply Nat2Z.inj_lt; rewrite Z2Nat.id; [apply Hrange | lia]))
        as [marker Hmarker].
      eexists _, marker. split; [|split; [exact Hrange | exact Hmarker]].
      rewrite Hmove. f_equal. exact Hmarker.
Qed.

(** X16. [previous] undoes [next] and [next] undoes [previous]: from the
    index of a marker, one move forward and one move backward, in either
    order and wherever the cursor is, lead back to the same fields. *)
Theorem X16_next_and_previous_undo_each_other position position' this
    (Hidx : 0 <= _nextIdx this < total this) :
  fst (previous position' (fst (next position this))) = this /\
  fst (next position' (fst (previous position this))) = this.
Proof.
  unfold next, previous.
  destruct (move_from_index true position this Hidx) as [Hfwd Hfwd_range].
  destruct (move_from_index false position this Hidx) as [Hbwd Hbwd_range].
  cbv zeta in *. rewrite Hfwd, Hbwd. cbn [fst].
  destruct (move_from_index false position'
              (setNextIdx ((_nextIdx this + 1) mod total this) this) Hfwd_range)
    as [-> _].
  destruct (move_from_index true position'
              (setNextIdx ((_nextIdx this - 1) mod total this) this) Hbwd_range)
    as [-> _].
  cbn [fst _nextIdx setNextIdx _markers _ignoreSelectionChange].
  change (total (setNextIdx _ this)) with (total this).
  unfold setNextIdx.
  cbn [_nextIdx _markers _ignoreSelectionChange].
  rewrite Zminus_mod_idemp_l, Zplus_mod_idemp_l.
  replace (_nextIdx this + 1 - 1) with (_nextIdx this) by lia.
  replace (_nextIdx this - 1 + 1) with (_nextIdx this) by lia.
  rewrite Z.mod_small by lia. by destruct this.
Qed.

(** [n] moves forward from the index of a marker. *)
Lemma next_iter position this n :
  0 <= _nextIdx this < total this ->
  Nat.iter n (fun this => fst (next position this)) this
  = setNextIdx ((_nextIdx this + Z.of_nat n) mod total this) this.
Proof.
  intros Hidx. induction n as [|n IH].
  - simpl. rewrite Z.add_0_r, Z.mod_small by lia. by destruct this.
  - rewrite Nat.iter_succ, IH. unfold next.
    destruct (move_from_index true position
                (setNextIdx ((_nextIdx this + Z.of_nat n) mod total this) this))
      as [-> _].
    { cbn [_nextIdx setNextIdx].
      change (total (setNextIdx _ this)) with (total this).
      apply Z.mod_pos_bound. lia. }
    cbn [fst _nextIdx setNextIdx _markers _ignoreSelectionChange].
    change (total (setNextIdx _ this)) with (total this).
    unfold setNextIdx.
    cbn [_nextIdx _markers _ignoreSelectionChange].
    rewrite Zplus_mod_idemp_l. do 2 f_equal. lia.
Qed.

(** X17. [next] runs through the markers in a cycle.  From the index of a
    marker, [n] moves forward end at that index plus [n], counted around
    the number of markers, and the move behind them fires the marker that
    follows; as many moves as there are markers lead back to where they
    began. *)
Theorem X17_next_cycles_through_the_markers position this n
    (Hidx : 0 <= _nextIdx this < total this) :
  let moved := Nat.iter n (fun this => fst (next position this)) this in
  _nextIdx moved = (_nextIdx this + Z.of_nat n) mod total this /\
  snd (next position moved)
  = _markers this !! Z.to_nat ((_nextIdx this + Z.of_nat n + 1) mod total this) /\
  Nat.iter (length (_markers this)) (fun this => fst (next position this)) this
  = this.
Proof.
  intros moved. subst moved. rewrite !next_iter by done. split_and!.
  - done.
  - unfold next.
    destruct (move_from_index true position
                (setNextIdx ((_nextIdx this + Z.of_nat n) mod total this) this))
      as [-> _].
    { cbn [_nextIdx setNextIdx].
      change (total (setNextIdx _ this)) with (total this).
      apply Z.mod_pos_bound. lia. }
    cbn [snd _nextIdx setNextIdx _markers].
    change (total (setNextIdx _ this)) with (total this).
    by rewrite Zplus_mod_idemp_l.
  - unfold total in *.
    replace (_nextIdx this + Z.of_nat (length (_markers this)))
      with (_nextIdx this + 1 * Z.of_nat (length (_markers this))) by lia.
    rewrite Z_mod_plus_full, Z.mod_small by lia. by destruct this.
Qed.

(** What the loop of [initIdx] finds. *)
Lemma initIdxLoop_first (fwd : bool) position markers :
  forall i,
    (forall k, firstAtOrBehind position markers k ->
       initIdxLoop fwd position markers i
       = Some (i + Z.of_nat k + (if fwd then 0 else -1))) /\
    ((forall marker, marker ∈ markers -> atOrBehind position marker = false) ->
       initIdxLoop fwd position markers i = None).
Proof.
  induction markers as [|marker rest IH]; intros i.
  - split; [|done]. by intros k [(m & Hm & _) _].
  - cbn [initIdxLoop].
    change (isBeforeOrEqual position
              (mkIPosition (startLineNumber marker) (startColumn marker)))
      with (atOrBehind position marker).
    destruct (IH (i + 1)) as [IHfound IHnone]. split.
    + intros k [(m & Hm & Hat) Hfirst]. destruct k as [|k].
      * injection Hm as ->. rewrite Hat. do 2 f_equal. lia.
      * rewrite (Hfirst 0%nat marker ltac:(lia) eq_refl).
        rewrite (IHfound k).
        -- do 2 f_equal. lia.
        -- split; [by exists m|]. intros j m' Hj Hm'.
           apply (Hfirst (S j) m'); [lia | done].
    + intros Hnone. rewrite (Hnone marker) by (by left).
      apply IHnone. intros m Hm. apply Hnone. by right.
Qed.

(** X18. The first move starts from the cursor.  When no marker is current
    and there are markers, [next] goes to the first marker that starts at
    or behind the cursor and [previous] to the marker in front of that
    one, the last marker when that one is the first; when every marker
    starts in front of the cursor, [next] goes to the first marker and
    [previous] to the last. *)
Theorem X18_first_move_starts_from_the_cursor (fwd : bool) position this
    (Hnone : _nextIdx this = -1) (Hne : _markers this <> []) :
  let idx := _nextIdx (fst (move fwd position this)) in
  (forall k, firstAtOrBehind position (_markers this) k ->
     idx = if fwd then Z.of_nat k
           else if decide (k = 0%nat) then total this - 1 else Z.of_nat k - 1) /\
  ((forall marker, marker ∈ _markers this -> atOrBehind position marker = false) ->
     idx = if fwd then 0 else total this - 1).
Proof.
  intros idx. subst idx.
  unfold move, canNavigate, total.
  assert (0 < Z.of_nat (length (_markers this))) as Hlen
    by (destruct (_markers this); [done | simpl; lia]).
  rewrite (proj2 (Z.ltb_lt _ _) Hlen), Hnone.
  cbn [negb Z.eqb Pos.eqb fst]. unfold initIdx.
  cbn [_nextIdx setNextIdx].
  destruct (initIdxLoop_first fwd position (_markers this) 0) as [Hfound Hnot].
  split.
  - intros k Hk. rewrite (Hfound k Hk).
    destruct fwd.
    + rewrite (proj2 (Z.ltb_ge _ _)) by lia. lia.
    + destruct (decide (k = 0%nat)) as [->|Hk0].
      * by rewrite (proj2 (Z.ltb_lt _ _)) by lia.
      * rewrite (proj2 (Z.ltb_ge _ _)) by lia. lia.
  - intros Hall. rewrite (Hnot Hall). destruct fwd.
    + done.
    + by rewrite (proj2 (Z.ltb_ge _ _)) by lia.
Qed.

Lemma statsLoop_counts markers :
  forall errors others,
    statsLoop markers errors others
    = (errors
       + Z.of_nat (length (filter (fun marker => severity marker = Severity_Error)
                             markers)),
       others
       + Z.of_nat (length (filter (fun marker => severity marker <> Severity_Error)
                             markers))).
Proof.
  induction markers as [|marker rest IH]; intros errors others.
  - simpl. by rewrite !Z.add_0_r.
  - cbn [statsLoop]. rewrite !filter_cons.
    destruct (decide (severity marker = Severity_Error)) as [Heq|Hne].
    + rewrite IH, decide_False by (by intros ?). cbn [length]. f_equal; lia.
    + rewrite IH, decide_True by done. cbn [length]. f_equal; lia.
Qed.

(** X19. [stats] counts every marker once: [errors] is the number of the
    markers whose severity is [Severity.Error], [others] the number of the
    remaining ones, and the two add up to [total]. *)
Theorem X19_stats_count_every_marker_once this :
  fst (stats this)
  = Z.of_nat (length (filter (fun marker => severity marker = Severity_Error)
                        (_markers this))) /\
  snd (stats this)
  = Z.of_nat (length (filter (fun marker => severity marker <> Severity_Error)
                        (_markers this))) /\
  fst (stats this) + snd (stats this) = total this.
Proof.
  unfold stats, total. rewrite statsLoop_counts.
  cbn [fst snd]. split_and!; [done | done |].
  induction (_markers this) as [|marker rest IH]; [done|].
  rewrite !filter_cons.
  destruct (decide (severity marker = Severity_Error)) as [Heq|Hne].
  - rewrite decide_False by (by intros ?). cbn [length]. lia.
  - rewrite decide_True by done. cbn [length]. lia.
Qed.

Lemma arrayIndexOf_spec (markers : list IMarker) marker :
  forall i,
    (marker ∉ markers -> arrayIndexOf markers marker i = -1) /\
    (marker ∈ markers ->
     exists k : nat,
       arrayIndexOf markers marker i = i + Z.of_nat k /\
       markers !! k = Some marker /\
       forall j, (j < k)%nat -> markers !! j <> Some marker).
Proof.
  induction markers as [|m rest IH]; intros i.
  - split; [done|]. intros Hin. by apply elem_of_nil in Hin.
  - cbn [arrayIndexOf]. destruct (decide (m = marker)) as [->|Hne].
    + split; [intros Hnot; destruct Hnot; by left|].
      intros _. exists 0%nat. split_and!; [lia | done | intros j Hj; lia].
    + destruct (IH (i + 1)) as [IHnot IHin]. split.
      * intros Hnot. apply IHnot. intros Hin. apply Hnot. by right.
      * intros Hin. apply elem_of_cons in Hin as [->|Hin]; [done|].
        destruct (IHin Hin) as (k & Hk & Hlook & Hfirst).
        exists (S k). split_and!; [lia | done |].
        intros [|j] Hj; simpl; [by intros [= ?] | apply Hfirst; lia].
Qed.

(** X20. [indexOf] numbers the markers from 1.  It is 0 for a marker that
    the model does not hold; for one that it holds it lies between 1 and
    [total] and is the place of the first occurrence of that marker.  The
    marker that a move fires has such a place. *)
Theorem X20_indexOf_counts_from_one this marker :
  (marker ∉ _markers this -> indexOf this marker = 0) /\
  (marker ∈ _markers this ->
     1 <= indexOf this marker <= total this /\
     item (_markers this) (indexOf this marker - 1) = Some marker /\
     forall j, 0 <= j < indexOf this marker - 1 ->
       item (_markers this) j <> Some marker) /\
  (forall fwd position this',
     move fwd position this = (this', Some marker) ->
     1 <= indexOf this' marker <= total this').
Proof.
  unfold indexOf, total.
  destruct (arrayIndexOf_spec (_markers this) marker 0) as [Hnot Hin].
  assert (marker ∈ _markers this ->
          1 <= 1 + arrayIndexOf (_markers this) marker 0
            <= Z.of_nat (length (_markers this))) as Hplace.
  { intros Hm. destruct (Hin Hm) as (k & -> & Hlook & _).
    apply lookup_lt_Some in Hlook. lia. }
  split_and!.
  - intros Hm. by rewrite (Hnot Hm).
  - intros Hm. split; [by apply Hplace|].
    destruct (Hin Hm) as (k & -> & Hlook & Hfirst). split.
    + rewrite item_lookup by lia.
      by replace (Z.to_nat (1 + (0 + Z.of_nat k) - 1)) with k by lia.
    + intros j Hj. rewrite item_lookup by lia. apply Hfirst. lia.
  - intros fwd position this' Hmove.
    assert (_markers this' = _markers this /\ marker ∈ _markers this) as [-> Hm].
    { unfold move in Hmove.
      destruct (negb (canNavigate this)); [done|].
      injection Hmove as <- Hitem.
      assert (forall that : fields IMarker,
                _markers that = _markers this ->
                item (_markers that) (_nextIdx that) = Some marker ->
                _markers that = _markers this /\ marker ∈ _markers this) as Hthat.
      { intros that Heq Hitem'. split; [done|]. rewrite <- Heq.
        unfold item in Hitem'. destruct (_nextIdx that <? 0); [done|].
        by eapply list_elem_of_lookup_2. }
      destruct (_nextIdx this =? -1); [|destruct fwd]; by apply Hthat. }
    by apply Hplace.
Qed.

(** X21. [findMarkerAtPosition] gives the first marker that contains the
    position, and [undefined] exactly when no marker contains it. *)
Theorem X21_findMarkerAtPosition_gives_the_first (this : fields IMarker) pos :
  (findMarkerAtPosition this pos = None <->
   forall marker, marker ∈ _markers this ->
     containsPosition marker pos = false) /\
  (forall marker,
     findMarkerAtPosition this pos = Some marker ->
     exists k,
       _markers this !! k = Some marker /\
       containsPosition marker pos = true /\
       forall j other, (j < k)%nat -> _markers this !! j = Some other ->
         containsPosition other pos = false).
Proof.
  unfold findMarkerAtPosition.
  induction (_markers this) as [|m rest [IHnone IHsome]].
  - split; [split; [by intros _ marker Hin%elem_of_nil | done] | done].
  - cbn [findMarkerLoop].
    destruct (containsPosition m pos) eqn:Hm.
    + split.
      * split; [done|]. intros Hall.
        rewrite (Hall m) in Hm by (by left). done.
      * intros marker [= <-]. exists 0%nat.
        split_and!; [done | done | intros j other Hj; lia].
    + split.
      * rewrite IHnone. split.
        -- intros Hall marker Hin.
           apply elem_of_cons in Hin as [->|Hin]; [done | by apply Hall].
        -- intros Hall marker Hin. apply Hall. by right.
      * intros marker Hfind.
        destruct (IHsome marker Hfind) as (k & Hk & Hc & Hfirst).
        exists (S k). split_and!; [done | done |].
        intros [|j] other Hj; simpl.
        -- by intros [= <-].
        -- apply Hfirst. lia.
Qed.

Lemma ignored_events events (this : fields IMarker) :
  _ignoreSelectionChange this = true ->
  Nat.iter events onDidChangeCursorPosition this = this.
Proof.
  intros Hflag. induction events as [|events IH]; [done|].
  rewrite Nat.iter_succ, IH. unfold onDidChangeCursorPosition.
  by rewrite Hflag.
Qed.

(** X22. [reveal] keeps the current marker.  Changes of the cursor
    position that the editor reports while [reveal] moves the cursor leave
    the index as it is, and the flag is cleared behind them; the position
    handed to the editor is the start of the current marker.  Reported
    outside, one such change makes no marker current. *)
Theorem X22_reveal_keeps_the_current_marker events this
    (Hinv : indexInv this) :
  _nextIdx (fst (reveal events this)) = _nextIdx this /\
  _markers (fst (reveal events this)) = _markers this /\
  (_nextIdx this <> -1 ->
     _ignoreSelectionChange (fst (reveal events this)) = false /\
     exists marker,
       _markers this !! Z.to_nat (_nextIdx this) = Some marker /\
       snd (reveal events this)
       = Some (mkIPosition (startLineNumber marker) (startColumn marker))) /\
  (_nextIdx this = -1 -> reveal events this = (this, None)) /\
  (_ignoreSelectionChange this = false ->
     _nextIdx (onDidChangeCursorPosition this) = -1).
Proof.
  unfold reveal, withoutWatchingEditorPosition.
  destruct (Z.eqb_spec (_nextIdx this) (-1)) as [Hnone|Hsome].
  - split_and!; [done | done | done | done |].
    intros Hflag. unfold onDidChangeCursorPosition. by rewrite Hflag.
  - rewrite ignored_events by done. cbn [fst snd].
    split_and!; [done | done | | done |].
    + intros _. split; [done|].
      destruct Hinv as [?|Hidx]; [done|].
      destruct (lookup_lt_is_Some_2 (_markers this) (Z.to_nat (_nextIdx this))
                  ltac:(lia)) as [marker Hmarker].
      exists marker. split; [done|].
      by rewrite item_lookup, Hmarker by lia.
    + intros Hflag. unfold onDidChangeCursorPosition. by rewrite Hflag.
Qed.

End MarkerModelFacts.

(** *** The message of a marker *)

(** The replacement copies a line without breaks as it is. *)
Lemma replaceBreaks_line indent line message lines :
  MessageWidget.noBreak line ->
  MessageWidget.replaceBreaks indent (line ++ message) lines
  = (line ++ fst (MessageWidget.replaceBreaks indent message lines),
     snd (MessageWidget.replaceBreaks indent message lines)).
Proof.
  induction 1 as [|c line [Hcr Hlf] _ IH]; cbn [app].
  - by destruct (MessageWidget.replaceBreaks indent message lines).
  - cbn [MessageWidget.replaceBreaks].
    rewrite (proj2 (Z.eqb_neq c 13)), (proj2 (Z.eqb_neq c 10)) by done.
    by rewrite IH.
Qed.

(** Each of the three line breaks is replaced by one line feed with the
    indentation and counted once. *)
Lemma replaceBreaks_break indent brk message lines :
  MessageWidget.isLineBreak brk ->
  (brk = [13] -> head message <> Some 10) ->
  MessageWidget.replaceBreaks indent (brk ++ message) lines
  = (10 :: indent ++ fst (MessageWidget.replaceBreaks indent message (lines + 1)),
     snd (MessageWidget.replaceBreaks indent message (lines + 1))).
Proof.
  intros [->|[->| ->]] Hnext; cbn [app MessageWidget.replaceBreaks Z.eqb Pos.eqb].
  - by destruct (MessageWidget.replaceBreaks indent message (lines + 1)).
  - destruct message as [|d message].
    + cbn [MessageWidget.replaceBreaks fst snd]. by rewrite app_nil_r.
    + destruct (Z.eqb_spec d 10) as [->|_]; [by destruct (Hnext eq_refl)|].
      by destruct (MessageWidget.replaceBreaks indent (d :: message) (lines + 1)).
  - by destruct (MessageWidget.replaceBreaks indent message (lines + 1)).
Qed.

(** What the replacement makes of a message: its lines, with a line feed
    and the indentation in front of every line but the first, and one more
    in [lines] for each of these. *)
Lemma replaceBreaks_splits indent message first rest :
  MessageWidget.splitsInto message first rest ->
  forall lines,
    MessageWidget.replaceBreaks indent message lines
    = (MessageWidget.lineJoin (10 :: indent) first rest,
       lines + Z.of_nat (length rest)).
Proof.
  induction 1 as [line Hline|line brk message first rest Hline Hbrk Hnext _ IH];
    intros lines.
  - rewrite <- (app_nil_r line) at 1. rewrite (replaceBreaks_line _ _ _ _ Hline).
    unfold MessageWidget.lineJoin. cbn. f_equal. lia.
  - rewrite (replaceBreaks_line _ _ _ _ Hline).
    rewrite (replaceBreaks_break _ _ _ _ Hbrk Hnext), IH.
    unfold MessageWidget.lineJoin. cbn [fst snd map concat length app].
    rewrite <- !app_assoc. f_equal. lia.
Qed.

Lemma splitsInto_cons c message first rest :
  c <> 13 -> c <> 10 -> MessageWidget.splitsInto message first rest ->
  MessageWidget.splitsInto (c :: message) (c :: first) rest.
Proof.
  intros Hcr Hlf [line Hline|line brk message' first' rest' Hline Hbrk Hnext Hrest].
  - apply MessageWidget.splits_last. by constructor.
  - apply (MessageWidget.splits_break (c :: line) brk message' first' rest');
      [by constructor | done..].
Qed.

(** Every message consists of lines. *)
Lemma splitsInto_total n :
  forall message, (length message <= n)%nat ->
    exists first rest, MessageWidget.splitsInto message first rest.
Proof.
  assert (MessageWidget.noBreak []) as Hnil by constructor.
  induction n as [|n IH]; intros message Hlen.
  - destruct message; [|simpl in Hlen; lia].
    exists [], []. by apply MessageWidget.splits_last.
  - destruct message as [|c message].
    { exists [], []. by apply MessageWidget.splits_last. }
    simpl in Hlen.
    destruct (Z.eq_dec c 13) as [->|Hcr].
    + destruct message as [|d message].
      * exists [], [[]].
        apply (MessageWidget.splits_break [] [13] [] [] []);
          [done | right; by left | done |].
        by apply MessageWidget.splits_last.
      * destruct (Z.eq_dec d 10) as [->|Hlf].
        -- destruct (IH message ltac:(simpl in Hlen; lia)) as (first & rest & Hsplit).
           exists [], (first :: rest).
           by apply (MessageWidget.splits_break [] [13; 10] message first rest);
             [done | left | |].
        -- destruct (IH (d :: message) ltac:(lia)) as (first & rest & Hsplit).
           exists [], (first :: rest).
           apply (MessageWidget.splits_break [] [13] (d :: message) first rest);
             [done | right; by left | | done].
           intros _ [= ?]. done.
    + destruct (Z.eq_dec c 10) as [->|Hlf].
      * destruct (IH message ltac:(lia)) as (first & rest & Hsplit).
        exists [], (first :: rest).
        by apply (MessageWidget.splits_break [] [10] message first rest);
          [done | right; right | |].
      * destruct (IH message ltac:(lia)) as (first & rest & Hsplit).
        exists (c :: first), rest. by apply splitsInto_cons.
Qed.

(** The lines hold the characters of the message other than carriage
    returns and line feeds, in their order. *)
Lemma splitsInto_chars message first rest :
  MessageWidget.splitsInto message first rest ->
  first ++ concat rest = filter (fun c => c <> 13 /\ c <> 10) message.
Proof.
  assert (forall line, MessageWidget.noBreak line ->
            filter (fun c => c <> 13 /\ c <> 10) line = line) as Hkeep.
  { induction 1 as [|c line Hc _ IH]; [done|].
    by rewrite filter_cons, decide_True, IH. }
  induction 1 as [line Hline|line brk message first rest Hline Hbrk _ _ IH].
  - cbn [concat]. by rewrite app_nil_r, Hkeep.
  - rewrite !filter_app, (Hkeep _ Hline), <- IH. cbn [concat]. f_equal.
    destruct Hbrk as [->|[->| ->]];
      by rewrite !filter_cons, !decide_False by (intros [? ?]; done).
Qed.

(** X23. [update] shows the message under its source.  Every message
    consists of lines with one line break between each line and the next,
    where each of a carriage return followed by a line feed, a carriage
    return alone and a line feed alone is one break.  With a source, the
    text shown is the source in brackets and these lines, each line but the
    first behind a line feed and as many spaces as the bracketed source and
    the space behind it are wide; the lines hold the characters of the
    message other than carriage returns and line feeds, [lines] is the
    number of the lines, one more than there are breaks, and the widget
    asks for one line more than that.  Without a source, or with an empty
    one, the message is shown as it is and [lines] is 1, however many lines
    the message has. *)
Theorem X23_update_shows_the_message_under_its_source source message
    (Hsource : source <> []) :
  (exists first rest, MessageWidget.splitsInto message first rest) /\
  (forall first rest,
     MessageWidget.splitsInto message first rest ->
     first ++ concat rest = filter (fun c => c <> 13 /\ c <> 10) message /\
     MessageWidget.update (Some source) message
     = MessageWidget.mkShown (1 + Z.of_nat (length rest))
         (lit "[" ++ source ++ lit "] "
            ++ MessageWidget.lineJoin
                 (10 :: replicate (length (lit "[" ++ source ++ lit "] ")) 32)
                 first rest) /\
     MarkerNavigationWidget.computeRequiredHeight
       (MessageWidget.update (Some source) message)
     = 2 + Z.of_nat (length rest)) /\
  MessageWidget.update None message = MessageWidget.mkShown 1 message /\
  MessageWidget.update (Some []) message = MessageWidget.mkShown 1 message.
Proof.
  split; [by apply (splitsInto_total (length message))|]. split; [|done].
  intros first rest Hsplit.
  destruct source as [|c src]; [done|].
  pose proof (replaceBreaks_splits (replicate (length (c :: src) + 3) 32)
                message first rest Hsplit 1) as Hrep.
  split; [by apply splitsInto_chars|]. split.
  - unfold MessageWidget.update. rewrite Hrep.
    replace (length (lit "[" ++ (c :: src) ++ lit "] "))
      with (length (c :: src) + 3)%nat; [done|].
    rewrite !length_app. simpl. lia.
  - unfold MarkerNavigationWidget.computeRequiredHeight, MessageWidget.update.
    rewrite Hrep. cbn [MessageWidget.lines]. lia.
Qed.

(** ** The marker navigation on markers given by their lines *)

Lemma X15_witness :
  let this := mkFields [3; 5; 9]%nat (-1) false in
  exists idx marker,
    move true 4 this = (setNextIdx idx this, Some marker) /\
    0 <= idx < total this /\
    _markers this !! Z.to_nat idx = Some marker.
Proof.
  intros this.
  exact (proj2 (X15_move_announces_a_marker true 4 this (or_introl eq_refl))
           ltac:(done)).
Defined.

Lemma X16_witness :
  let this := mkFields [3; 5; 9]%nat 2 false in
  fst (previous 7 (fst (next 4 this))) = this.
Proof.
  intros this.
  assert (0 <= _nextIdx this < total this) as Hidx
    by (by vm_compute).
  exact (proj1 (X16_next_and_previous_undo_each_other 4 7 this Hidx)).
Defined.

Lemma X17_witness :
  let this := mkFields [3; 5; 9]%nat 1 false in
  _nextIdx
    (Nat.iter 4 (fun this => fst (next 4 this)) this) = 2.
Proof.
  intros this.
  assert (0 <= _nextIdx this < total this) as Hidx
    by (by vm_compute).
  exact (proj1 (X17_next_cycles_through_the_markers 4 this 4 Hidx)).
Defined.

Lemma X18_witness :
  let this := mkFields [3; 5; 9]%nat (-1) false in
  _nextIdx (fst (move false 2 this)) = 2.
Proof.
  intros this.
  apply (proj1 (X18_first_move_starts_from_the_cursor false 2 this
                  eq_refl ltac:(done)) 0%nat).
  split; [by exists 3%nat | intros j marker Hj; lia].
Defined.

Lemma X22_witness :
  let this := mkFields [3; 5; 9]%nat 1 false in
  _nextIdx (fst (reveal 2 this)) = 1 /\
  snd (reveal 2 this) = Some (mkIPosition 5 1).
Proof.
  intros this.
  assert (indexInv this) as Hinv by (right; by vm_compute).
  destruct (X22_reveal_keeps_the_current_marker 2 this Hinv)
    as (Hidx & _ & Hpos & _).
  split; [exact Hidx|].
  destruct (Hpos ltac:(done)) as (_ & marker & Hmarker & ->).
  by injection Hmarker as <-.
Defined.

(** A message of four lines, with each of the three line breaks once. *)
Lemma X23_witness :
  let message := [97; 13; 10; 98; 13; 99; 10; 100] in
  MessageWidget.splitsInto message [97] [[98]; [99]; [100]] /\
  MessageWidget.update (Some (lit "ts")) message
  = MessageWidget.mkShown 4
      (lit "[ts] a" ++ [10] ++ lit "     b" ++ [10] ++ lit "     c"
         ++ [10] ++ lit "     d") /\
  MarkerNavigationWidget.computeRequiredHeight
    (MessageWidget.update (Some (lit "ts")) message) = 5.
Proof.
  intros message.
  assert (forall c, c <> 13 -> c <> 10 -> MessageWidget.noBreak [c]) as Hone
    by (intros c ? ?; by repeat constructor).
  assert (MessageWidget.splitsInto message [97] [[98]; [99]; [100]]) as Hsplit.
  { apply (MessageWidget.splits_break [97] [13; 10] [98; 13; 99; 10; 100]);
      [by apply Hone | by left | done |].
    apply (MessageWidget.splits_break [98] [13] [99; 10; 100]);
      [by apply Hone | right; by left | done |].
    apply (MessageWidget.splits_break [99] [10] [100]);
      [by apply Hone | right; by right | done |].
    apply MessageWidget.splits_last. by apply Hone. }
  destruct (proj1 (proj2 (X23_update_shows_the_message_under_its_source (lit "ts")
                            message ltac:(done))) _ _ Hsplit)
    as (_ & Hupdate & Hheight).
  split; [exact Hsplit|]. split; [exact Hupdate | exact Hheight].
Defined.
